(** * The AG-UI message registry: streaming message reconstruction

    A shallow embedding of [AguiMessageRegistry.tsx]: the chunk payload
    extractor ([extractJsonPayloads]), the payload interpreter
    ([processPayload] and its handlers), the message store
    ([storeMessage] and the read accessors) and the action recency
    policy ([shouldRenderAction]).

    Conventions of the embedding:
    - a JavaScript string is a [string]; one [ascii] stands for one code
      unit (the scanner only compares code units with four ASCII
      characters);
    - a JavaScript number is a [Z] (the protocol only sends array
      positions and timestamps; fractions, NaN and infinities are not
      JSON array positions);
    - a [Map] or [Set] whose iteration order is observable is an
      association list or a list in insertion order; the per-stream
      index tracker, which is only ever looked up, is a [gmap];
    - the module-level registries are one explicit [Registry] record that
      every operation takes and returns; subscriber callbacks are opaque,
      so a call to one is recorded as an event of the registry's trace. *)

From Stdlib Require Import ZArith List String Ascii Bool Lia Permutation DecimalString Sorted.
From Stdlib Require Import DecimalNat.
From stdpp Require Import base gmap strings list.
Import ListNotations.

Local Open Scope Z_scope.
Set Warnings "-register-all".

(** ** Characters that the scanner distinguishes *)

Module Chars.

Definition lbrace : ascii := "{"%char.
Definition rbrace : ascii := "}"%char.
Definition quote : ascii := "034"%char.
Definition backslash : ascii := "092"%char.

(** [dq s] is [s] with every apostrophe replaced by a double quote; it
    lets JSON texts be written down legibly. *)
Fixpoint dq (s : string) : string :=
  match s with
  | EmptyString => EmptyString
  | String c rest =>
      String (if Ascii.eqb c "'"%char then quote else c) (dq rest)
  end.

End Chars.

(** ** 4.1 Chunk payload extractor *)

Module Extractor.
Import Chars.

Record ChunkParserState := mkParser {
  buffer : string;
  depth : Z;
  inString : bool;
  escaping : bool
}.

(** The state [getParserState] creates for a stream it has not seen. *)
Definition initialParserState : ChunkParserState :=
  {| buffer := ""; depth := 0; inString := false; escaping := false |}.

(** [getParserState recordId parserStates]: the stream's state, created
    on first use.  The map of states is keyed by the record id. *)
Definition getParserState (recordId : string)
    (parserStates : gmap string ChunkParserState)
    : ChunkParserState * gmap string ChunkParserState :=
  match parserStates !! recordId with
  | Some st => (st, parserStates)
  | None => (initialParserState, <[recordId := initialParserState]> parserStates)
  end.

Definition appendChar (s : string) (c : ascii) : string :=
  String.append s (String c EmptyString).

(** One iteration of the [for] loop of [extractJsonPayloads]: the
    payloads pushed so far and the parser state, before and after the
    character [char]. *)
Definition scanChar (char : ascii) (acc : list string * ChunkParserState)
    : list string * ChunkParserState :=
  let '(payloads, state) := acc in
  if depth state =? 0 then
    if Ascii.eqb char lbrace then
      (payloads, {| buffer := String lbrace EmptyString; depth := 1;
                    inString := inString state; escaping := escaping state |})
    else (payloads, state)
  else
    let state := {| buffer := appendChar (buffer state) char; depth := depth state;
                    inString := inString state; escaping := escaping state |} in
    if escaping state then
      (payloads, {| buffer := buffer state; depth := depth state;
                    inString := inString state; escaping := false |})
    else if Ascii.eqb char backslash then
      (payloads, {| buffer := buffer state; depth := depth state;
                    inString := inString state; escaping := true |})
    else if Ascii.eqb char quote then
      (payloads, {| buffer := buffer state; depth := depth state;
                    inString := negb (inString state); escaping := escaping state |})
    else if inString state then (payloads, state)
    else if Ascii.eqb char lbrace then
      (payloads, {| buffer := buffer state; depth := depth state + 1;
                    inString := inString state; escaping := escaping state |})
    else if Ascii.eqb char rbrace then
      let state := {| buffer := buffer state; depth := depth state - 1;
                      inString := inString state; escaping := escaping state |} in
      if depth state =? 0 then
        (payloads ++ [buffer state],
         {| buffer := ""; depth := depth state;
            inString := inString state; escaping := escaping state |})
      else (payloads, state)
    else (payloads, state).

Fixpoint scanFrom (chunk : string) (acc : list string * ChunkParserState)
    : list string * ChunkParserState :=
  match chunk with
  | EmptyString => acc
  | String char rest => scanFrom rest (scanChar char acc)
  end.

(** [extractJsonPayloads chunk state]: the payloads completed by the
    chunk, and the state left for the next call. *)
Definition extractJsonPayloads (chunk : string) (state : ChunkParserState)
    : list string * ChunkParserState :=
  scanFrom chunk ([], state).

(** The text that a sequence of chunks carries. *)
Definition joinChunks (chunks : list string) : string :=
  fold_right String.append "" chunks.

(** Successive calls on the chunks of one stream: the state is carried
    from call to call, and the payloads of each call are collected in
    order. *)
Fixpoint feedChunks (chunks : list string) (state : ChunkParserState)
    : list string * ChunkParserState :=
  match chunks with
  | [] => ([], state)
  | chunk :: rest =>
      let '(payloads, state') := extractJsonPayloads chunk state in
      let '(more, final) := feedChunks rest state' in
      (payloads ++ more, final)
  end.

End Extractor.

(** ** JavaScript values, as [JSON.parse] and the registry produce them *)

Module JS.

(** A parsed JSON value, extended with [undefined] (what a missing
    property or an array hole reads as).  An object is the list of its
    property assignments in order: a later assignment to a key
    overrides an earlier one, so reading takes the last one, and an
    object spread is the concatenation of the assignments.  Object
    identity is not represented: values are compared by structure (the
    fields the registry compares, [id], [__typename] and [name], are
    declared as strings in [AGUIMessage]). *)
Inductive JValue : Type :=
| JUndefined
| JNull
| JBool (b : bool)
| JNum (n : Z)
| JStr (s : string)
| JArr (elements : list JValue)
| JObj (props : list (string * JValue)).

(** Structural equality, standing for [===] and for the key equality of
    [Map] and [Set]. *)
Fixpoint JValue_eqb (a b : JValue) {struct a} : bool :=
  match a, b with
  | JUndefined, JUndefined => true
  | JNull, JNull => true
  | JBool x, JBool y => Bool.eqb x y
  | JNum x, JNum y => Z.eqb x y
  | JStr x, JStr y => String.eqb x y
  | JArr xs, JArr ys =>
      (fix all2 (xs ys : list JValue) {struct xs} : bool :=
         match xs, ys with
         | [], [] => true
         | x :: xs', y :: ys' => JValue_eqb x y && all2 xs' ys'
         | _, _ => false
         end) xs ys
  | JObj ps, JObj qs =>
      (fix all2 (ps qs : list (string * JValue)) {struct ps} : bool :=
         match ps, qs with
         | [], [] => true
         | (k, x) :: ps', (l, y) :: qs' =>
             String.eqb k l && JValue_eqb x y && all2 ps' qs'
         | _, _ => false
         end) ps qs
  | _, _ => false
  end.

Definition strictEq (a b : JValue) : bool := JValue_eqb a b.

(** JavaScript truthiness ([if (v)], [!v], [a && b]). *)
Definition truthy (v : JValue) : bool :=
  match v with
  | JUndefined | JNull => false
  | JBool b => b
  | JNum n => negb (n =? 0)
  | JStr s => negb (String.eqb s "")
  | JArr _ | JObj _ => true
  end.

Definition isArray (v : JValue) : bool :=
  match v with JArr _ => true | _ => false end.
Definition isString (v : JValue) : bool :=
  match v with JStr _ => true | _ => false end.
Definition isNumber (v : JValue) : bool :=
  match v with JNum _ => true | _ => false end.

(** The last assignment to [key] in a list of assignments. *)
Fixpoint lastAssigned (key : string) (ps : list (string * JValue)) : option JValue :=
  match ps with
  | [] => None
  | (k, v) :: rest =>
      match lastAssigned key rest with
      | Some w => Some w
      | None => if String.eqb k key then Some v else None
      end
  end.

(** [v.key] as an own property: [undefined] unless [v] is an object with
    that property.  (The registry reads no inherited property, and
    neither [length] nor a position of an array or of a string.) *)
Definition getProp (v : JValue) (key : string) : JValue :=
  match v with
  | JObj ps => match lastAssigned key ps with Some w => w | None => JUndefined end
  | _ => JUndefined
  end.

Definition indexKey (i : nat) : string :=
  NilEmpty.string_of_uint (Nat.to_uint i).

Fixpoint indexed {A} (i : nat) (l : list A) : list (string * A) :=
  match l with
  | [] => []
  | x :: rest => (indexKey i, x) :: indexed (S i) rest
  end.

Fixpoint codeUnits (s : string) : list JValue :=
  match s with
  | EmptyString => []
  | String c rest => JStr (String c EmptyString) :: codeUnits rest
  end.

(** The own enumerable properties that a spread [{...v}] copies. *)
Definition ownProps (v : JValue) : list (string * JValue) :=
  match v with
  | JObj ps => ps
  | JArr xs => indexed 0 xs
  | JStr s => indexed 0 (codeUnits s)
  | _ => []
  end.

(** [next[index] = value] on an array copy: the element is replaced, or
    the array grows up to the position, the skipped positions being
    holes (which read as [undefined]). *)
Fixpoint setAt (i : nat) (value : JValue) (xs : list JValue) : list JValue :=
  match i, xs with
  | O, [] => [value]
  | O, _ :: rest => value :: rest
  | S j, [] => JUndefined :: setAt j value []
  | S j, x :: rest => x :: setAt j value rest
  end.

(** A [Map] in insertion order.  [mapSet] on a key already present
    keeps the entry's position, as [Map.prototype.set] does. *)
Section JsMap.
Context {V : Type}.

Fixpoint mapGet (key : JValue) (m : list (JValue * V)) : option V :=
  match m with
  | [] => None
  | (k, v) :: rest => if JValue_eqb k key then Some v else mapGet key rest
  end.

Definition mapHas (key : JValue) (m : list (JValue * V)) : bool :=
  match mapGet key m with Some _ => true | None => false end.

Fixpoint mapSet (key : JValue) (value : V) (m : list (JValue * V)) : list (JValue * V) :=
  match m with
  | [] => [(key, value)]
  | (k, v) :: rest =>
      if JValue_eqb k key then (k, value) :: rest
      else (k, v) :: mapSet key value rest
  end.

Definition mapValues (m : list (JValue * V)) : list V := map snd m.
End JsMap.

(** A [Set] in insertion order. *)
Definition setHas (x : JValue) (s : list JValue) : bool :=
  existsb (JValue_eqb x) s.
Definition setAdd (x : JValue) (s : list JValue) : list JValue :=
  if setHas x s then s else s ++ [x].

End JS.

(** ** JSON texts (RFC 8259), and the lexical shape the scanner relies on *)

Module JsonText.
Import Chars.

Definition code (c : ascii) : nat := nat_of_ascii c.

Definition isWs (c : ascii) : bool :=
  (code c =? 32)%nat || (code c =? 9)%nat || (code c =? 10)%nat || (code c =? 13)%nat.
Definition isDigit (c : ascii) : bool := (48 <=? code c)%nat && (code c <=? 57)%nat.
Definition isDigit19 (c : ascii) : bool := (49 <=? code c)%nat && (code c <=? 57)%nat.
Definition isHex (c : ascii) : bool :=
  isDigit c || ((65 <=? code c)%nat && (code c <=? 70)%nat)
            || ((97 <=? code c)%nat && (code c <=? 102)%nat).
(** A character that may stand for itself inside a string literal. *)
Definition isUnescaped (c : ascii) : bool :=
  (32 <=? code c)%nat && negb (Ascii.eqb c quote) && negb (Ascii.eqb c backslash).
(** A character that may follow a backslash: the quote, the backslash or
    one of [/bfnrt]. *)
Definition isEscapeLetter (c : ascii) : bool :=
  Ascii.eqb c quote || Ascii.eqb c backslash || Ascii.eqb c "/"%char
  || Ascii.eqb c "b"%char || Ascii.eqb c "f"%char || Ascii.eqb c "n"%char
  || Ascii.eqb c "r"%char || Ascii.eqb c "t"%char.

Fixpoint allChars (p : ascii -> bool) (s : string) : bool :=
  match s with
  | EmptyString => true
  | String c rest => p c && allChars p rest
  end.

Definition ws (s : string) : Prop := allChars isWs s = true.

(** The characters between the quotes of a string literal. *)
Inductive chars : string -> Prop :=
| chars_nil : chars ""
| chars_unescaped c s :
    isUnescaped c = true -> chars s -> chars (String c s)
| chars_escape c s :
    isEscapeLetter c = true -> chars s -> chars (String backslash (String c s))
| chars_unicode h1 h2 h3 h4 s :
    isHex h1 = true -> isHex h2 = true -> isHex h3 = true -> isHex h4 = true ->
    chars s ->
    chars (String backslash (String "u" (String h1 (String h2 (String h3 (String h4 s)))))).

Inductive stringLit : string -> Prop :=
| stringLit_intro body :
    chars body -> stringLit (String quote (body +:+ String quote "")).

Definition digits (s : string) : Prop := s <> "" /\ allChars isDigit s = true.

Inductive int : string -> Prop :=
| int_zero : int "0"
| int_pos c rest : isDigit19 c = true -> allChars isDigit rest = true -> int (String c rest).

Inductive frac : string -> Prop :=
| frac_none : frac ""
| frac_some ds : digits ds -> frac (String "." ds).

Inductive sign : string -> Prop :=
| sign_none : sign ""
| sign_plus : sign "+"
| sign_minus : sign "-".

Inductive exp : string -> Prop :=
| exp_none : exp ""
| exp_lower sg ds : sign sg -> digits ds -> exp (String "e" (sg +:+ ds))
| exp_upper sg ds : sign sg -> digits ds -> exp (String "E" (sg +:+ ds)).

Inductive number : string -> Prop :=
| number_pos i f e : int i -> frac f -> exp e -> number (i +:+ f +:+ e)
| number_neg i f e : int i -> frac f -> exp e -> number (String "-" (i +:+ f +:+ e)).

(** The grammar of values: [object], [array], [element] (a value between
    white space), [elements] and [members] (comma-separated). *)
Inductive value : string -> Prop :=
| value_object t : object t -> value t
| value_array t : array t -> value t
| value_string t : stringLit t -> value t
| value_number t : number t -> value t
| value_true : value "true"
| value_false : value "false"
| value_null : value "null"
with object : string -> Prop :=
| object_empty w : ws w -> object (String lbrace (w +:+ String rbrace ""))
| object_members ms : members ms -> object (String lbrace (ms +:+ String rbrace ""))
with array : string -> Prop :=
| array_empty w : ws w -> array (String "[" (w +:+ "]"))
| array_elements es : elements es -> array (String "[" (es +:+ "]"))
with element : string -> Prop :=
| element_intro w1 v w2 : ws w1 -> value v -> ws w2 -> element (w1 +:+ v +:+ w2)
with elements : string -> Prop :=
| elements_one e : element e -> elements e
| elements_more e es : element e -> elements es -> elements (e +:+ String "," es)
with member : string -> Prop :=
| member_intro w1 k w2 e :
    ws w1 -> stringLit k -> ws w2 -> element e ->
    member (w1 +:+ k +:+ w2 +:+ String ":" e)
with members : string -> Prop :=
| members_one m : member m -> members m
| members_more m ms : member m -> members ms -> members (m +:+ String "," ms).

Scheme value_mut := Induction for value Sort Prop
  with object_mut := Induction for object Sort Prop
  with array_mut := Induction for array Sort Prop
  with element_mut := Induction for element Sort Prop
  with elements_mut := Induction for elements Sort Prop
  with member_mut := Induction for member Sort Prop
  with members_mut := Induction for members Sort Prop.

(** *** What the scanner sees of a text

    A character is plain when the scanner treats it as payload outside
    a string literal; [litBody] is the inside of a string literal as the
    scanner delimits it (a backslash protects the next character);
    [balanced] texts are sequences of plain characters, string literals
    and brace-enclosed balanced texts. *)
Definition isPlain (c : ascii) : bool :=
  negb (Ascii.eqb c lbrace) && negb (Ascii.eqb c rbrace)
  && negb (Ascii.eqb c quote) && negb (Ascii.eqb c backslash).

Inductive litBody : string -> Prop :=
| litBody_nil : litBody ""
| litBody_char c s :
    Ascii.eqb c quote = false -> Ascii.eqb c backslash = false ->
    litBody s -> litBody (String c s)
| litBody_escaped c s : litBody s -> litBody (String backslash (String c s)).

Inductive balanced : string -> Prop :=
| balanced_nil : balanced ""
| balanced_plain c t : isPlain c = true -> balanced t -> balanced (String c t)
| balanced_lit body t :
    litBody body -> balanced t -> balanced (String quote (body +:+ String quote t))
| balanced_braces body t :
    balanced body -> balanced t ->
    balanced (String lbrace (body +:+ String rbrace t)).

(** A balanced text between braces. *)
Definition objectShape (t : string) : Prop :=
  exists body, balanced body /\ t = String lbrace (body +:+ String rbrace "").

End JsonText.

(** ** 4.3 Message store and 4.4 action recency policy *)

Module Registry.
Import JS.

Definition ActionExecutionMessageOutput : JValue := JStr "ActionExecutionMessageOutput".

(** A subscriber callback, identified by a number (function identity). *)
Definition MessageSubscriber : Type := nat.

(** The module-level registries.  [calls] is the trace of callback
    invocations, oldest first: the pair [(callback, message)] stands for
    one call [callback(message)]. *)
Record Registry := mkRegistry {
  messageStore : list (JValue * JValue);
  messagesByType : list (JValue * list JValue);
  actionExecutionMessages : list (JValue * JValue);
  subscribers : list MessageSubscriber;
  calls : list (MessageSubscriber * JValue)
}.

Definition emptyRegistry : Registry :=
  {| messageStore := []; messagesByType := []; actionExecutionMessages := [];
     subscribers := []; calls := [] |}.

(** [subscribers.add(callback)] *)
Definition subscribeToAguiMessages (callback : MessageSubscriber) (reg : Registry)
    : Registry :=
  {| messageStore := messageStore reg;
     messagesByType := messagesByType reg;
     actionExecutionMessages := actionExecutionMessages reg;
     subscribers :=
       if existsb (Nat.eqb callback) (subscribers reg) then subscribers reg
       else subscribers reg ++ [callback];
     calls := calls reg |}.

(** The function [subscribeToAguiMessages] returns:
    [subscribers.delete(callback)] *)
Definition unsubscribe (callback : MessageSubscriber) (reg : Registry) : Registry :=
  {| messageStore := messageStore reg;
     messagesByType := messagesByType reg;
     actionExecutionMessages := actionExecutionMessages reg;
     subscribers := List.filter (fun c => negb (Nat.eqb callback c)) (subscribers reg);
     calls := calls reg |}.

(** [v || null] *)
Definition orNull (v : option JValue) : JValue :=
  match v with
  | Some x => if truthy x then x else JNull
  | None => JNull
  end.

Definition getAguiMessage (id : string) (reg : Registry) : JValue :=
  orNull (mapGet (JStr id) (messageStore reg)).

Definition getAguiMessagesByType (typename : string) (reg : Registry) : list JValue :=
  match mapGet (JStr typename) (messagesByType reg) with
  | None => []
  | Some ids =>
      List.filter truthy
        (map (fun id => match mapGet id (messageStore reg) with
                        | Some m => m
                        | None => JUndefined
                        end) ids)
  end.

Definition getLatestActionExecution (actionName : string) (reg : Registry) : JValue :=
  orNull (mapGet (JStr actionName) (actionExecutionMessages reg)).

Definition getAllAguiMessages (reg : Registry) : list JValue :=
  mapValues (messageStore reg).

Definition resetAguiMessageRegistry (reg : Registry) : Registry :=
  {| messageStore := [];
     messagesByType := [];
     actionExecutionMessages := [];
     subscribers := subscribers reg;
     calls := calls reg |}.

(** [storeMessage]: the store entry, the by-type index, the
    latest-by-name index, then one call per subscriber. *)
Definition storeMessage (message : JValue) (reg : Registry) : Registry :=
  let id := getProp message "id" in
  let typename := getProp message "__typename" in
  let name := getProp message "name" in
  let byType :=
    if mapHas typename (messagesByType reg) then messagesByType reg
    else mapSet typename [] (messagesByType reg) in
  let byType :=
    match mapGet typename byType with
    | Some ids => mapSet typename (setAdd id ids) byType
    | None => byType
    end in
  {| messageStore := mapSet id message (messageStore reg);
     messagesByType := byType;
     actionExecutionMessages :=
       if strictEq typename ActionExecutionMessageOutput && truthy name
       then mapSet name message (actionExecutionMessages reg)
       else actionExecutionMessages reg;
     subscribers := subscribers reg;
     calls := calls reg ++ map (fun callback => (callback, message)) (subscribers reg) |}.

(** [m.__typename === 'ActionExecutionMessageOutput' && m.name === name] *)
Definition isActionNamed (name : string) (m : JValue) : bool :=
  strictEq (getProp m "__typename") ActionExecutionMessageOutput
  && strictEq (getProp m "name") (JStr name).

(** Successive calls of [storeMessage], in list order. *)
Definition storeAll (messages : list JValue) (reg : Registry) : Registry :=
  fold_left (fun reg message => storeMessage message reg) messages reg.

(** Every store entry is filed under the [id] of its message. *)
Definition wellKeyed (reg : Registry) : Prop :=
  Forall (fun entry => getProp (snd entry) "id" = fst entry) (messageStore reg).

(** Two records with the same [id] and the same [__typename]. *)
Definition sameIdentity (old new : JValue) : Prop :=
  getProp new "id" = getProp old "id"
  /\ getProp new "__typename" = getProp old "__typename".

(** [messagesByType.get(typename)?.has(id)] *)
Definition typeIndexHas (typename id : JValue) (reg : Registry) : bool :=
  match mapGet typename (messagesByType reg) with
  | Some ids => setHas id ids
  | None => false
  end.

(** The calls a callback has received, oldest first. *)
Definition callsTo (callback : MessageSubscriber) (reg : Registry) : list JValue :=
  map snd (List.filter (fun ev => Nat.eqb (fst ev) callback) (calls reg)).

(** A stable sort, as [Array.prototype.sort] is: an element is placed
    after every element that the comparator does not put after it.  For a
    consistent comparator, which [compareCreatedAt] is when every
    [createdAt] is a valid time, this is the order that the sort of any
    engine returns; for an inconsistent one (a [createdAt] that is no
    time) ECMAScript leaves the order to the engine, and nothing below
    rests on the order in that case. *)
Section Sort.
Context {A : Type} (cmp : A -> A -> Z).

Fixpoint insertSorted (x : A) (sorted : list A) : list A :=
  match sorted with
  | [] => [x]
  | y :: rest =>
      if 0 <? cmp y x then x :: y :: rest else y :: insertSorted x rest
  end.

Definition sortBy (l : list A) : list A :=
  fold_left (fun sorted x => insertSorted x sorted) l [].
End Sort.

Section Keys.
Context {A : Type} (key : A -> Z).

(** The comparator that orders by [key], and the order itself. *)
Definition byKey (a b : A) : Z := key a - key b.
Definition keyLe (a b : A) : Prop := key a <= key b.

(** The later of the best element so far and the next one: the next one
    unless its key is smaller. *)
Definition pickLater (best : option A) (x : A) : option A :=
  match best with
  | None => Some x
  | Some y => if key x <? key y then Some y else Some x
  end.

(** The last of the elements of greatest key, if any. *)
Definition latestBy (l : list A) : option A := fold_left pickLater l None.
End Keys.

Section Recency.
(** [getTime v] stands for [new Date(v).getTime()]; [None] is NaN. *)
Variable getTime : JValue -> option Z.

(** The comparator of the sort; the sort reads a NaN result as 0. *)
Definition compareCreatedAt (a b : JValue) : Z :=
  match getTime (getProp a "createdAt"), getTime (getProp b "createdAt") with
  | Some ta, Some tb => ta - tb
  | _, _ => 0
  end.

(** The time value of a message's [createdAt], when it has one. *)
Definition createdTime (m : JValue) : Z :=
  match getTime (getProp m "createdAt") with
  | Some t => t
  | None => 0
  end.

Definition hasCreatedTime (m : JValue) : Prop :=
  exists t, getTime (getProp m "createdAt") = Some t.

(** The stored actions with the name of [actionMessage], in store order. *)
Definition sameNameActions (actionMessage : JValue) (reg : Registry) : list JValue :=
  List.filter
    (fun m => strictEq (getProp m "__typename") ActionExecutionMessageOutput
              && strictEq (getProp m "name") (getProp actionMessage "name"))
    (mapValues (messageStore reg)).

Definition shouldRenderAction (actionMessage : JValue) (reg : Registry) : bool :=
  if negb (strictEq (getProp actionMessage "__typename") ActionExecutionMessageOutput)
  then true
  else
    let sorted := sortBy compareCreatedAt (sameNameActions actionMessage reg) in
    let latestActionId :=
      match list.last sorted with
      | Some latestAction => getProp latestAction "id"
      | None => JUndefined
      end in
    strictEq (getProp actionMessage "id") latestActionId.
End Recency.

(** An instance of [getTime] for the timestamps the protocol sends: a
    number is its own time value (when at most 8.64e15 in magnitude),
    and a string in the format [YYYY-MM-DDTHH:mm:ss.sssZ] (the format
    of [toISOString]) is the number of milliseconds since the epoch;
    [null] and the booleans convert to the numbers 0 and 1, and
    [undefined] has no time value.  Strings in other formats, arrays and
    objects, which an engine parses by its own rules, are outside this
    instance. *)
Definition digitValue (c : ascii) : option Z :=
  let n := nat_of_ascii c in
  if ((48 <=? n) && (n <=? 57))%nat then Some (Z.of_nat n - 48) else None.

Fixpoint decimalFrom (acc : Z) (s : string) : option Z :=
  match s with
  | EmptyString => Some acc
  | String c rest =>
      match digitValue c with
      | Some d => decimalFrom (10 * acc + d) rest
      | None => None
      end
  end.

Definition decimalField (s : string) (start len : nat) : option Z :=
  let field := String.substring start len s in
  if (String.length field =? len)%nat then decimalFrom 0 field else None.

Definition isLeapYear (y : Z) : bool :=
  ((y mod 4 =? 0) && negb (y mod 100 =? 0)) || (y mod 400 =? 0).

Definition daysInMonth (y m : Z) : Z :=
  if m =? 2 then (if isLeapYear y then 29 else 28)
  else if (m =? 4) || (m =? 6) || (m =? 9) || (m =? 11) then 30 else 31.

(** Days from 1970-01-01 to the given civil date. *)
Definition daysFromCivil (y m d : Z) : Z :=
  let y' := if m <=? 2 then y - 1 else y in
  let era := y' / 400 in
  let yoe := y' - era * 400 in
  let doy := (153 * (if 2 <? m then m - 3 else m + 9) + 2) / 5 + d - 1 in
  let doe := yoe * 365 + yoe / 4 - yoe / 100 + doy in
  era * 146097 + doe - 719468.

Definition isoTime (s : string) : option Z :=
  if negb (String.length s =? 24)%nat then None
  else if negb (String.eqb (String.substring 4 1 s) "-"
                && String.eqb (String.substring 7 1 s) "-"
                && String.eqb (String.substring 10 1 s) "T"
                && String.eqb (String.substring 13 1 s) ":"
                && String.eqb (String.substring 16 1 s) ":"
                && String.eqb (String.substring 19 1 s) "."
                && String.eqb (String.substring 23 1 s) "Z") then None
  else
    match decimalField s 0 4, decimalField s 5 2, decimalField s 8 2,
          decimalField s 11 2, decimalField s 14 2, decimalField s 17 2,
          decimalField s 20 3 with
    | Some y, Some m, Some d, Some hh, Some mm, Some ss, Some ms =>
        if (1 <=? m) && (m <=? 12) && (1 <=? d) && (d <=? daysInMonth y m)
           && (hh <=? 23) && (mm <=? 59) && (ss <=? 59)
        then Some ((((daysFromCivil y m d * 24 + hh) * 60 + mm) * 60 + ss) * 1000 + ms)
        else None
    | _, _, _, _, _, _, _ => None
    end.

Definition protocolTime (v : JValue) : option Z :=
  match v with
  | JNum n => if Z.abs n <=? 8640000000000000 then Some n else None
  | JStr s => isoTime s
  | JNull | JBool false => Some 0
  | JBool true => Some 1
  | _ => None
  end.

End Registry.

(** ** 4.2 Payload interpreter *)

Module Interpreter.
Import JS Registry.

(** What the handlers read and write: the registry and the stream's
    [MessageIndexTracker] (array position to message id). *)
Definition State : Type := Registry * gmap Z string.

(** How a call ends: normally, or by a [TypeError] that [processChunk]
    catches and logs. *)
Inductive Completion := Normal | Throw.

(** [path.findIndex((segment) => segment === 'messages')] *)
Fixpoint findMessagesIndex (path : list JValue) : option nat :=
  match path with
  | [] => None
  | segment :: rest =>
      if strictEq segment (JStr "messages") then Some O
      else option_map S (findMessagesIndex rest)
  end.

Definition getMessageIndexFromPath (path : JValue) : option Z :=
  match path with
  | JArr segments =>
      match findMessagesIndex segments with
      | None => None
      | Some messagePathIdx =>
          match nth (messagePathIdx + 1) segments JUndefined with
          | JNum idx => Some idx
          | _ => None
          end
      end
  | _ => None
  end.

Definition getFieldFromPath (path : list JValue) : option string :=
  match findMessagesIndex path with
  | None => None
  | Some messagePathIdx =>
      match nth (messagePathIdx + 2) path JUndefined with
      | JStr field => Some field
      | _ => None
      end
  end.

Definition getArrayIndexFromPath (path : list JValue) : option Z :=
  match findMessagesIndex path with
  | None => None
  | Some messagePathIdx =>
      match nth (messagePathIdx + 3) path JUndefined with
      | JNum index => Some index
      | _ => None
      end
  end.

Definition isMessageObject (value : JValue) : bool :=
  match value with
  | JObj _ => isString (getProp value "__typename") && isString (getProp value "id")
  | _ => false
  end.

(** [next[index] = value] on a copy of [existing] (or on a new array):
    an array position below 2^32 - 1 sets or grows the elements; any
    other number names a property that is not an element. *)
Definition updateArrayField (existing : JValue) (index : Z) (value : JValue) : JValue :=
  let next := match existing with JArr xs => xs | _ => [] end in
  if (0 <=? index) && (index <? 4294967295)
  then JArr (setAt (Z.to_nat index) value next)
  else JArr next.

(** [{...current, [field]: value}] *)
Definition patchedMessage (current : JValue) (field : string) (value : JValue) : JValue :=
  JObj (ownProps current ++ [(field, value)]).

Definition applyArrayFieldUpdate (inc item : JValue) (st : State) : State :=
  let '(reg, tracker) := st in
  match getProp inc "path" with
  | JArr path =>
      match getMessageIndexFromPath (JArr path) with
      | None => st
      | Some messageIdx =>
          match getFieldFromPath path, getArrayIndexFromPath path with
          | Some field, Some arrayIdx =>
              if String.eqb field "" then st
              else if negb (String.eqb field "arguments")
                      && negb (String.eqb field "content") then st
              else
                match tracker !! messageIdx with
                | None => st
                | Some messageId =>
                    if String.eqb messageId "" then st
                    else
                      match mapGet (JStr messageId) (messageStore reg) with
                      | None => st
                      | Some current =>
                          if negb (truthy current) then st
                          else
                            let updated :=
                              patchedMessage current field
                                (updateArrayField (getProp current field) arrayIdx item) in
                            (storeMessage updated reg, tracker)
                      end
                end
          | _, _ => st
          end
      end
  | _ => st
  end.

(** [{...current, ...data, id: current.id, __typename: current.__typename}] *)
Definition mergedMessage (current data : JValue) : JValue :=
  JObj (ownProps current ++ ownProps data ++
        [("id", getProp current "id"); ("__typename", getProp current "__typename")]).

Definition handleIncrementalData (inc : JValue) (st : State) : State :=
  let '(reg, tracker) := st in
  match getMessageIndexFromPath (getProp inc "path") with
  | None => st
  | Some messageIdx =>
      match tracker !! messageIdx with
      | None => st
      | Some messageId =>
          if String.eqb messageId "" then st
          else
            match mapGet (JStr messageId) (messageStore reg) with
            | None => st
            | Some current =>
                if negb (truthy current) then st
                else
                  let updated := mergedMessage current (getProp inc "data") in
                  (storeMessage updated reg, tracker)
            end
      end
  end.

(** The body of the [for ... of] loop of [handleIncrementalItems]. *)
Definition handleItem (inc : JValue) (st : State) (item : JValue) : State :=
  if isMessageObject item then
    let '(reg, tracker) := st in
    let reg := storeMessage item reg in
    match getMessageIndexFromPath (getProp inc "path"), getProp item "id" with
    | Some messageIdx, JStr id => (reg, <[messageIdx := id]> tracker)
    | _, _ => (reg, tracker)
    end
  else if isString item then applyArrayFieldUpdate inc item st
  else st.

Definition handleIncrementalItems (inc : JValue) (st : State) : State :=
  match getProp inc "items" with
  | JArr items => fold_left (handleItem inc) items st
  | _ => st
  end.

(** The callback of [incremental.forEach]. *)
Definition processIncrement (st : State) (inc : JValue) : State :=
  if negb (truthy inc) then st
  else
    let st := if isArray (getProp inc "items") then handleIncrementalItems inc st
              else st in
    if truthy (getProp inc "data") then handleIncrementalData inc st else st.

(** [incremental.forEach] exists only on an array. *)
Definition processIncrementalPayload (incremental : JValue) (st : State)
    : Completion * State :=
  match incremental with
  | JArr incs => (Normal, fold_left processIncrement incs st)
  | _ => (Throw, st)
  end.

(** [message && message.__typename && message.id] *)
Definition hasTypenameAndId (message : JValue) : bool :=
  truthy message && truthy (getProp message "__typename")
  && truthy (getProp message "id").

Definition processDataPayload (data : JValue) (reg : Registry) : Registry :=
  let response := getProp data "generateCopilotResponse" in
  if negb (truthy response) then reg
  else
    match getProp response "messages" with
    | JArr messages =>
        fold_left
          (fun reg message =>
             if hasTypenameAndId message then storeMessage message reg else reg)
          messages reg
    | _ => reg
    end.

Definition processPayload (payload : JValue) (st : State) : Completion * State :=
  let '(reg, tracker) := st in
  let reg := if truthy (getProp payload "data")
             then processDataPayload (getProp payload "data") reg
             else reg in
  if truthy (getProp payload "incremental")
  then processIncrementalPayload (getProp payload "incremental") (reg, tracker)
  else (Normal, (reg, tracker)).

Section Chunks.
(** [JSON.parse]; [None] when it throws a [SyntaxError]. *)
Variable JSON_parse : string -> option JValue.

(** [processChunk]: every extracted payload is parsed and processed;
    a payload that throws is logged and the next one is taken up. *)
Definition processChunk (chunk : string)
    (ctx : State * Extractor.ChunkParserState)
    : State * Extractor.ChunkParserState :=
  let '(st, parser) := ctx in
  let '(payloads, parser) := Extractor.extractJsonPayloads chunk parser in
  (fold_left
     (fun st payload =>
        match JSON_parse payload with
        | Some data => snd (processPayload data st)
        | None => st
        end)
     payloads st,
   parser).
End Chunks.

End Interpreter.

(** ** Sample data *)

Module Samples.
Import Chars.

(** A JSON object (written with apostrophes for the double quotes)
    whose string value holds both braces and an escaped quote. *)
Definition sampleObject : string := dq "{'a':'x{y}\'z}'}".

Definition sampleChunks : list string :=
  [dq "{'a':'x{"; dq "y}\'z"; dq "}'}"].

Import JS Registry Interpreter.

Definition textMessage (id : string) (content : list string) : JValue :=
  JObj [("__typename", JStr "TextMessageOutput"); ("id", JStr id);
        ("createdAt", JStr "2024-01-01T00:00:00.000Z");
        ("content", JArr (map JStr content)); ("role", JStr "assistant")].

Definition actionMessage (id name createdAt : string) : JValue :=
  JObj [("__typename", ActionExecutionMessageOutput); ("id", JStr id);
        ("createdAt", JStr createdAt); ("name", JStr name);
        ("arguments", JArr [])].

(** [{data: {generateCopilotResponse: {messages}}}] *)
Definition snapshotPayload (messages : list JValue) : JValue :=
  JObj [("data", JObj [("generateCopilotResponse",
                        JObj [("messages", JArr messages)])])].

(** [{incremental: [entry]}] *)
Definition incrementalPayload (entry : JValue) : JValue :=
  JObj [("incremental", JArr [entry])].

(** [{path: ['generateCopilotResponse', 'messages', index], items: [item]}] *)
Definition itemsEntry (index : Z) (item : JValue) : JValue :=
  JObj [("path", JArr [JStr "generateCopilotResponse"; JStr "messages"; JNum index]);
        ("items", JArr [item])].

(** [{path: ['generateCopilotResponse', 'messages', index], data}] *)
Definition dataEntry (index : Z) (data : JValue) : JValue :=
  JObj [("path", JArr [JStr "generateCopilotResponse"; JStr "messages"; JNum index]);
        ("data", data)].

(** [{path: [...prefix, 'messages', index, field, position], items: [segment]}] *)
Definition arrayFieldEntry (prefix : list JValue) (index : Z) (field : string)
    (position : Z) (segment : string) : JValue :=
  JObj [("path", JArr (prefix ++ [JStr "messages"; JNum index; JStr field; JNum position]));
        ("items", JArr [JStr segment])].

(** The state after a payload, whichever way the call ended. *)
Definition afterPayload (st : State) (payload : JValue) : State :=
  snd (processPayload payload st).

(** The state after a sequence of payloads. *)
Definition afterPayloads (st : State) (payloads : list JValue) : State :=
  fold_left afterPayload payloads st.

(** Three [search] actions stored newest first, among other messages. *)
Definition search1 : JValue := actionMessage "a1" "search" "2024-01-01T00:00:01.000Z".
Definition search2 : JValue := actionMessage "a2" "search" "2024-01-01T00:00:02.000Z".
Definition search3 : JValue := actionMessage "a3" "search" "2024-01-01T00:00:03.000Z".
Definition searchRegistry : Registry :=
  storeAll [textMessage "m1" ["hi"]; search3; search1;
            actionMessage "b1" "lookup" "2024-01-01T00:00:09.000Z"; search2]
    emptyRegistry.

End Samples.

(** ** Reading the arguments of an action *)

Module RegistryReads.
Import JS Registry.

(** How a call ends: with a value, or by a [TypeError]. *)
Inductive Outcome :=
| Returns (value : JValue)
| Throws.

(** [v.length === 0] for a truthy [v]. *)
Definition lengthIsZero (v : JValue) : bool :=
  match v with
  | JArr xs => match xs with [] => true | _ :: _ => false end
  | JStr s => match s with EmptyString => true | String _ _ => false end
  | JObj _ => strictEq (getProp v "length") (JNum 0)
  | _ => false
  end.

(** [v[0]] for a truthy [v]. *)
Definition firstElement (v : JValue) : JValue :=
  match v with
  | JArr xs => nth 0 xs JUndefined
  | JStr s => match s with
              | EmptyString => JUndefined
              | String c _ => JStr (String c EmptyString)
              end
  | JObj _ => getProp v "0"
  | _ => JUndefined
  end.

Section Arguments.
(** [JSON.parse]; [None] when it throws a [SyntaxError]. *)
Variable JSON_parse : string -> option JValue.

(** [getActionArguments]: reading a property of [null] or [undefined]
    throws; a failing [JSON.parse] is caught and gives [null]. *)
Definition getActionArguments (message : JValue) : Outcome :=
  match message with
  | JNull | JUndefined => Throws
  | _ =>
      if negb (strictEq (getProp message "__typename") ActionExecutionMessageOutput)
      then Returns JNull
      else
        let arguments := getProp message "arguments" in
        if negb (truthy arguments) || lengthIsZero arguments then Returns JNull
        else
          match firstElement arguments with
          | JStr argsJson =>
              match JSON_parse argsJson with
              | Some parsed => Returns parsed
              | None => Returns JNull
              end
          | argsJson => Returns argsJson
          end
  end.
End Arguments.

End RegistryReads.

(** ** The raw response logger *)

Module Logger.
Import JS.

Record RawResponseChunk := mkChunk {
  chunkId : string;
  text : string;
  timestamp : string
}.

(** [requestBody] is a string or [null]; the optional fields are absent
    ([None]) until they are set. *)
Record RawResponseRecord := mkRecord {
  id : string;
  url : string;
  method : string;
  requestBody : option string;
  startedAt : string;
  status : option Z;
  statusText : option string;
  chunks : list RawResponseChunk;
  completed : bool;
  completedAt : option string;
  error : option string
}.

Definition RawResponseSubscriber : Type := nat.

(** The module-level store and subscriber set, and the trace of the calls
    made to subscribers (oldest first). *)
Record LoggerState := mkLogger {
  rawResponseStore : list (JValue * RawResponseRecord);
  rawResponseSubscribers : list RawResponseSubscriber;
  notifications : list (RawResponseSubscriber * RawResponseRecord)
}.

Definition emptyLogger : LoggerState :=
  {| rawResponseStore := []; rawResponseSubscribers := []; notifications := [] |}.

Definition subscribeToRawResponses (callback : RawResponseSubscriber)
    (st : LoggerState) : LoggerState :=
  {| rawResponseStore := rawResponseStore st;
     rawResponseSubscribers :=
       if existsb (Nat.eqb callback) (rawResponseSubscribers st)
       then rawResponseSubscribers st
       else rawResponseSubscribers st ++ [callback];
     notifications := notifications st |}.

Definition getRawResponses (st : LoggerState) : list RawResponseRecord :=
  mapValues (rawResponseStore st).

(** [rawResponseStore.get(id) ?? null] *)
Definition getRawResponse (recordId : string) (st : LoggerState)
    : option RawResponseRecord :=
  mapGet (JStr recordId) (rawResponseStore st).

Definition clearRawResponses (st : LoggerState) : LoggerState :=
  {| rawResponseStore := [];
     rawResponseSubscribers := rawResponseSubscribers st;
     notifications := notifications st |}.

Definition notify (record : RawResponseRecord) (st : LoggerState) : LoggerState :=
  {| rawResponseStore := rawResponseStore st;
     rawResponseSubscribers := rawResponseSubscribers st;
     notifications :=
       notifications st
       ++ map (fun callback => (callback, record)) (rawResponseSubscribers st) |}.

(** [createRecord]; the id that [generateRecordId] draws and the clock
    reading are arguments. *)
Definition createRecord (recordId now : string) (url method : string)
    (requestBody : option string) (st : LoggerState) : LoggerState :=
  let record :=
    {| id := recordId; url := url; method := method; requestBody := requestBody;
       startedAt := now; status := None; statusText := None; chunks := [];
       completed := false; completedAt := None; error := None |} in
  notify record
    {| rawResponseStore := mapSet (JStr recordId) record (rawResponseStore st);
       rawResponseSubscribers := rawResponseSubscribers st;
       notifications := notifications st |}.

(** [updateRecord]: [None] stands for the [null] returned when the id is
    not in the store. *)
Definition updateRecord (recordId : string)
    (updater : RawResponseRecord -> RawResponseRecord) (st : LoggerState)
    : option RawResponseRecord * LoggerState :=
  match mapGet (JStr recordId) (rawResponseStore st) with
  | None => (None, st)
  | Some current =>
      let updated := updater current in
      (Some updated,
       notify updated
         {| rawResponseStore := mapSet (JStr recordId) updated (rawResponseStore st);
            rawResponseSubscribers := rawResponseSubscribers st;
            notifications := notifications st |})
  end.

(** The updaters that the call sites pass. *)
Definition withStatus (code : Z) (statusText : string) (prev : RawResponseRecord)
    : RawResponseRecord :=
  {| id := id prev; url := url prev; method := method prev;
     requestBody := requestBody prev; startedAt := startedAt prev;
     status := Some code; statusText := Some statusText; chunks := chunks prev;
     completed := completed prev; completedAt := completedAt prev;
     error := error prev |}.

Definition withCompletion (now : string) (prev : RawResponseRecord)
    : RawResponseRecord :=
  {| id := id prev; url := url prev; method := method prev;
     requestBody := requestBody prev; startedAt := startedAt prev;
     status := status prev; statusText := statusText prev; chunks := chunks prev;
     completed := true; completedAt := Some now; error := error prev |}.

Definition withFailure (now message : string) (prev : RawResponseRecord)
    : RawResponseRecord :=
  {| id := id prev; url := url prev; method := method prev;
     requestBody := requestBody prev; startedAt := startedAt prev;
     status := status prev; statusText := statusText prev; chunks := chunks prev;
     completed := true; completedAt := Some now; error := Some message |}.

(** The id of the chunk appended to a record with [n] chunks:
    [`${recordId}-${n}`]. *)
Definition nextChunkId (recordId : string) (n : nat) : string :=
  recordId +:+ "-" +:+ indexKey n.

Definition withChunk (recordId text now : string) (prev : RawResponseRecord)
    : RawResponseRecord :=
  {| id := id prev; url := url prev; method := method prev;
     requestBody := requestBody prev; startedAt := startedAt prev;
     status := status prev; statusText := statusText prev;
     chunks := chunks prev ++
               [{| chunkId := nextChunkId recordId (length (chunks prev));
                   text := text; timestamp := now |}];
     completed := completed prev; completedAt := completedAt prev;
     error := error prev |}.

Definition appendChunk (recordId text now : string) (st : LoggerState) : LoggerState :=
  snd (updateRecord recordId (withChunk recordId text now) st).

(** What a read of the response body gives, with the clock reading at
    the time: a decoded chunk, the end of the stream, or an error. *)
Inductive StreamEvent :=
| StreamChunk (text now : string)
| StreamDone (now : string)
| StreamError (message now : string).

(** The [read] loop of [recordResponseStream]: it goes on after a chunk
    and returns after the end of the stream or an error. *)
Fixpoint readStream (recordId : string) (events : list StreamEvent) (st : LoggerState)
    : LoggerState :=
  match events with
  | [] => st
  | StreamChunk text now :: rest => readStream recordId rest (appendChunk recordId text now st)
  | StreamDone now :: _ => snd (updateRecord recordId (withCompletion now) st)
  | StreamError message now :: _ => snd (updateRecord recordId (withFailure now message) st)
  end.

(** The body of the subscriber of [persistRawResponsesLocally], between
    the load of the persisted entries and their write: the record
    replaces the entry of its id or is pushed, and the oldest entries
    beyond [maxEntries] are spliced off. *)
Fixpoint findIndexById (recordId : string) (entries : list RawResponseRecord)
    : option nat :=
  match entries with
  | [] => None
  | entry :: rest =>
      if String.eqb (id entry) recordId then Some O
      else option_map S (findIndexById recordId rest)
  end.

Definition persistEntry (maxEntries : Z) (record : RawResponseRecord)
    (entries : list RawResponseRecord) : list RawResponseRecord :=
  let entries :=
    match findIndexById (id record) entries with
    | Some existingIndex => <[existingIndex := record]> entries
    | None => entries ++ [record]
    end in
  if maxEntries <? Z.of_nat (length entries)
  then drop (Z.to_nat (Z.of_nat (length entries) - maxEntries)) entries
  else entries.

End Logger.

(** ** The hook that feeds the logged chunks to the interpreter *)

Module Hook.
Import JS Registry Interpreter.

(** The three maps of the effect of [useAguiMessageRegistry], keyed by
    record id. *)
Record HookState := mkHook {
  processedChunkCounts : gmap string nat;
  messageTrackers : gmap string (gmap Z string);
  parserStates : gmap string Extractor.ChunkParserState
}.

Definition emptyHook : HookState :=
  {| processedChunkCounts := ∅; messageTrackers := ∅; parserStates := ∅ |}.

Definition getTracker (recordId : string) (trackers : gmap string (gmap Z string))
    : gmap Z string * gmap string (gmap Z string) :=
  match trackers !! recordId with
  | Some tracker => (tracker, trackers)
  | None => (∅, <[recordId := ∅]> trackers)
  end.

Section Callback.
Variable JSON_parse : string -> option JValue.

(** [newChunks.forEach((chunk) => processChunk(chunk.text, ...))] *)
Definition processChunks (newChunks : list Logger.RawResponseChunk)
    (ctx : State * Extractor.ChunkParserState) : State * Extractor.ChunkParserState :=
  fold_left (fun ctx chunk => processChunk JSON_parse (Logger.text chunk) ctx)
    newChunks ctx.

(** The callback subscribed to the raw responses.  The tracker and the
    parser state are objects held in the maps and changed in place by
    [processChunk]; the maps hold their final values unless the entry is
    deleted. *)
Definition onRecord (record : Logger.RawResponseRecord) (st : HookState * Registry)
    : HookState * Registry :=
  let '(hook, reg) := st in
  let recordId := Logger.id record in
  let previousCount := default 0%nat (processedChunkCounts hook !! recordId) in
  if (length (Logger.chunks record) <=? previousCount)%nat then
    if Logger.completed record then
      ({| processedChunkCounts := delete recordId (processedChunkCounts hook);
          messageTrackers := delete recordId (messageTrackers hook);
          parserStates := parserStates hook |}, reg)
    else st
  else
    let '(tracker, trackers) := getTracker recordId (messageTrackers hook) in
    let '(parser, parsers) := Extractor.getParserState recordId (parserStates hook) in
    let newChunks := drop previousCount (Logger.chunks record) in
    let '((reg, tracker), parser) := processChunks newChunks ((reg, tracker), parser) in
    if Logger.completed record then
      ({| processedChunkCounts := delete recordId (processedChunkCounts hook);
          messageTrackers := delete recordId trackers;
          parserStates := delete recordId parsers |}, reg)
    else
      ({| processedChunkCounts :=
            <[recordId := length (Logger.chunks record)]> (processedChunkCounts hook);
          messageTrackers := <[recordId := tracker]> trackers;
          parserStates := <[recordId := parser]> parsers |}, reg).
End Callback.

End Hook.

(** ** The markdown link renderers *)

Module Markdown.

(** [s.startsWith(prefix)] as the rest of [s] after the prefix. *)
Fixpoint afterPrefix (prefix s : string) : option string :=
  match prefix, s with
  | EmptyString, _ => Some s
  | String p prefix', String c s' =>
      if Ascii.eqb p c then afterPrefix prefix' s' else None
  | String _ _, EmptyString => None
  end.

Definition startsWith (prefix s : string) : bool :=
  match afterPrefix prefix s with Some _ => true | None => false end.

(** [s.indexOf(":")], [None] standing for -1. *)
Fixpoint indexOfColon (s : string) : option nat :=
  match s with
  | EmptyString => None
  | String c rest =>
      if Ascii.eqb c ":"%char then Some O else option_map S (indexOfColon rest)
  end.

(** [s.substring(0, n)] and [s.substring(n)]. *)
Fixpoint substringTo (n : nat) (s : string) : string :=
  match n, s with
  | S n', String c rest => String c (substringTo n' rest)
  | _, _ => EmptyString
  end.

Fixpoint substringFrom (n : nat) (s : string) : string :=
  match n, s with
  | S n', String _ rest => substringFrom n' rest
  | _, _ => s
  end.

(** [/^\d+$/.test(s)] *)
Definition isDigits (s : string) : bool :=
  negb (String.eqb s "") && JsonText.allChars JsonText.isDigit s.

(** [s.replace(/^#?P/, "")] for a literal [P]: the prefix goes, with the
    hash before it if there is one. *)
Definition stripOptionalHash (prefix s : string) : string :=
  match afterPrefix ("#" +:+ prefix) s with
  | Some rest => rest
  | None => match afterPrefix prefix s with
            | Some rest => rest
            | None => s
            end
  end.

(** The elements that the renderer of [a] returns, with the props that
    the renderer computes. *)
Inductive LinkElement :=
| FootnoteDefinitionElement (id href : string)
| SourceReferenceElement (href : string)
| FootnoteReferenceElement (id : string)
| AnchorElement (href : string).

(** The renderer of [a]; [None] is an absent [href]. *)
Definition renderLink (href : option string) : LinkElement :=
  match href with
  | None => AnchorElement "#"
  | Some href =>
      match afterPrefix "#source:" href with
      | Some sourceContent =>
          match indexOfColon sourceContent with
          | Some firstColonIndex =>
              if (0 <? firstColonIndex)%nat
                 && isDigits (substringTo firstColonIndex sourceContent)
              then FootnoteDefinitionElement
                     (substringTo firstColonIndex sourceContent)
                     (substringFrom (firstColonIndex + 1) sourceContent)
              else SourceReferenceElement href
          | None => SourceReferenceElement href
          end
      | None =>
          if startsWith "#ref:" href
          then FootnoteReferenceElement (stripOptionalHash "ref:" href)
          else AnchorElement (if String.eqb href "" then "#" else href)
      end
  end.

(** [SourceReference]: the [href] of its anchor and its
    [data-valid-url]. *)
Definition sourceUrl (href : option string) : string :=
  match href with
  | None => "#"
  | Some href =>
      let stripped := stripOptionalHash "source:" href in
      if String.eqb stripped "" then "#" else stripped
  end.

Definition isValidUrl (href : option string) : bool :=
  negb (String.eqb (sourceUrl href) "#")
  && (0 <? String.length (sourceUrl href))%nat.

(** [FootnoteDefinition]: the [id] of its element, and whether it wraps
    its children in a link. *)
Definition footnoteDefinitionElementId (id : string) : string :=
  "footnote-def-" +:+ id.

Definition footnoteDefinitionIsLink (href : string) : bool :=
  negb (String.eqb href "").

(** [FootnoteReference]: the [id] of its element, the [href] of its
    anchor and the id that its click handler looks up. *)
Definition footnoteReferenceElementId (id : string) : string :=
  "footnote-ref-" +:+ id.

Definition footnoteReferenceHref (id : string) : string :=
  "#footnote-def-" +:+ id.

Definition footnoteReferenceTarget (id : string) : string :=
  "footnote-def-" +:+ id.

End Markdown.

(** ** Streams of framed objects, and what the scanner keeps true *)

Module Framing.
Import Chars Extractor.

(** A text without an opening brace: outside an object the scanner
    discards it. *)
Definition noBrace (s : string) : Prop :=
  JsonText.allChars (fun c => negb (Ascii.eqb c lbrace)) s = true.

(** The stream [lead obj1 sep1 obj2 sep2 ...]. *)
Definition framed (lead : string) (items : list (string * string)) : string :=
  lead +:+ fold_right (fun item rest => fst item +:+ snd item +:+ rest) "" items.

(** The number of characters of the payloads emitted and of the buffer. *)
Definition heldLength (acc : list string * ChunkParserState) : nat :=
  list_sum (map String.length (fst acc)) + String.length (buffer (snd acc)).

(** What holds of the parser state of a stream at any time: the depth is
    not negative; outside an object the state is the initial one; inside
    an object the buffer starts with the opening brace. *)
Definition parserInvariant (st : ChunkParserState) : Prop :=
  0 <= depth st
  /\ (depth st = 0 -> st = initialParserState)
  /\ (0 < depth st -> exists rest, buffer st = String lbrace rest).

(** A payload as the scanner emits it: from a brace to a brace. *)
Definition braced (payload : string) : Prop :=
  exists body, payload = String lbrace (body +:+ String rbrace "").

End Framing.

(** ** What the registry keeps true of its store and indexes *)

Module RegistryInvariants.
Import JS Registry.

(** The ids under which the store holds a record, in store order. *)
Definition storeKeys (reg : Registry) : list JValue := map fst (messageStore reg).

(** Every stored record is in the id set of its typename. *)
Definition indexedByType (reg : Registry) : Prop :=
  forall key message,
    mapGet key (messageStore reg) = Some message ->
    typeIndexHas (getProp message "__typename") key reg = true.

End RegistryInvariants.

(** ** From the logger to the hook *)

Module Delivery.
Import JS Registry Interpreter Logger Hook.

(** The records that a subscriber has been called with, oldest first. *)
Definition deliveredTo (callback : RawResponseSubscriber) (st : LoggerState)
    : list RawResponseRecord :=
  map snd (List.filter (fun ev => Nat.eqb (fst ev) callback) (notifications st)).

(** The successive values of a record while its stream is read. *)
Fixpoint streamRecords (recordId : string) (current : RawResponseRecord)
    (events : list StreamEvent) : list RawResponseRecord :=
  match events with
  | [] => []
  | StreamChunk text now :: rest =>
      let next := withChunk recordId text now current in
      next :: streamRecords recordId next rest
  | StreamDone now :: _ => [withCompletion now current]
  | StreamError message now :: _ => [withFailure now message current]
  end.

(** The texts read from a stream, up to its end or its first error. *)
Fixpoint readTexts (events : list StreamEvent) : list string :=
  match events with
  | StreamChunk text _ :: rest => text :: readTexts rest
  | _ => []
  end.

(** Whether the reading reaches the end of the stream or an error. *)
Fixpoint terminated (events : list StreamEvent) : bool :=
  match events with
  | [] => false
  | StreamChunk _ _ :: rest => terminated rest
  | _ => true
  end.

(** The hook's callback called with each record in turn. *)
Definition replay (JSON_parse : string -> option JValue)
    (records : list RawResponseRecord) (st : HookState * Registry)
    : HookState * Registry :=
  fold_left (fun st record => onRecord JSON_parse record st) records st.

(** The value of a record once its stream has been read. *)
Fixpoint finalRecord (recordId : string) (current : RawResponseRecord)
    (events : list StreamEvent) : RawResponseRecord :=
  match events with
  | [] => current
  | StreamChunk text now :: rest =>
      finalRecord recordId (withChunk recordId text now current) rest
  | StreamDone now :: _ => withCompletion now current
  | StreamError message now :: _ => withFailure now message current
  end.

(** A hook that holds nothing for a record id. *)
Definition unseen (recordId : string) (hook : HookState) : Prop :=
  processedChunkCounts hook !! recordId = None
  /\ messageTrackers hook !! recordId = None
  /\ parserStates hook !! recordId = None.

(** The record that [createRecord] stores. *)
Definition createdRecord (recordId now url method : string)
    (requestBody : option string) : RawResponseRecord :=
  {| id := recordId; url := url; method := method; requestBody := requestBody;
     startedAt := now; status := None; statusText := None; chunks := [];
     completed := false; completedAt := None; error := None |}.

(** What the wrapper of [fetch] does for a request that is answered: it
    creates the record, records the status of the response, and has the
    body read. *)
Definition loggedFetch (recordId now url method : string)
    (requestBody : option string) (code : Z) (reason : string)
    (events : list StreamEvent) (st : LoggerState) : LoggerState :=
  readStream recordId events
    (snd (updateRecord recordId (withStatus code reason)
            (createRecord recordId now url method requestBody st))).

(** The versions of the record of such a request, oldest first. *)
Definition fetchRecords (recordId now url method : string)
    (requestBody : option string) (code : Z) (reason : string)
    (events : list StreamEvent) : list RawResponseRecord :=
  let created := createdRecord recordId now url method requestBody in
  let answered := withStatus code reason created in
  created :: answered :: streamRecords recordId answered events.

End Delivery.

(** * Properties *)

(** ** Strings *)

Lemma append_nil_l (t : string) : "" +:+ t = t.
Proof. reflexivity. Qed.

Lemma append_cons (c : ascii) (s t : string) : String c s +:+ t = String c (s +:+ t).
Proof. reflexivity. Qed.

Lemma append_nil_r (s : string) : s +:+ "" = s.
Proof.
  induction s as [|c s IH]; [reflexivity |].
  rewrite append_cons. now f_equal.
Qed.

Lemma append_assoc (a b c : string) : (a +:+ b) +:+ c = a +:+ (b +:+ c).
Proof.
  induction a as [|x a IH]; [reflexivity |].
  rewrite !append_cons. now f_equal.
Qed.

Lemma appendChar_append (b : string) (c : ascii) (t : string) :
  Extractor.appendChar b c +:+ t = b +:+ String c t.
Proof. unfold Extractor.appendChar. now rewrite append_assoc. Qed.

(** ** The extractor *)

Section ExtractorFacts.
Import Chars Extractor.

(** A loop iteration only ever appends to the payloads pushed so far. *)
Lemma scanChar_payloads (c : ascii) (ps : list string) (st : ChunkParserState) :
  scanChar c (ps, st) =
  (ps ++ fst (scanChar c ([], st)), snd (scanChar c ([], st))).
Proof.
  unfold scanChar.
  repeat match goal with
         | |- context [if ?b then _ else _] => destruct b
         end; simpl; rewrite ?app_nil_r; reflexivity.
Qed.

Lemma scanFrom_payloads (t : string) :
  forall ps st,
    scanFrom t (ps, st) =
    (ps ++ fst (scanFrom t ([], st)), snd (scanFrom t ([], st))).
Proof.
  induction t as [|c t IH]; intros ps st; cbn [scanFrom].
  - cbn [fst snd]. now rewrite app_nil_r.
  - rewrite (scanChar_payloads c ps st).
    destruct (scanChar c ([], st)) as [qs st'] eqn:E; cbn [fst snd].
    rewrite (IH (ps ++ qs) st'), (IH qs st').
    cbn [fst snd]. now rewrite app_assoc.
Qed.

Lemma scanFrom_append (a b : string) :
  forall acc, scanFrom (a +:+ b) acc = scanFrom b (scanFrom a acc).
Proof.
  induction a as [|c a IH]; intros acc; [reflexivity |].
  rewrite append_cons. cbn [scanFrom]. apply IH.
Qed.

(** Two calls, the state carried over, are one call on the joined text. *)
Lemma extractJsonPayloads_append (a b : string) (st : ChunkParserState) :
  extractJsonPayloads (a +:+ b) st =
  (fst (extractJsonPayloads a st) ++
     fst (extractJsonPayloads b (snd (extractJsonPayloads a st))),
   snd (extractJsonPayloads b (snd (extractJsonPayloads a st)))).
Proof.
  unfold extractJsonPayloads. rewrite scanFrom_append.
  destruct (scanFrom a ([], st)) as [ps st'] eqn:E; cbn [fst snd].
  apply scanFrom_payloads.
Qed.

(** A stream seen for the first time starts from the initial state, and
    a stream seen before carries on from the state it left. *)
Lemma getParserState_fresh recordId (parserStates : gmap string ChunkParserState) :
  parserStates !! recordId = None ->
  getParserState recordId parserStates
  = (initialParserState, <[recordId := initialParserState]> parserStates).
Proof. intros H. unfold getParserState. now rewrite H. Qed.

Lemma getParserState_known recordId (parserStates : gmap string ChunkParserState) st :
  parserStates !! recordId = Some st ->
  getParserState recordId parserStates = (st, parserStates).
Proof. intros H. unfold getParserState. now rewrite H. Qed.

Lemma feedChunks_join (chunks : list string) :
  forall st, feedChunks chunks st = extractJsonPayloads (joinChunks chunks) st.
Proof.
  induction chunks as [|c chunks IH]; intros st; cbn [feedChunks joinChunks fold_right].
  - reflexivity.
  - fold (joinChunks chunks). rewrite extractJsonPayloads_append.
    destruct (extractJsonPayloads c st) as [ps st'] eqn:E; cbn [fst snd].
    rewrite IH.
    now destruct (extractJsonPayloads (joinChunks chunks) st').
Qed.

End ExtractorFacts.

(** *** The scanner on balanced texts *)

Section ScannerModes.
Import Chars Extractor JsonText.

Ltac scan_step :=
  unfold scanChar; cbn [depth buffer inString escaping];
  repeat match goal with
         | H : ?d <> 0 |- context [?d =? 0] =>
             rewrite (proj2 (Z.eqb_neq d 0) H)
         | H : ?x = _ |- context [?x] => rewrite H
         end;
  cbn [negb]; try reflexivity.

Lemma isPlain_cases (c : ascii) :
  isPlain c = true ->
  Ascii.eqb c lbrace = false /\ Ascii.eqb c rbrace = false /\
  Ascii.eqb c quote = false /\ Ascii.eqb c backslash = false.
Proof.
  unfold isPlain.
  destruct (Ascii.eqb c lbrace), (Ascii.eqb c rbrace),
           (Ascii.eqb c quote), (Ascii.eqb c backslash);
    cbn; intros H; try discriminate H; auto.
Qed.

Lemma scanChar_escaped c ps b d i :
  d <> 0 ->
  scanChar c (ps, mkParser b d i true) = (ps, mkParser (appendChar b c) d i false).
Proof. intros Hd. scan_step. Qed.

Lemma scanChar_backslash ps b d i :
  d <> 0 ->
  scanChar backslash (ps, mkParser b d i false)
  = (ps, mkParser (appendChar b backslash) d i true).
Proof. intros Hd. scan_step. Qed.

Lemma scanChar_quote ps b d i :
  d <> 0 ->
  scanChar quote (ps, mkParser b d i false)
  = (ps, mkParser (appendChar b quote) d (negb i) false).
Proof. intros Hd. scan_step. Qed.

Lemma scanChar_in_literal c ps b d :
  d <> 0 -> Ascii.eqb c quote = false -> Ascii.eqb c backslash = false ->
  scanChar c (ps, mkParser b d true false)
  = (ps, mkParser (appendChar b c) d true false).
Proof. intros Hd Hq Hb. scan_step. Qed.

Lemma scanChar_plain c ps b d :
  d <> 0 -> isPlain c = true ->
  scanChar c (ps, mkParser b d false false)
  = (ps, mkParser (appendChar b c) d false false).
Proof.
  intros Hd Hp. destruct (isPlain_cases c Hp) as (Hl & Hr & Hq & Hb).
  scan_step.
Qed.

Lemma scanChar_open ps b d :
  d <> 0 ->
  scanChar lbrace (ps, mkParser b d false false)
  = (ps, mkParser (appendChar b lbrace) (d + 1) false false).
Proof. intros Hd. scan_step. Qed.

Lemma scanChar_close ps b d :
  d <> 0 -> d - 1 <> 0 ->
  scanChar rbrace (ps, mkParser b d false false)
  = (ps, mkParser (appendChar b rbrace) (d - 1) false false).
Proof. intros Hd Hd'. scan_step. Qed.

Lemma scanChar_close_top ps b :
  scanChar rbrace (ps, mkParser b 1 false false)
  = (ps ++ [appendChar b rbrace], mkParser "" 0 false false).
Proof. reflexivity. Qed.

Lemma scanChar_start ps b i e :
  scanChar lbrace (ps, mkParser b 0 i e)
  = (ps, mkParser (String lbrace "") 1 i e).
Proof. reflexivity. Qed.

(** Inside a string literal nothing is emitted and the depth stays. *)
Lemma scanFrom_litBody body :
  litBody body ->
  forall ps b d, d <> 0 ->
    scanFrom body (ps, mkParser b d true false)
    = (ps, mkParser (b +:+ body) d true false).
Proof.
  induction 1 as [|c s Hq Hb _ IH|c s _ IH]; intros ps b d Hd; cbn [scanFrom].
  - now rewrite append_nil_r.
  - rewrite scanChar_in_literal by assumption.
    rewrite IH by assumption. now rewrite appendChar_append.
  - rewrite scanChar_backslash, scanChar_escaped by assumption.
    rewrite IH by assumption. now rewrite !appendChar_append.
Qed.

(** A balanced text inside an object is accumulated whole: nothing is
    emitted, and the depth and the flags are as before it. *)
Lemma scanFrom_balanced t :
  balanced t ->
  forall ps b d, 0 < d ->
    scanFrom t (ps, mkParser b d false false)
    = (ps, mkParser (b +:+ t) d false false).
Proof.
  induction 1 as [|c t Hp _ IH|body t Hbody _ IH|body t _ IHbody _ IH];
    intros ps b d Hd; cbn [scanFrom].
  - now rewrite append_nil_r.
  - rewrite scanChar_plain by (assumption || lia).
    rewrite IH by assumption. now rewrite appendChar_append.
  - rewrite scanChar_quote by lia. cbn [negb].
    rewrite scanFrom_append, scanFrom_litBody by (assumption || lia).
    cbn [scanFrom]. rewrite scanChar_quote by lia. cbn [negb].
    rewrite IH by assumption.
    now rewrite !appendChar_append, append_assoc.
  - rewrite scanChar_open by lia.
    rewrite scanFrom_append, IHbody by lia.
    cbn [scanFrom]. rewrite scanChar_close by lia.
    replace (d + 1 - 1) with d by lia.
    rewrite IH by assumption.
    now rewrite !appendChar_append, append_assoc.
Qed.

(** A brace-enclosed balanced text met outside any object is emitted as
    one payload, and the parser is left as it was at the start. *)
Lemma extract_braces body :
  balanced body ->
  extractJsonPayloads (String lbrace (body +:+ String rbrace "")) initialParserState
  = ([String lbrace (body +:+ String rbrace "")], initialParserState).
Proof.
  intros Hb. unfold extractJsonPayloads, initialParserState. cbn [scanFrom].
  rewrite scanChar_start, scanFrom_append, scanFrom_balanced by (assumption || lia).
  cbn [scanFrom]. rewrite scanChar_close_top. reflexivity.
Qed.

End ScannerModes.

(** *** Every JSON text is balanced *)

Section JsonIsBalanced.
Import Chars JsonText.

Ltac by_cases_on c :=
  destruct c as [[] [] [] [] [] [] [] []];
  vm_compute; intros; (reflexivity || discriminate || auto).

Lemma isWs_plain c : isWs c = true -> isPlain c = true.
Proof. by_cases_on c. Qed.

Lemma isDigit_plain c : isDigit c = true -> isPlain c = true.
Proof. by_cases_on c. Qed.

Lemma isDigit19_plain c : isDigit19 c = true -> isPlain c = true.
Proof. by_cases_on c. Qed.

Lemma isHex_literal c :
  isHex c = true -> Ascii.eqb c quote = false /\ Ascii.eqb c backslash = false.
Proof. by_cases_on c. Qed.

Lemma isUnescaped_literal c :
  isUnescaped c = true -> Ascii.eqb c quote = false /\ Ascii.eqb c backslash = false.
Proof. by_cases_on c. Qed.

Lemma balanced_append a b : balanced a -> balanced b -> balanced (a +:+ b).
Proof.
  induction 1 as [|c t Hp _ IH|body t Hbody _ IH|body t Hbody _ _ IH]; intros Hb.
  - assumption.
  - rewrite append_cons. apply balanced_plain; auto.
  - rewrite append_cons, append_assoc, append_cons. apply balanced_lit; auto.
  - rewrite append_cons, append_assoc, append_cons. apply balanced_braces; auto.
Qed.

Lemma balanced_char c t : isPlain c = true -> balanced t -> balanced (String c t).
Proof. apply balanced_plain. Qed.

Lemma allChars_balanced (p : ascii -> bool) :
  (forall c, p c = true -> isPlain c = true) ->
  forall s, allChars p s = true -> balanced s.
Proof.
  intros Hp. induction s as [|c s IH]; cbn [allChars]; intros H.
  - constructor.
  - apply andb_prop in H as [Hc Hs]. constructor; auto.
Qed.

Lemma ws_balanced w : ws w -> balanced w.
Proof. apply allChars_balanced, isWs_plain. Qed.

Lemma digits_balanced ds : digits ds -> balanced ds.
Proof. intros [_ H]. revert H. apply allChars_balanced, isDigit_plain. Qed.

Lemma chars_litBody body : chars body -> litBody body.
Proof.
  induction 1 as [|c s Hc _ IH|c s Hc _ IH|h1 h2 h3 h4 s H1 H2 H3 H4 _ IH].
  - constructor.
  - destruct (isUnescaped_literal c Hc). now constructor.
  - now constructor.
  - apply litBody_escaped.
    destruct (isHex_literal _ H1), (isHex_literal _ H2),
             (isHex_literal _ H3), (isHex_literal _ H4).
    repeat (apply litBody_char; [assumption | assumption |]). assumption.
Qed.

Lemma stringLit_balanced t : stringLit t -> balanced t.
Proof.
  intros [body Hbody]. apply balanced_lit.
  - now apply chars_litBody.
  - constructor.
Qed.

Lemma int_balanced i : int i -> balanced i.
Proof.
  intros [|c rest Hc Hrest].
  - apply balanced_plain; [reflexivity | constructor].
  - apply balanced_plain; [now apply isDigit19_plain |].
    revert Hrest. apply allChars_balanced, isDigit_plain.
Qed.

Lemma frac_balanced f : frac f -> balanced f.
Proof.
  intros [|ds Hds]; [constructor |].
  apply balanced_plain; [reflexivity | now apply digits_balanced].
Qed.

Lemma sign_balanced sg : sign sg -> balanced sg.
Proof.
  intros []; [constructor | |]; (apply balanced_plain; [reflexivity | constructor]).
Qed.

Lemma exp_balanced e : exp e -> balanced e.
Proof.
  intros [|sg ds Hsg Hds|sg ds Hsg Hds]; [constructor | |];
    (apply balanced_plain;
     [reflexivity
     | apply balanced_append; [now apply sign_balanced | now apply digits_balanced]]).
Qed.

Lemma number_balanced n : number n -> balanced n.
Proof.
  intros [i f e Hi Hf He|i f e Hi Hf He].
  - repeat apply balanced_append;
      auto using int_balanced, frac_balanced, exp_balanced.
  - apply balanced_plain; [reflexivity |].
    repeat apply balanced_append;
      auto using int_balanced, frac_balanced, exp_balanced.
Qed.

Lemma balanced_braces_closed body :
  balanced body -> balanced (String lbrace (body +:+ String rbrace "")).
Proof. intros H. apply balanced_braces; [assumption | constructor]. Qed.

(** An object is a balanced text between braces; every other value,
    element and member is balanced. *)
Lemma objectShape_balanced t : objectShape t -> balanced t.
Proof. intros (body & Hb & ->). now apply balanced_braces_closed. Qed.

Lemma object_shape t : object t -> objectShape t.
Proof.
  revert t.
  apply (object_mut
           (fun t _ => balanced t) (fun t _ => objectShape t)
           (fun t _ => balanced t) (fun t _ => balanced t)
           (fun t _ => balanced t) (fun t _ => balanced t)
           (fun t _ => balanced t)).
  - intros t _ H. now apply objectShape_balanced.
  - intros t _ H. exact H.
  - intros t H. now apply stringLit_balanced.
  - intros t H. now apply number_balanced.
  - repeat (apply balanced_plain; [reflexivity |]). constructor.
  - repeat (apply balanced_plain; [reflexivity |]). constructor.
  - repeat (apply balanced_plain; [reflexivity |]). constructor.
  - intros w Hw. exists w. split; [now apply ws_balanced | reflexivity].
  - intros ms _ H. exists ms. split; [assumption | reflexivity].
  - intros w Hw. apply balanced_plain; [reflexivity |].
    apply balanced_append; [now apply ws_balanced |].
    apply balanced_plain; [reflexivity | constructor].
  - intros es _ H. apply balanced_plain; [reflexivity |].
    apply balanced_append; [assumption |].
    apply balanced_plain; [reflexivity | constructor].
  - intros w1 v w2 Hw1 _ Hv Hw2.
    repeat apply balanced_append; auto using ws_balanced.
  - intros e _ H. exact H.
  - intros e es _ He _ Hes. apply balanced_append; [assumption |].
    apply balanced_plain; [reflexivity | assumption].
  - intros w1 k w2 e Hw1 Hk Hw2 _ He.
    repeat apply balanced_append; auto using ws_balanced, stringLit_balanced.
    apply balanced_plain; [reflexivity | assumption].
  - intros m _ H. exact H.
  - intros m ms _ Hm _ Hms. apply balanced_append; [assumption |].
    apply balanced_plain; [reflexivity | assumption].
Qed.

End JsonIsBalanced.

(** *** Sample texts *)

Section SampleTexts.
Import Chars JsonText Samples.

Lemma sampleObject_is_object : object sampleObject.
Proof.
  apply (object_members (dq "'a':'x{y}\'z}'")).
  apply members_one.
  apply (member_intro "" (dq "'a'") "" (dq "'x{y}\'z}'")); try reflexivity.
  - apply (stringLit_intro "a").
    apply chars_unescaped; [reflexivity | apply chars_nil].
  - apply (element_intro "" (dq "'x{y}\'z}'") ""); try reflexivity.
    apply value_string.
    apply (stringLit_intro (dq "x{y}\'z}")).
    repeat (apply chars_unescaped; [reflexivity |]).
    apply chars_escape; [reflexivity |].
    repeat (apply chars_unescaped; [reflexivity |]).
    apply chars_nil.
Qed.

End SampleTexts.

(** ** Claims about the extractor *)

Import Samples.

(** C5 (string safety).  A complete top-level JSON object, whatever its
    string values contain (braces, escaped quotes, escaped backslashes),
    is emitted by one call of the extractor as exactly one payload, the
    object itself, and the parser is back in its initial state: the
    characters inside string literals neither change the depth, nor end
    the object early, nor split it. *)
Theorem extractor_string_safety (S : string) :
  JsonText.object S ->
  Extractor.extractJsonPayloads S Extractor.initialParserState
  = ([S], Extractor.initialParserState).
Proof.
  intros H. destruct (object_shape S H) as (body & Hbody & ->).
  now apply extract_braces.
Qed.

Lemma extractor_string_safety_witness :
  JsonText.object sampleObject /\
  Extractor.extractJsonPayloads sampleObject Extractor.initialParserState
  = ([sampleObject], Extractor.initialParserState).
Proof.
  split.
  - exact sampleObject_is_object.
  - apply (extractor_string_safety sampleObject). exact sampleObject_is_object.
Defined.

(** C2 (chunk-boundary invariance).  For a complete top-level JSON object
    [S] and any partition of [S] into non-empty chunks, the calls of the
    extractor on the chunks in order, the parser state carried from call
    to call from the initial state, emit exactly what one call on [S]
    emits: the single payload [S]. *)
Theorem chunk_boundary_invariance (S : string) (chunks : list string) :
  JsonText.object S ->
  Forall (fun chunk => chunk <> "") chunks ->
  Extractor.joinChunks chunks = S ->
  Extractor.feedChunks chunks Extractor.initialParserState
  = Extractor.extractJsonPayloads S Extractor.initialParserState
  /\ Extractor.extractJsonPayloads S Extractor.initialParserState
     = ([S], Extractor.initialParserState).
Proof.
  intros HS _ Hjoin. split.
  - rewrite feedChunks_join. now rewrite Hjoin.
  - destruct (object_shape S HS) as (body & Hbody & ->).
    now apply extract_braces.
Qed.

Lemma chunk_boundary_invariance_witness :
  let chunks := sampleChunks in
  JsonText.object sampleObject /\
  Forall (fun chunk => chunk <> "") chunks /\
  Extractor.joinChunks chunks = sampleObject /\
  Extractor.feedChunks chunks Extractor.initialParserState
  = Extractor.extractJsonPayloads sampleObject Extractor.initialParserState
  /\ Extractor.extractJsonPayloads sampleObject Extractor.initialParserState
     = ([sampleObject], Extractor.initialParserState).
Proof.
  intros chunks.
  assert (Hne : Forall (fun chunk => chunk <> "") chunks)
    by (repeat constructor; discriminate).
  assert (Hjoin : Extractor.joinChunks chunks = sampleObject) by reflexivity.
  split; [exact sampleObject_is_object |].
  split; [exact Hne |].
  split; [exact Hjoin |].
  exact (chunk_boundary_invariance sampleObject chunks
           sampleObject_is_object Hne Hjoin).
Defined.

(** ** JavaScript values and maps *)

Section JSFacts.
Import JS.

(** Induction on values, through the elements of arrays and the
    properties of objects. *)
Lemma JValue_nested_ind (P : JValue -> Prop) :
  P JUndefined -> P JNull ->
  (forall b, P (JBool b)) -> (forall n, P (JNum n)) -> (forall s, P (JStr s)) ->
  (forall xs, Forall P xs -> P (JArr xs)) ->
  (forall ps, Forall (fun kv => P (snd kv)) ps -> P (JObj ps)) ->
  forall v, P v.
Proof.
  intros Hu Hn Hb Hz Hs Ha Ho.
  fix IH 1. intros [| |b|n|s|xs|ps].
  - exact Hu.
  - exact Hn.
  - apply Hb.
  - apply Hz.
  - apply Hs.
  - apply Ha. induction xs as [|x xs IHxs]; constructor; [apply IH | exact IHxs].
  - apply Ho. induction ps as [|[k x] ps IHps]; constructor; [apply IH | exact IHps].
Qed.

Lemma JValue_eqb_refl (v : JValue) : JValue_eqb v v = true.
Proof.
  induction v as [| |b|n|s|xs IH|ps IH] using JValue_nested_ind; cbn.
  - reflexivity.
  - reflexivity.
  - now destruct b.
  - apply Z.eqb_refl.
  - apply String.eqb_refl.
  - induction IH as [|x xs Hx _ IHxs]; [reflexivity |].
    now rewrite Hx, IHxs.
  - induction IH as [|[k x] ps Hx _ IHps]; [reflexivity |].
    cbn in Hx. now rewrite String.eqb_refl, Hx, IHps.
Qed.

Lemma JValue_eqb_sound (a : JValue) : forall b, JValue_eqb a b = true -> a = b.
Proof.
  induction a as [| |x|x|x|xs IH|ps IH] using JValue_nested_ind;
    intros [| |y|y|y|ys|qs]; cbn; try discriminate; try reflexivity.
  - intros H. apply Bool.eqb_prop in H. now subst.
  - intros H. apply Z.eqb_eq in H. now subst.
  - intros H. apply String.eqb_eq in H. now subst.
  - intros H. f_equal. revert ys H.
    induction IH as [|x xs Hx _ IHxs]; intros [|y ys]; try discriminate.
    + reflexivity.
    + intros H. apply andb_prop in H as [H1 H2].
      f_equal; [now apply Hx | now apply IHxs].
  - intros H. f_equal. revert qs H.
    induction IH as [|[k x] ps Hx _ IHps]; intros [|[l y] qs]; try discriminate.
    + reflexivity.
    + intros H. apply andb_prop in H as [H12 H3].
      apply andb_prop in H12 as [H1 H2].
      apply String.eqb_eq in H1. cbn in Hx.
      f_equal; [f_equal; [assumption | now apply Hx] | now apply IHps].
Qed.

Lemma JValue_eqb_eq (a b : JValue) : JValue_eqb a b = true <-> a = b.
Proof.
  split; [apply JValue_eqb_sound | intros ->; apply JValue_eqb_refl].
Qed.

Lemma JValue_eqb_neq (a b : JValue) : JValue_eqb a b = false <-> a <> b.
Proof.
  split.
  - intros H E. subst. rewrite JValue_eqb_refl in H. discriminate.
  - intros H. destruct (JValue_eqb a b) eqn:E; [|reflexivity].
    now apply JValue_eqb_eq in E.
Qed.

Lemma JValue_eqb_sym (a b : JValue) : JValue_eqb a b = JValue_eqb b a.
Proof.
  destruct (JValue_eqb a b) eqn:E.
  - apply JValue_eqb_eq in E. subst. symmetry. apply JValue_eqb_refl.
  - symmetry. apply JValue_eqb_neq. apply JValue_eqb_neq in E. congruence.
Qed.

Section Maps.
Context {V : Type}.
Implicit Types (m : list (JValue * V)) (k : JValue) (v : V).

Lemma mapGet_mapSet_same k v m : mapGet k (mapSet k v m) = Some v.
Proof.
  induction m as [|[k' v'] m IH]; cbn.
  - now rewrite JValue_eqb_refl.
  - destruct (JValue_eqb k' k) eqn:E; cbn; rewrite E; [reflexivity | exact IH].
Qed.

Lemma mapGet_mapSet_other k k' v m :
  k <> k' -> mapGet k' (mapSet k v m) = mapGet k' m.
Proof.
  intros Hne. induction m as [|[k0 v0] m IH]; cbn.
  - apply JValue_eqb_neq in Hne. now rewrite Hne.
  - destruct (JValue_eqb k0 k) eqn:E; cbn.
    + apply JValue_eqb_eq in E. subst k0.
      apply JValue_eqb_neq in Hne. now rewrite Hne.
    + destruct (JValue_eqb k0 k'); [reflexivity | exact IH].
Qed.

Lemma mapGet_mapSet k k' v m :
  mapGet k' (mapSet k v m) = if JValue_eqb k k' then Some v else mapGet k' m.
Proof.
  destruct (JValue_eqb k k') eqn:E.
  - apply JValue_eqb_eq in E. subst. apply mapGet_mapSet_same.
  - apply mapGet_mapSet_other. now apply JValue_eqb_neq.
Qed.

Lemma mapGet_In k v m : mapGet k m = Some v -> In (k, v) m.
Proof.
  induction m as [|[k' v'] m IH]; cbn; [discriminate |].
  destruct (JValue_eqb k' k) eqn:E.
  - apply JValue_eqb_eq in E. intros [= ->]. subst. now left.
  - intros H. right. now apply IH.
Qed.
End Maps.

(** Reading a property of a list of assignments. *)
Lemma lastAssigned_app key ps qs :
  lastAssigned key (ps ++ qs) =
  match lastAssigned key qs with
  | Some w => Some w
  | None => lastAssigned key ps
  end.
Proof.
  induction ps as [|[k v] ps IH]; cbn.
  - now destruct (lastAssigned key qs).
  - rewrite IH. destruct (lastAssigned key qs); [reflexivity |].
    reflexivity.
Qed.

Lemma getProp_app_other key ps k v :
  k <> key -> getProp (JObj (ps ++ [(k, v)])) key = getProp (JObj ps) key.
Proof.
  intros Hne. cbn. rewrite lastAssigned_app. cbn.
  apply String.eqb_neq in Hne. now rewrite Hne.
Qed.

Lemma getProp_app_same key ps v :
  getProp (JObj (ps ++ [(key, v)])) key = v.
Proof. cbn. rewrite lastAssigned_app. cbn. now rewrite String.eqb_refl. Qed.

End JSFacts.

(** ** The message store *)

Section RegistryFacts.
Import JS Registry.

Lemma storeMessage_get_same message reg :
  mapGet (getProp message "id") (messageStore (storeMessage message reg))
  = Some message.
Proof. cbn. apply mapGet_mapSet_same. Qed.

Lemma storeMessage_get_other message reg key :
  getProp message "id" <> key ->
  mapGet key (messageStore (storeMessage message reg))
  = mapGet key (messageStore reg).
Proof. intros H. cbn. now apply mapGet_mapSet_other. Qed.

Lemma storeAll_app l1 l2 reg :
  storeAll (l1 ++ l2) reg = storeAll l2 (storeAll l1 reg).
Proof. unfold storeAll. apply fold_left_app. Qed.

Lemma storeAll_get_other messages key :
  Forall (fun message => getProp message "id" <> key) messages ->
  forall reg,
    mapGet key (messageStore (storeAll messages reg)) = mapGet key (messageStore reg).
Proof.
  induction 1 as [|m l Hm _ IH]; intros reg; [reflexivity |].
  change (storeAll (m :: l) reg) with (storeAll l (storeMessage m reg)).
  rewrite IH. now apply storeMessage_get_other.
Qed.

(** After a run of [storeMessage] calls, an id holds the last message
    stored under it. *)
Lemma storeAll_get_last before message after reg :
  Forall (fun m => getProp m "id" <> getProp message "id") after ->
  mapGet (getProp message "id")
    (messageStore (storeAll (before ++ message :: after) reg))
  = Some message.
Proof.
  intros Hafter. rewrite storeAll_app.
  change (storeAll (message :: after) ?r)
    with (storeAll after (storeMessage message r)).
  rewrite storeAll_get_other by assumption.
  apply storeMessage_get_same.
Qed.

Lemma fold_left_filter {A B} (p : A -> bool) (f : B -> A -> B) (l : list A) :
  forall b,
    fold_left (fun acc x => if p x then f acc x else acc) l b
    = fold_left f (List.filter p l) b.
Proof.
  induction l as [|x l IH]; intros b; cbn; [reflexivity |].
  destruct (p x); cbn; apply IH.
Qed.

End RegistryFacts.

(** ** Claims about the interpreter *)

Section SnapshotFacts.
Import JS Registry Interpreter.

(** Only an object has properties. *)
Lemma getProp_defined v key :
  getProp v key <> JUndefined -> exists ps, v = JObj ps.
Proof. destruct v; cbn; try congruence. eauto. Qed.

Lemma getProp_JArr_object v key xs :
  getProp v key = JArr xs -> exists ps, v = JObj ps.
Proof. intros H. apply (getProp_defined v key). congruence. Qed.

Lemma getProp_JObj_object v key qs :
  getProp v key = JObj qs -> exists ps, v = JObj ps.
Proof. intros H. apply (getProp_defined v key). congruence. Qed.

Lemma processDataPayload_messages data reg messages :
  getProp (getProp data "generateCopilotResponse") "messages" = JArr messages ->
  processDataPayload data reg
  = storeAll (List.filter hasTypenameAndId messages) reg.
Proof.
  intros H. unfold processDataPayload.
  destruct (getProp_JArr_object _ _ _ H) as [ps Hps].
  rewrite Hps in *. cbn [truthy negb]. rewrite H.
  apply (fold_left_filter hasTypenameAndId (fun reg m => storeMessage m reg)).
Qed.

End SnapshotFacts.

Section IncrementalFacts.
Import JS Registry Interpreter.

Lemma processPayload_increment (entry : JValue) (st : State) :
  processPayload (incrementalPayload entry) st = (Normal, processIncrement st entry).
Proof. destruct st as [reg tracker]. reflexivity. Qed.

(** A data patch whose position the tracker does not know is dropped. *)
Lemma handleIncrementalData_unresolved inc reg (tracker : gmap Z string) k :
  getMessageIndexFromPath (getProp inc "path") = Some k ->
  tracker !! k = None ->
  handleIncrementalData inc (reg, tracker) = (reg, tracker).
Proof. intros Hk Hnone. unfold handleIncrementalData. now rewrite Hk, Hnone. Qed.

Lemma handleIncrementalData_resolved inc reg (tracker : gmap Z string) k id current :
  getMessageIndexFromPath (getProp inc "path") = Some k ->
  tracker !! k = Some id ->
  id <> "" ->
  mapGet (JStr id) (messageStore reg) = Some current ->
  truthy current = true ->
  handleIncrementalData inc (reg, tracker)
  = (storeMessage (mergedMessage current (getProp inc "data")) reg, tracker).
Proof.
  intros Hk Hid Hne Hcur Htruthy. unfold handleIncrementalData.
  rewrite Hk, Hid. apply String.eqb_neq in Hne. rewrite Hne.
  rewrite Hcur, Htruthy. reflexivity.
Qed.

Lemma mergedMessage_id current data :
  getProp (mergedMessage current data) "id" = getProp current "id".
Proof.
  unfold mergedMessage. cbn [getProp]. rewrite !lastAssigned_app. reflexivity.
Qed.

Lemma mergedMessage_typename current data :
  getProp (mergedMessage current data) "__typename" = getProp current "__typename".
Proof.
  unfold mergedMessage. cbn [getProp]. rewrite !lastAssigned_app. reflexivity.
Qed.

Lemma mergedMessage_field ps data key :
  key <> "id" -> key <> "__typename" ->
  getProp (mergedMessage (JObj ps) data) key
  = match lastAssigned key (ownProps data) with
    | Some v => v
    | None => getProp (JObj ps) key
    end.
Proof.
  intros Hid Hty. unfold mergedMessage. cbn [getProp ownProps].
  rewrite !lastAssigned_app. cbn [lastAssigned].
  apply not_eq_sym, String.eqb_neq in Hid.
  apply not_eq_sym, String.eqb_neq in Hty.
  rewrite Hid, Hty. now destruct (lastAssigned key (ownProps data)).
Qed.

(** A message-shaped item is stored, and its position recorded. *)
Lemma handleItem_message entry item reg (tracker : gmap Z string) k id :
  isMessageObject item = true ->
  getProp item "id" = JStr id ->
  getMessageIndexFromPath (getProp entry "path") = Some k ->
  handleItem entry (reg, tracker) item
  = (storeMessage item reg, <[k := id]> tracker).
Proof.
  intros Hmsg Hid Hk. unfold handleItem. now rewrite Hmsg, Hk, Hid.
Qed.

Lemma isMessageObject_truthy item : isMessageObject item = true -> truthy item = true.
Proof. destruct item; cbn; congruence. Qed.

(** An items entry with one message-shaped element stores the element
    and records the position of the entry's path for its id. *)
Lemma processPayload_establish path item reg (tracker : gmap Z string) k id :
  isMessageObject item = true ->
  getProp item "id" = JStr id ->
  getMessageIndexFromPath path = Some k ->
  processPayload (incrementalPayload (JObj [("path", path); ("items", JArr [item])]))
    (reg, tracker)
  = (Normal, (storeMessage item reg, <[k := id]> tracker)).
Proof.
  intros Hmsg Hid Hk.
  rewrite processPayload_increment. unfold processIncrement.
  cbn [truthy negb getProp lastAssigned String.eqb Ascii.eqb Bool.eqb isArray].
  unfold handleIncrementalItems.
  cbn [getProp lastAssigned String.eqb Ascii.eqb Bool.eqb fold_left].
  f_equal. now apply handleItem_message.
Qed.

End IncrementalFacts.

(** C1, as the code has it.  When a payload with the snapshot shape is
    processed, the elements of its [messages] array whose [__typename]
    and [id] are truthy are passed to [storeMessage] in array order, so
    that each is inserted or replaced wholesale under its id (an id holds
    the last such element); the stream's index tracker is left exactly as
    it was, also for the incremental part of the same payload, which is
    processed next.  A position is recorded for an id when a
    message-shaped element arrives in an incremental items entry. *)
Theorem snapshot_stores_without_tracking
    (payload : JS.JValue) (reg : Registry.Registry) (tracker : gmap Z string)
    (messages : list JS.JValue) :
  JS.getProp (JS.getProp (JS.getProp payload "data") "generateCopilotResponse") "messages"
  = JS.JArr messages ->
  let stored := List.filter Interpreter.hasTypenameAndId messages in
  Interpreter.processPayload payload (reg, tracker)
  = (if JS.truthy (JS.getProp payload "incremental")
     then Interpreter.processIncrementalPayload (JS.getProp payload "incremental")
            (Registry.storeAll stored reg, tracker)
     else (Interpreter.Normal, (Registry.storeAll stored reg, tracker)))
  /\ (forall before message after,
       stored = before ++ message :: after ->
       Forall (fun m => JS.getProp m "id" <> JS.getProp message "id") after ->
       JS.mapGet (JS.getProp message "id")
         (Registry.messageStore (Registry.storeAll stored reg))
       = Some message)
  /\ forall path item k id,
       Interpreter.isMessageObject item = true ->
       JS.getProp item "id" = JS.JStr id ->
       Interpreter.getMessageIndexFromPath path = Some k ->
       Interpreter.processPayload
         (incrementalPayload (JS.JObj [("path", path); ("items", JS.JArr [item])]))
         (reg, tracker)
       = (Interpreter.Normal, (Registry.storeMessage item reg, <[k := id]> tracker)).
Proof.
  intros Hmessages stored. split; [|split].
  - unfold Interpreter.processPayload.
    destruct (getProp_JArr_object _ _ _ Hmessages) as [rs Hrs].
    destruct (getProp_JObj_object _ _ _ Hrs) as [ds Hds].
    rewrite Hds. cbn [JS.truthy]. rewrite <- Hds.
    now rewrite (processDataPayload_messages _ reg messages Hmessages).
  - intros before message after Hsplit Hafter. rewrite Hsplit.
    now apply storeAll_get_last.
  - intros path item k id. apply processPayload_establish.
Qed.

Lemma snapshot_stores_without_tracking_witness :
  let message := textMessage "m1" ["hi"] in
  let payload := snapshotPayload [JS.JNull; message] in
  Interpreter.processPayload payload (Registry.emptyRegistry, ∅)
  = (Interpreter.Normal, (Registry.storeAll [message] Registry.emptyRegistry, ∅))
  /\ JS.mapGet (JS.JStr "m1")
       (Registry.messageStore (Registry.storeAll [message] Registry.emptyRegistry))
     = Some message.
Proof.
  intros message payload.
  destruct (snapshot_stores_without_tracking payload Registry.emptyRegistry ∅
              [JS.JNull; message] eq_refl) as (Hrun & Hget & _).
  split; [exact Hrun |].
  exact (Hget [] message [] eq_refl (List.Forall_nil _)).
Defined.

(** C1, as the spec has it, fails: a snapshot element with an id and a
    kind at position 0 is stored, but the tracker does not map position 0
    to its id, and a data patch that addresses position 0 afterwards is
    dropped. *)
Lemma snapshot_does_not_track :
  let message := textMessage "m1" ["hi"] in
  let patch := incrementalPayload (dataEntry 0 (JS.JObj [("role", JS.JStr "user")])) in
  let '(_, (reg, tracker)) :=
    Interpreter.processPayload (snapshotPayload [message]) (Registry.emptyRegistry, ∅) in
  Interpreter.hasTypenameAndId message = true
  /\ Registry.getAguiMessage "m1" reg = message
  /\ tracker !! 0 = None
  /\ Interpreter.processPayload patch (reg, tracker) = (Interpreter.Normal, (reg, tracker)).
Proof. vm_compute. repeat split; reflexivity. Qed.

Section DataPatchFacts.
Import JS Registry Interpreter.

Lemma truthy_getProp_object v key :
  truthy (getProp v key) = true -> exists ps, v = JObj ps.
Proof.
  intros H. apply (getProp_defined v key). intros E. rewrite E in H. discriminate.
Qed.

(** An entry with a truthy [data] and no [items] array is a data patch. *)
Lemma processIncrement_data (patch : JValue) (st : State) :
  truthy (getProp patch "data") = true ->
  isArray (getProp patch "items") = false ->
  processIncrement st patch = handleIncrementalData patch st.
Proof.
  intros Hdata Hitems. unfold processIncrement.
  destruct (truthy_getProp_object _ _ Hdata) as [ps ->].
  cbn [truthy negb]. now rewrite Hitems, Hdata.
Qed.

End DataPatchFacts.

(** C3 (patch ordering tolerance), as the code has it.  An incremental
    data patch whose path resolves to a position that the stream's
    tracker has not mapped to a message id is dropped: the call ends
    normally, and the registry (the store, both indexes and the trace of
    subscriber calls) and the tracker are unchanged.  Once an items entry
    has established the position for a message with a non-empty id, the
    same patch is applied: the record under that id becomes the merge of
    the message and the patch's data, with the message's id and kind. *)
Theorem unresolved_data_patch_dropped_then_replayed
    (patch : JS.JValue) (reg : Registry.Registry) (tracker : gmap Z string) (k : Z) :
  JS.truthy (JS.getProp patch "data") = true ->
  JS.isArray (JS.getProp patch "items") = false ->
  Interpreter.getMessageIndexFromPath (JS.getProp patch "path") = Some k ->
  tracker !! k = None ->
  Interpreter.processPayload (incrementalPayload patch) (reg, tracker)
  = (Interpreter.Normal, (reg, tracker))
  /\ forall (path item : JS.JValue) (id : string),
       Interpreter.isMessageObject item = true ->
       JS.getProp item "id" = JS.JStr id ->
       id <> "" ->
       Interpreter.getMessageIndexFromPath path = Some k ->
       let establish := JS.JObj [("path", path); ("items", JS.JArr [item])] in
       let reg1 := Registry.storeMessage item reg in
       let tracker1 := <[k := id]> tracker in
       let merged := Interpreter.mergedMessage item (JS.getProp patch "data") in
       Interpreter.processPayload (incrementalPayload establish) (reg, tracker)
       = (Interpreter.Normal, (reg1, tracker1))
       /\ Interpreter.processPayload (incrementalPayload patch) (reg1, tracker1)
          = (Interpreter.Normal, (Registry.storeMessage merged reg1, tracker1))
       /\ JS.mapGet (JS.JStr id)
            (Registry.messageStore (Registry.storeMessage merged reg1))
          = Some merged
       /\ JS.getProp merged "id" = JS.JStr id
       /\ JS.getProp merged "__typename" = JS.getProp item "__typename"
       /\ forall key, key <> "id" -> key <> "__typename" ->
            JS.getProp merged key
            = match JS.lastAssigned key (JS.ownProps (JS.getProp patch "data")) with
              | Some v => v
              | None => JS.getProp item key
              end.
Proof.
  intros Hdata Hitems Hk Hnone. split.
  - rewrite processPayload_increment, processIncrement_data by assumption.
    f_equal. now apply handleIncrementalData_unresolved with (k := k).
  - intros path item id Hmsg Hid Hne Hpath establish reg1 tracker1 merged.
    assert (Hmerged_id : JS.getProp merged "id" = JS.JStr id).
    { unfold merged. now rewrite mergedMessage_id. }
    split; [|split; [|split; [|split; [|split]]]].
    + now apply processPayload_establish.
    + rewrite processPayload_increment, processIncrement_data by assumption.
      f_equal. apply handleIncrementalData_resolved with (k := k) (id := id).
      * assumption.
      * unfold tracker1. apply lookup_insert_eq.
      * assumption.
      * unfold reg1. rewrite <- Hid. apply storeMessage_get_same.
      * now apply isMessageObject_truthy.
    + rewrite <- Hmerged_id. apply storeMessage_get_same.
    + exact Hmerged_id.
    + unfold merged. apply mergedMessage_typename.
    + intros key Hkid Hkty. unfold merged.
      destruct item as [| | | | | |ps]; try discriminate Hmsg.
      now apply mergedMessage_field.
Qed.

Lemma unresolved_data_patch_dropped_then_replayed_witness :
  let patch := dataEntry 0 (JS.JObj [("role", JS.JStr "user")]) in
  let item := textMessage "m1" ["hi"] in
  let reg1 := Registry.storeMessage item Registry.emptyRegistry in
  let tracker1 : gmap Z string := <[0 := "m1"]> ∅ in
  let merged := Interpreter.mergedMessage item (JS.JObj [("role", JS.JStr "user")]) in
  Interpreter.processPayload (incrementalPayload patch) (Registry.emptyRegistry, ∅)
  = (Interpreter.Normal, (Registry.emptyRegistry, ∅))
  /\ Interpreter.processPayload (incrementalPayload (itemsEntry 0 item))
       (Registry.emptyRegistry, ∅)
     = (Interpreter.Normal, (reg1, tracker1))
  /\ Interpreter.processPayload (incrementalPayload patch) (reg1, tracker1)
     = (Interpreter.Normal, (Registry.storeMessage merged reg1, tracker1))
  /\ JS.getProp merged "role" = JS.JStr "user"
  /\ JS.getProp merged "content" = JS.JArr [JS.JStr "hi"].
Proof.
  intros patch item reg1 tracker1 merged.
  destruct (unresolved_data_patch_dropped_then_replayed patch Registry.emptyRegistry ∅ 0
              eq_refl eq_refl eq_refl (lookup_empty _)) as [Hdrop Hreplay].
  split; [exact Hdrop |].
  assert (Hid : "m1" <> "") by discriminate.
  destruct (Hreplay (JS.JArr [JS.JStr "generateCopilotResponse"; JS.JStr "messages";
                              JS.JNum 0])
              item "m1" eq_refl eq_refl Hid eq_refl)
    as (Hest & Hrun & _ & _ & _ & Hfield).
  split; [exact Hest |].
  split; [exact Hrun |].
  split.
  - apply (Hfield "role"); discriminate.
  - apply (Hfield "content"); discriminate.
Defined.

(** C3, as the spec has it, fails.  An item whose id is the empty string
    is message-shaped for [isMessageObject], so the items entry stores it
    and the tracker maps position 0 to its id; the data patch for
    position 0, dropped before, is dropped again when it is replayed,
    because [handleIncrementalData] takes the empty id for no id: the
    record keeps its role and nothing is merged. *)
Lemma empty_id_patch_is_not_replayed :
  let item := textMessage "" ["hi"] in
  let patch := incrementalPayload (dataEntry 0 (JS.JObj [("role", JS.JStr "user")])) in
  let '(_, (reg1, tracker1)) :=
    Interpreter.processPayload (incrementalPayload (itemsEntry 0 item))
      (Registry.emptyRegistry, ∅) in
  Interpreter.isMessageObject item = true
  /\ Interpreter.processPayload patch (Registry.emptyRegistry, ∅)
     = (Interpreter.Normal, (Registry.emptyRegistry, ∅))
  /\ tracker1 !! 0 = Some ""
  /\ Registry.getAguiMessage "" reg1 = item
  /\ Interpreter.processPayload patch (reg1, tracker1)
     = (Interpreter.Normal, (reg1, tracker1))
  /\ JS.getProp (Registry.getAguiMessage "" reg1) "role" = JS.JStr "assistant".
Proof. vm_compute. repeat split; reflexivity. Qed.

(** ** Array-field patches *)

Section ArrayFieldFacts.
Import JS Registry Interpreter.

Lemma length_setAt i value xs :
  length (setAt i value xs) = Nat.max (length xs) (S i).
Proof.
  revert xs. induction i as [|i IH]; intros [|x xs]; cbn [setAt length].
  - reflexivity.
  - lia.
  - rewrite IH. cbn [length]. lia.
  - rewrite IH. lia.
Qed.

Lemma nth_setAt_same i value xs : nth i (setAt i value xs) JUndefined = value.
Proof.
  revert xs. induction i as [|i IH]; intros [|x xs]; cbn [setAt nth];
    try reflexivity; apply IH.
Qed.

Lemma nth_setAt_other i j value xs :
  i <> j -> nth j (setAt i value xs) JUndefined = nth j xs JUndefined.
Proof.
  revert j xs. induction i as [|i IH]; intros [|j] [|x xs] Hne;
    cbn [setAt nth]; try reflexivity; try congruence.
  - destruct j; reflexivity.
  - rewrite IH by congruence. now destruct j.
  - apply IH. congruence.
Qed.

Lemma findMessagesIndex_prefix prefix rest :
  findMessagesIndex prefix = None ->
  findMessagesIndex (prefix ++ JStr "messages" :: rest) = Some (length prefix).
Proof.
  induction prefix as [|seg prefix IH]; cbn [findMessagesIndex app length].
  - reflexivity.
  - destruct (strictEq seg (JStr "messages")); [discriminate |].
    destruct (findMessagesIndex prefix); [discriminate |].
    intros _. now rewrite IH.
Qed.

Lemma nth_after_prefix {A} (prefix rest : list A) (d : A) n :
  nth (length prefix + n) (prefix ++ rest) d = nth n rest d.
Proof. induction prefix as [|x prefix IH]; [reflexivity | exact IH]. Qed.

Section Path.
Variables (prefix : list JValue) (index position : Z) (field : string).
Hypothesis Hprefix : findMessagesIndex prefix = None.

Let path := prefix ++ [JStr "messages"; JNum index; JStr field; JNum position].

Lemma path_message_index : getMessageIndexFromPath (JArr path) = Some index.
Proof.
  unfold getMessageIndexFromPath, path.
  rewrite findMessagesIndex_prefix by assumption.
  now rewrite (nth_after_prefix prefix _ JUndefined 1).
Qed.

Lemma path_field : getFieldFromPath path = Some field.
Proof.
  unfold getFieldFromPath, path.
  rewrite findMessagesIndex_prefix by assumption.
  now rewrite (nth_after_prefix prefix _ JUndefined 2).
Qed.

Lemma path_array_index : getArrayIndexFromPath path = Some position.
Proof.
  unfold getArrayIndexFromPath, path.
  rewrite findMessagesIndex_prefix by assumption.
  now rewrite (nth_after_prefix prefix _ JUndefined 3).
Qed.
End Path.

Lemma patchedMessage_field current field value :
  getProp (patchedMessage current field value) field = value.
Proof. apply getProp_app_same. Qed.

Lemma patchedMessage_other ps field value key :
  field <> key ->
  getProp (patchedMessage (JObj ps) field value) key = getProp (JObj ps) key.
Proof. intros H. now apply getProp_app_other. Qed.

(** One array-field patch on a message that the tracker resolves. *)
Lemma array_patch_step reg (tracker : gmap Z string) prefix index field position segment
    id ps :
  findMessagesIndex prefix = None ->
  field = "content" \/ field = "arguments" ->
  tracker !! index = Some id ->
  id <> "" ->
  mapGet (JStr id) (messageStore reg) = Some (JObj ps) ->
  afterPayload (reg, tracker)
    (incrementalPayload (arrayFieldEntry prefix index field position segment))
  = (storeMessage
       (patchedMessage (JObj ps) field
          (updateArrayField (getProp (JObj ps) field) position (JStr segment))) reg,
     tracker).
Proof.
  intros Hprefix Hfield Hid Hne Hcur.
  unfold afterPayload. rewrite processPayload_increment. cbn [snd].
  unfold arrayFieldEntry, processIncrement.
  cbn [truthy negb getProp lastAssigned String.eqb Ascii.eqb Bool.eqb isArray].
  unfold handleIncrementalItems.
  cbn [getProp lastAssigned String.eqb Ascii.eqb Bool.eqb fold_left].
  unfold handleItem. cbn [isMessageObject isString].
  unfold applyArrayFieldUpdate.
  cbn [getProp lastAssigned String.eqb Ascii.eqb Bool.eqb].
  rewrite path_message_index, path_field, path_array_index by assumption.
  rewrite Hid, Hcur. apply String.eqb_neq in Hne. rewrite Hne.
  destruct Hfield as [-> | ->]; reflexivity.
Qed.

End ArrayFieldFacts.

Section ArrayGrowth.
Import JS Registry Interpreter.

Lemma array_patch_step_result reg (tracker : gmap Z string) prefix index field position
    segment id ps :
  findMessagesIndex prefix = None ->
  field = "content" \/ field = "arguments" ->
  tracker !! index = Some id ->
  id <> "" ->
  mapGet (JStr id) (messageStore reg) = Some (JObj ps) ->
  getProp (JObj ps) "id" = JStr id ->
  exists reg' ps',
    afterPayload (reg, tracker)
      (incrementalPayload (arrayFieldEntry prefix index field position segment))
    = (reg', tracker)
    /\ mapGet (JStr id) (messageStore reg') = Some (JObj ps')
    /\ getProp (JObj ps') "id" = JStr id
    /\ getProp (JObj ps') field
       = updateArrayField (getProp (JObj ps) field) position (JStr segment)
    /\ forall key, key <> field -> getProp (JObj ps') key = getProp (JObj ps) key.
Proof.
  intros Hprefix Hfield Hid Hne Hcur Hcurid.
  set (value := updateArrayField (getProp (JObj ps) field) position (JStr segment)).
  assert (Hfid : field <> "id") by (destruct Hfield as [-> | ->]; discriminate).
  assert (Hpid : getProp (patchedMessage (JObj ps) field value) "id" = JStr id).
  { rewrite patchedMessage_other by assumption. exact Hcurid. }
  exists (storeMessage (patchedMessage (JObj ps) field value) reg),
         (ps ++ [(field, value)]).
  split; [now apply array_patch_step with (id := id) |].
  split; [rewrite <- Hpid; apply storeMessage_get_same |].
  split; [exact Hpid |].
  split; [apply getProp_app_same |].
  intros key Hkey. apply getProp_app_other. congruence.
Qed.

End ArrayGrowth.

(** C6 (array-field growth).  For a message that the tracker resolves,
    three array-field patches in sequence, writing strings to positions
    0, 1 and 2 of [content] or of [arguments], from the field absent or
    empty, leave the field equal to the array of the three strings in
    order, as if it had been supplied whole; the other fields and the
    tracker are as before.  Each patch, at whatever position and on
    whatever the record then holds, reads the current array of the field
    (empty by default), sets the element at the patch's position, the
    array growing with holes when the position is past its end, and
    writes the array back in the record stored under the id, the other
    elements, the other fields and the tracker being as before. *)
Theorem array_field_growth
    (reg : Registry.Registry) (tracker : gmap Z string) (prefix : list JS.JValue)
    (index : Z) (id field : string) (current : JS.JValue) (s0 s1 s2 : string) :
  Interpreter.findMessagesIndex prefix = None ->
  field = "content" \/ field = "arguments" ->
  tracker !! index = Some id ->
  id <> "" ->
  JS.mapGet (JS.JStr id) (Registry.messageStore reg) = Some current ->
  JS.getProp current "id" = JS.JStr id ->
  JS.getProp current field = JS.JUndefined \/ JS.getProp current field = JS.JArr [] ->
  let patch position segment :=
    incrementalPayload (arrayFieldEntry prefix index field position segment) in
  let final :=
    afterPayload (afterPayload (afterPayload (reg, tracker) (patch 0 s0)) (patch 1 s1))
      (patch 2 s2) in
  (snd final = tracker
   /\ exists message,
        JS.mapGet (JS.JStr id) (Registry.messageStore (fst final)) = Some message
        /\ JS.getProp message field = JS.JArr [JS.JStr s0; JS.JStr s1; JS.JStr s2]
        /\ forall key, key <> field -> JS.getProp message key = JS.getProp current key)
  /\ (forall (existing value : JS.JValue) (position : Z),
       0 <= position < 4294967295 ->
       let before := match existing with JS.JArr xs => xs | _ => [] end in
       exists after,
         Interpreter.updateArrayField existing position value = JS.JArr after
         /\ length after = Nat.max (length before) (S (Z.to_nat position))
         /\ nth (Z.to_nat position) after JS.JUndefined = value
         /\ forall j, j <> Z.to_nat position ->
              nth j after JS.JUndefined = nth j before JS.JUndefined)
  /\ forall (held : Registry.Registry) (record : JS.JValue) (position : Z)
         (segment : string),
       0 <= position < 4294967295 ->
       JS.mapGet (JS.JStr id) (Registry.messageStore held) = Some record ->
       JS.getProp record "id" = JS.JStr id ->
       let before :=
         match JS.getProp record field with JS.JArr xs => xs | _ => [] end in
       let result := afterPayload (held, tracker) (patch position segment) in
       snd result = tracker
       /\ exists patched after,
            JS.mapGet (JS.JStr id) (Registry.messageStore (fst result)) = Some patched
            /\ JS.getProp patched field = JS.JArr after
            /\ length after = Nat.max (length before) (S (Z.to_nat position))
            /\ nth (Z.to_nat position) after JS.JUndefined = JS.JStr segment
            /\ (forall j, j <> Z.to_nat position ->
                  nth j after JS.JUndefined = nth j before JS.JUndefined)
            /\ forall key, key <> field ->
                 JS.getProp patched key = JS.getProp record key.
Proof.
  intros Hprefix Hfield Hid Hne Hcur Hcurid Hempty patch final.
  assert (Hupdate :
            forall (existing value : JS.JValue) (position : Z),
              0 <= position < 4294967295 ->
              let before := match existing with JS.JArr xs => xs | _ => [] end in
              exists after,
                Interpreter.updateArrayField existing position value = JS.JArr after
                /\ length after = Nat.max (length before) (S (Z.to_nat position))
                /\ nth (Z.to_nat position) after JS.JUndefined = value
                /\ forall j, j <> Z.to_nat position ->
                     nth j after JS.JUndefined = nth j before JS.JUndefined).
  { intros existing value position Hrange before.
    exists (JS.setAt (Z.to_nat position) value before). split.
    - unfold Interpreter.updateArrayField.
      replace (0 <=? position) with true by (symmetry; apply Z.leb_le; lia).
      replace (position <? 4294967295) with true by (symmetry; apply Z.ltb_lt; lia).
      reflexivity.
    - split; [apply length_setAt |].
      split; [apply nth_setAt_same |].
      intros j Hj. apply nth_setAt_other. congruence. }
  split; [| split].
  - destruct (getProp_defined current "id") as [ps ->]; [congruence |].
    destruct (array_patch_step_result reg tracker prefix index field 0 s0 id ps)
      as (reg1 & ps1 & Hrun1 & Hget1 & Hid1 & Hfield1 & Hother1); try assumption.
    destruct (array_patch_step_result reg1 tracker prefix index field 1 s1 id ps1)
      as (reg2 & ps2 & Hrun2 & Hget2 & Hid2 & Hfield2 & Hother2); try assumption.
    destruct (array_patch_step_result reg2 tracker prefix index field 2 s2 id ps2)
      as (reg3 & ps3 & Hrun3 & Hget3 & Hid3 & Hfield3 & Hother3); try assumption.
    unfold final, patch. rewrite Hrun1, Hrun2, Hrun3. cbn [fst snd].
    split; [reflexivity |].
    exists (JS.JObj ps3). split; [exact Hget3 |]. split.
    + rewrite Hfield3, Hfield2, Hfield1.
      destruct Hempty as [-> | ->]; reflexivity.
    + intros key Hkey. now rewrite Hother3, Hother2, Hother1.
  - exact Hupdate.
  - intros held record position segment Hrange Hheld Hrecid before result.
    destruct (getProp_defined record "id") as [ps ->]; [congruence |].
    destruct (array_patch_step_result held tracker prefix index field position
                segment id ps)
      as (held' & ps' & Hrun & Hget & _ & Hwritten & Hother); try assumption.
    destruct (Hupdate (JS.getProp (JS.JObj ps) field) (JS.JStr segment) position
                Hrange)
      as (after & Hafter & Hlen & Hset & Hrest).
    unfold result, patch. rewrite Hrun. cbn [fst snd].
    split; [reflexivity |].
    exists (JS.JObj ps'), after.
    split; [exact Hget |].
    split; [now rewrite Hwritten |].
    split; [exact Hlen |].
    split; [exact Hset |].
    split; [exact Hrest | exact Hother].
Qed.

Lemma array_field_growth_witness :
  let item := textMessage "m1" [] in
  let tracker : gmap Z string := <[0 := "m1"]> ∅ in
  let reg := Registry.storeMessage item Registry.emptyRegistry in
  let patch position segment :=
    incrementalPayload
      (arrayFieldEntry [JS.JStr "generateCopilotResponse"] 0 "content" position segment) in
  let final :=
    afterPayload (afterPayload (afterPayload (reg, tracker) (patch 0 "Hel"))
                    (patch 1 "lo, ")) (patch 2 "world") in
  (exists message,
     JS.mapGet (JS.JStr "m1") (Registry.messageStore (fst final)) = Some message
     /\ JS.getProp message "content"
        = JS.JArr [JS.JStr "Hel"; JS.JStr "lo, "; JS.JStr "world"])
  /\ exists patched after,
       JS.mapGet (JS.JStr "m1")
         (Registry.messageStore (fst (afterPayload (reg, tracker) (patch 2 "world"))))
       = Some patched
       /\ JS.getProp patched "content" = JS.JArr after
       /\ length after = 3%nat
       /\ nth 0 after JS.JUndefined = JS.JUndefined
       /\ nth 1 after JS.JUndefined = JS.JUndefined
       /\ nth 2 after JS.JUndefined = JS.JStr "world".
Proof.
  intros item tracker reg patch final.
  assert (Hid : "m1" <> "") by discriminate.
  destruct (array_field_growth reg tracker [JS.JStr "generateCopilotResponse"] 0
              "m1" "content" item "Hel" "lo, " "world"
              eq_refl (or_introl eq_refl) (lookup_insert_eq _ _ _) Hid eq_refl eq_refl
              (or_intror eq_refl))
    as ((_ & message & Hget & Hcontent & _) & _ & Hpatch).
  split.
  - exists message. split; [exact Hget | exact Hcontent].
  - assert (Hrange : 0 <= 2 < 4294967295) by lia.
    destruct (Hpatch reg item 2 "world" Hrange eq_refl eq_refl)
      as (_ & patched & after & Hstored & Hwritten & Hlen & Hset & Hrest & _).
    exists patched, after.
    split; [exact Hstored |].
    split; [exact Hwritten |].
    split; [exact Hlen |].
    split; [exact (Hrest 0%nat ltac:(discriminate)) |].
    split; [exact (Hrest 1%nat ltac:(discriminate)) | exact Hset].
Defined.

(** ** What every interpreter operation preserves *)

Lemma fold_left_preserves {A B} (Q : B -> Prop) (f : B -> A -> B) (l : list A) :
  (forall b a, Q b -> Q (f b a)) -> forall b, Q b -> Q (fold_left f l b).
Proof.
  intros Hf. induction l as [|a l IH]; intros b Hb; cbn [fold_left]; auto.
Qed.

(** The interpreter changes the registry through [storeMessage] only: a
    property of registries that [storeMessage] preserves is preserved by
    every handler, hence by every payload and sequence of payloads. *)
Section Preservation.
Import JS Registry Interpreter.

Variable P : Registry -> Prop.
Hypothesis P_storeMessage : forall message reg, P reg -> P (storeMessage message reg).

Lemma preserved_applyArrayFieldUpdate inc item st :
  P (fst st) -> P (fst (applyArrayFieldUpdate inc item st)).
Proof.
  destruct st as [reg tracker]. unfold applyArrayFieldUpdate. intros H.
  repeat case_match; cbn [fst]; auto.
Qed.

Lemma preserved_handleIncrementalData inc st :
  P (fst st) -> P (fst (handleIncrementalData inc st)).
Proof.
  destruct st as [reg tracker]. unfold handleIncrementalData. intros H.
  repeat case_match; cbn [fst]; auto.
Qed.

Lemma preserved_handleItem inc st item :
  P (fst st) -> P (fst (handleItem inc st item)).
Proof.
  unfold handleItem. intros H.
  destruct (isMessageObject item).
  - destruct st as [reg tracker]. repeat case_match; cbn [fst] in *; auto.
  - destruct (isString item); [now apply preserved_applyArrayFieldUpdate | assumption].
Qed.

Lemma preserved_handleIncrementalItems inc st :
  P (fst st) -> P (fst (handleIncrementalItems inc st)).
Proof.
  unfold handleIncrementalItems. intros H.
  destruct (getProp inc "items"); try assumption.
  apply (fold_left_preserves (fun st => P (fst st))); [| assumption].
  intros. now apply preserved_handleItem.
Qed.

Lemma preserved_processIncrement st inc :
  P (fst st) -> P (fst (processIncrement st inc)).
Proof.
  unfold processIncrement. intros H.
  destruct (negb (truthy inc)); [assumption |].
  assert (P (fst (if isArray (getProp inc "items")
                  then handleIncrementalItems inc st else st))).
  { destruct (isArray (getProp inc "items"));
      [now apply preserved_handleIncrementalItems | assumption]. }
  destruct (truthy (getProp inc "data"));
    [now apply preserved_handleIncrementalData | assumption].
Qed.

Lemma preserved_processIncrementalPayload incremental st :
  P (fst st) -> P (fst (snd (processIncrementalPayload incremental st))).
Proof.
  unfold processIncrementalPayload. intros H.
  destruct incremental; cbn [snd]; try assumption.
  apply (fold_left_preserves (fun st => P (fst st))); [| assumption].
  intros. now apply preserved_processIncrement.
Qed.

Lemma preserved_processDataPayload data reg :
  P reg -> P (processDataPayload data reg).
Proof.
  unfold processDataPayload. intros H.
  destruct (negb (truthy (getProp data "generateCopilotResponse"))); [assumption |].
  destruct (getProp (getProp data "generateCopilotResponse") "messages");
    try assumption.
  apply (fold_left_preserves P); [| assumption].
  intros reg' message Hreg'. destruct (hasTypenameAndId message); auto.
Qed.

Lemma preserved_afterPayload st payload :
  P (fst st) -> P (fst (afterPayload st payload)).
Proof.
  destruct st as [reg tracker]. unfold afterPayload, processPayload. cbn [fst].
  intros H.
  assert (H' : P (if truthy (getProp payload "data")
                  then processDataPayload (getProp payload "data") reg else reg)).
  { destruct (truthy (getProp payload "data"));
      [now apply preserved_processDataPayload | assumption]. }
  destruct (truthy (getProp payload "incremental")); [| exact H'].
  now apply preserved_processIncrementalPayload.
Qed.

Lemma preserved_afterPayloads payloads st :
  P (fst st) -> P (fst (afterPayloads st payloads)).
Proof.
  unfold afterPayloads.
  apply (fold_left_preserves (fun st => P (fst st))).
  intros. now apply preserved_afterPayload.
Qed.

End Preservation.

(** ** Identity and kind of stored messages *)

Section IdentityFacts.
Import JS Registry Interpreter.

Lemma wellKeyed_lookup reg key message :
  wellKeyed reg -> mapGet key (messageStore reg) = Some message ->
  getProp message "id" = key.
Proof.
  unfold wellKeyed. intros Hwf Hget. apply mapGet_In in Hget.
  rewrite List.Forall_forall in Hwf. exact (Hwf _ Hget).
Qed.

Lemma wellKeyed_storeMessage message reg :
  wellKeyed reg -> wellKeyed (storeMessage message reg).
Proof.
  unfold wellKeyed. cbn [messageStore storeMessage].
  induction 1 as [|[k m] store Hkm Hrest IH]; cbn [mapSet].
  - repeat constructor.
  - destruct (JValue_eqb k (getProp message "id")) eqn:E.
    + apply JValue_eqb_eq in E. constructor; [now cbn | exact Hrest].
    + constructor; assumption.
Qed.

Lemma wellKeyed_empty : wellKeyed emptyRegistry.
Proof. constructor. Qed.

Lemma stored_storeMessage key message reg :
  (exists m, mapGet key (messageStore reg) = Some m) ->
  exists m, mapGet key (messageStore (storeMessage message reg)) = Some m.
Proof.
  intros [m Hm]. cbn [messageStore storeMessage]. rewrite mapGet_mapSet.
  destruct (JValue_eqb (getProp message "id") key); eauto.
Qed.

Lemma storeMessage_sameIdentity reg key current updated :
  mapGet key (messageStore reg) = Some current ->
  getProp updated "id" = key ->
  sameIdentity current updated ->
  forall key' old,
    mapGet key' (messageStore reg) = Some old ->
    exists new,
      mapGet key' (messageStore (storeMessage updated reg)) = Some new
      /\ sameIdentity old new.
Proof.
  intros Hcur Hid Hsame key' old Hold.
  cbn [messageStore storeMessage]. rewrite mapGet_mapSet, Hid.
  destruct (JValue_eqb key key') eqn:E.
  - apply JValue_eqb_eq in E. subst key'.
    exists updated. split; [reflexivity |]. congruence.
  - exists old. split; [assumption | split; reflexivity].
Qed.

Lemma handleIncrementalData_sameIdentity inc reg tracker :
  wellKeyed reg ->
  forall key old,
    mapGet key (messageStore reg) = Some old ->
    exists new,
      mapGet key (messageStore (fst (handleIncrementalData inc (reg, tracker)))) = Some new
      /\ sameIdentity old new.
Proof.
  intros Hwf key old Hold.
  assert (Hkeep : exists new, mapGet key (messageStore reg) = Some new
                              /\ sameIdentity old new)
    by (exists old; split; [assumption | split; reflexivity]).
  unfold handleIncrementalData. repeat case_match; cbn [fst]; try exact Hkeep.
  match goal with
  | H : mapGet (JStr ?id) (messageStore reg) = Some ?current |- _ =>
      apply (storeMessage_sameIdentity reg (JStr id) current); try assumption;
      [ rewrite mergedMessage_id; now apply (wellKeyed_lookup reg)
      | split; [apply mergedMessage_id | apply mergedMessage_typename] ]
  end.
Qed.

Lemma patchedMessage_sameIdentity ps field value :
  field = "content" \/ field = "arguments" ->
  sameIdentity (JObj ps) (patchedMessage (JObj ps) field value).
Proof.
  intros Hfield.
  assert (field <> "id" /\ field <> "__typename") as [Hid Hty]
    by (destruct Hfield as [-> | ->]; split; discriminate).
  split; apply getProp_app_other; assumption.
Qed.

Lemma applyArrayFieldUpdate_sameIdentity inc item reg tracker :
  wellKeyed reg ->
  forall key old,
    mapGet key (messageStore reg) = Some old ->
    exists new,
      mapGet key (messageStore (fst (applyArrayFieldUpdate inc item (reg, tracker))))
      = Some new
      /\ sameIdentity old new.
Proof.
  intros Hwf key old Hold.
  assert (Hkeep : exists new, mapGet key (messageStore reg) = Some new
                              /\ sameIdentity old new)
    by (exists old; split; [assumption | split; reflexivity]).
  unfold applyArrayFieldUpdate. repeat case_match; cbn [fst]; try exact Hkeep.
  match goal with
  | H : mapGet (JStr ?id) (messageStore reg) = Some ?current,
    F : (negb (String.eqb ?field "arguments") && negb (String.eqb ?field "content"))
        = false |- _ =>
      assert (Hfield : field = "content" \/ field = "arguments")
        by (destruct (String.eqb_spec field "arguments");
            destruct (String.eqb_spec field "content"); auto; discriminate F);
      pose proof (wellKeyed_lookup reg _ _ Hwf H) as Hcurid;
      destruct (getProp_defined current "id") as [ps ->]; [congruence |];
      apply (storeMessage_sameIdentity reg (JStr id) (JObj ps)); try assumption;
      [ rewrite patchedMessage_other by (destruct Hfield as [-> | ->]; discriminate);
        exact Hcurid
      | now apply patchedMessage_sameIdentity ]
  end.
Qed.

End IdentityFacts.

(** C7, as the code has it.  From a store in which every record is filed
    under its own id, no sequence of payloads removes an id or changes
    the id of the record filed under it; an incremental data merge and an
    array-field patch also keep the kind of every record.  A wholesale
    replacement files the new element as it is, with its own kind. *)
Theorem id_stable_and_kind_stable_under_patches (st : Interpreter.State) :
  Registry.wellKeyed (fst st) ->
  (forall payloads,
     let st' := afterPayloads st payloads in
     Registry.wellKeyed (fst st')
     /\ forall key old,
          JS.mapGet key (Registry.messageStore (fst st)) = Some old ->
          exists new,
            JS.mapGet key (Registry.messageStore (fst st')) = Some new
            /\ JS.getProp new "id" = JS.getProp old "id")
  /\ (forall inc key old,
        JS.mapGet key (Registry.messageStore (fst st)) = Some old ->
        exists new,
          JS.mapGet key
            (Registry.messageStore (fst (Interpreter.handleIncrementalData inc st)))
          = Some new
          /\ Registry.sameIdentity old new)
  /\ (forall inc item key old,
        JS.mapGet key (Registry.messageStore (fst st)) = Some old ->
        exists new,
          JS.mapGet key
            (Registry.messageStore (fst (Interpreter.applyArrayFieldUpdate inc item st)))
          = Some new
          /\ Registry.sameIdentity old new)
  /\ (forall message,
        JS.mapGet (JS.getProp message "id")
          (Registry.messageStore (Registry.storeMessage message (fst st)))
        = Some message).
Proof.
  intros Hwf. split; [|split; [|split]].
  - intros payloads st'.
    assert (Hwf' : Registry.wellKeyed (fst st'))
      by (apply preserved_afterPayloads;
          [apply wellKeyed_storeMessage | assumption]).
    split; [exact Hwf' |].
    intros key old Hold.
    destruct (preserved_afterPayloads
                (fun reg => exists m, JS.mapGet key (Registry.messageStore reg) = Some m)
                (stored_storeMessage key) payloads st) as [new Hnew]; [eauto |].
    exists new. split; [exact Hnew |].
    rewrite (wellKeyed_lookup _ _ _ Hwf' Hnew).
    now rewrite (wellKeyed_lookup _ _ _ Hwf Hold).
  - intros inc key old Hold. destruct st as [reg tracker].
    now apply handleIncrementalData_sameIdentity.
  - intros inc item key old Hold. destruct st as [reg tracker].
    now apply applyArrayFieldUpdate_sameIdentity.
  - intros message. apply storeMessage_get_same.
Qed.

Lemma id_stable_and_kind_stable_under_patches_witness :
  let message := textMessage "m1" ["hi"] in
  let st : Interpreter.State :=
    (Registry.storeMessage message Registry.emptyRegistry, <[0 := "m1"]> ∅) in
  let patch := dataEntry 0 (JS.JObj [("__typename", JS.JStr "Other");
                                     ("id", JS.JStr "m2"); ("role", JS.JStr "user")]) in
  Registry.wellKeyed (fst st)
  /\ exists new,
       JS.mapGet (JS.JStr "m1")
         (Registry.messageStore (fst (Interpreter.handleIncrementalData patch st)))
       = Some new
       /\ Registry.sameIdentity message new.
Proof.
  intros message st patch.
  assert (Hwf : Registry.wellKeyed (fst st))
    by (apply wellKeyed_storeMessage, wellKeyed_empty).
  split; [exact Hwf |].
  destruct (id_stable_and_kind_stable_under_patches st Hwf) as (_ & Hdata & _ & _).
  exact (Hdata patch (JS.JStr "m1") message eq_refl).
Defined.

(** C7, as the spec has it, fails: a second snapshot element with the id
    of a stored text message and another kind replaces the record, and
    the kind recorded under the id changes. *)
Lemma snapshot_replacement_changes_kind :
  let first := textMessage "m1" ["hi"] in
  let second := actionMessage "m1" "search" "2024-01-01T00:00:01.000Z" in
  let st1 := afterPayload (Registry.emptyRegistry, ∅) (snapshotPayload [first]) in
  let st2 := afterPayload st1 (snapshotPayload [second]) in
  JS.getProp (Registry.getAguiMessage "m1" (fst st1)) "__typename"
  = JS.JStr "TextMessageOutput"
  /\ JS.getProp (Registry.getAguiMessage "m1" (fst st2)) "__typename"
     = JS.JStr "ActionExecutionMessageOutput"
  /\ JS.getProp (Registry.getAguiMessage "m1" (fst st1)) "__typename"
     <> JS.getProp (Registry.getAguiMessage "m1" (fst st2)) "__typename".
Proof. vm_compute. repeat split; discriminate. Qed.

(** ** The by-type index *)

Section TypeIndexFacts.
Import JS Registry Interpreter.

Lemma setHas_In x s : setHas x s = true <-> In x s.
Proof.
  unfold setHas. rewrite existsb_exists. split.
  - intros (y & Hy & E). apply JValue_eqb_eq in E. now subst.
  - intros H. exists x. split; [assumption | apply JValue_eqb_refl].
Qed.

Lemma setHas_setAdd_keep x y s : setHas x s = true -> setHas x (setAdd y s) = true.
Proof.
  intros H. unfold setAdd. destruct (setHas y s); [assumption |].
  unfold setHas in *. rewrite existsb_app, H. reflexivity.
Qed.

Lemma setHas_setAdd_self x s : setHas x (setAdd x s) = true.
Proof.
  unfold setAdd. destruct (setHas x s) eqn:E; [assumption |].
  unfold setHas. rewrite existsb_app. cbn. rewrite JValue_eqb_refl.
  now rewrite orb_true_r.
Qed.

(** [storeMessage] on the by-type index: the set of the message's
    typename gains the message's id; every set keeps what it had. *)
Lemma storeMessage_messagesByType message reg typename :
  mapGet typename (messagesByType (storeMessage message reg))
  = if JValue_eqb (getProp message "__typename") typename
    then Some (setAdd (getProp message "id")
                 (match mapGet typename (messagesByType reg) with
                  | Some ids => ids
                  | None => []
                  end))
    else mapGet typename (messagesByType reg).
Proof.
  cbn [storeMessage messagesByType]. unfold mapHas.
  set (tn := getProp message "__typename").
  destruct (mapGet tn (messagesByType reg)) as [ids|] eqn:Hget.
  - rewrite Hget, mapGet_mapSet.
    destruct (JValue_eqb tn typename) eqn:E; [|reflexivity].
    apply JValue_eqb_eq in E. subst typename. now rewrite Hget.
  - rewrite mapGet_mapSet_same, !mapGet_mapSet.
    destruct (JValue_eqb tn typename) eqn:E; [|reflexivity].
    apply JValue_eqb_eq in E. subst typename. now rewrite Hget.
Qed.

Lemma typeIndexHas_storeMessage typename id message reg :
  typeIndexHas typename id reg = true ->
  typeIndexHas typename id (storeMessage message reg) = true.
Proof.
  unfold typeIndexHas. rewrite storeMessage_messagesByType.
  destruct (mapGet typename (messagesByType reg)) as [ids|]; [|discriminate].
  intros H. destruct (JValue_eqb (getProp message "__typename") typename);
    [now apply setHas_setAdd_keep | assumption].
Qed.

Lemma typeIndexHas_storeMessage_self message reg :
  typeIndexHas (getProp message "__typename") (getProp message "id")
    (storeMessage message reg) = true.
Proof.
  unfold typeIndexHas. rewrite storeMessage_messagesByType, JValue_eqb_refl.
  apply setHas_setAdd_self.
Qed.

(** An id of a typename's set whose record is truthy is among the
    messages returned for the typename. *)
Lemma getAguiMessagesByType_In typename id message reg :
  typeIndexHas (JStr typename) id reg = true ->
  mapGet id (messageStore reg) = Some message ->
  truthy message = true ->
  In message (getAguiMessagesByType typename reg).
Proof.
  unfold typeIndexHas, getAguiMessagesByType.
  destruct (mapGet (JStr typename) (messagesByType reg)) as [ids|]; [|discriminate].
  intros Hhas Hget Htruthy. apply filter_In. split; [|assumption].
  apply in_map_iff. exists id. rewrite Hget. split; [reflexivity |].
  now apply setHas_In.
Qed.

End TypeIndexFacts.

(** C9 (the by-type index is add-only).  [storeMessage], and so every
    payload, keeps every id in every typename's set.  Hence, when a
    message stored with typename [T1] is replaced wholesale by a message
    with the same id and another typename [T2], the messages returned for
    [T1] still include the record under that id, which now has typename
    [T2]; from an empty registry it is the only message returned. *)
Theorem by_type_index_add_only
    (reg : Registry.Registry) (first second : JS.JValue) (T1 T2 : string) :
  JS.getProp first "__typename" = JS.JStr T1 ->
  JS.getProp second "__typename" = JS.JStr T2 ->
  T1 <> T2 ->
  JS.getProp first "id" = JS.getProp second "id" ->
  (forall typename id r,
     Registry.typeIndexHas typename id r = true ->
     (forall message,
        Registry.typeIndexHas typename id (Registry.storeMessage message r) = true)
     /\ (forall tracker payloads,
           Registry.typeIndexHas typename id (fst (afterPayloads (r, tracker) payloads))
           = true))
  /\ (let reg' := Registry.storeMessage second (Registry.storeMessage first reg) in
      In second (Registry.getAguiMessagesByType T1 reg')
      /\ JS.mapGet (JS.getProp first "id") (Registry.messageStore reg') = Some second)
  /\ Registry.getAguiMessagesByType T1
       (Registry.storeMessage second (Registry.storeMessage first Registry.emptyRegistry))
     = [second].
Proof.
  intros HT1 HT2 Hne Hid. split; [|split].
  - intros typename id r Hhas. split.
    + intros message. now apply typeIndexHas_storeMessage.
    + intros tracker payloads.
      apply (preserved_afterPayloads
               (fun r => Registry.typeIndexHas typename id r = true)); [|assumption].
      intros message r' Hr'. now apply typeIndexHas_storeMessage.
  - cbn zeta. split.
    + apply getAguiMessagesByType_In with (id := JS.getProp second "id").
      * apply typeIndexHas_storeMessage. rewrite <- HT1, <- Hid.
        apply typeIndexHas_storeMessage_self.
      * apply storeMessage_get_same.
      * destruct (getProp_defined second "__typename") as [ps ->];
          [congruence | reflexivity].
    + rewrite Hid. apply storeMessage_get_same.
  - unfold Registry.getAguiMessagesByType.
    rewrite !storeMessage_messagesByType. rewrite HT1, HT2.
    assert (E : JS.JValue_eqb (JS.JStr T2) (JS.JStr T1) = false)
      by (apply JValue_eqb_neq; congruence).
    rewrite E, JValue_eqb_refl. cbn [Registry.emptyRegistry Registry.messagesByType
      JS.mapGet JS.setAdd JS.setHas existsb app map].
    rewrite Hid, storeMessage_get_same.
    destruct (getProp_defined second "__typename") as [ps ->];
      [congruence | reflexivity].
Qed.

Lemma by_type_index_add_only_witness :
  let first := textMessage "m1" ["hi"] in
  let second := actionMessage "m1" "search" "2024-01-01T00:00:01.000Z" in
  Registry.getAguiMessagesByType "TextMessageOutput"
    (Registry.storeMessage second (Registry.storeMessage first Registry.emptyRegistry))
  = [second]
  /\ JS.getProp second "__typename" = JS.JStr "ActionExecutionMessageOutput".
Proof.
  intros first second.
  assert (Hne : "TextMessageOutput" <> "ActionExecutionMessageOutput") by discriminate.
  destruct (by_type_index_add_only Registry.emptyRegistry first second
              "TextMessageOutput" "ActionExecutionMessageOutput"
              eq_refl eq_refl Hne eq_refl) as (_ & _ & Hlist).
  split; [exact Hlist | reflexivity].
Defined.

(** ** Subscribers *)

Section SubscriberFacts.
Import JS Registry.

Lemma existsb_eqb_In (callback : MessageSubscriber) subs :
  existsb (Nat.eqb callback) subs = true <-> In callback subs.
Proof.
  rewrite existsb_exists. split.
  - intros (c & Hc & E). apply Nat.eqb_eq in E. now subst.
  - intros H. exists callback. split; [assumption | apply Nat.eqb_refl].
Qed.

Lemma subscribe_In callback reg :
  In callback (subscribers (subscribeToAguiMessages callback reg)).
Proof.
  cbn [subscribers subscribeToAguiMessages].
  destruct (existsb (Nat.eqb callback) (subscribers reg)) eqn:E.
  - now apply existsb_eqb_In.
  - apply in_or_app. right. now left.
Qed.

Lemma NoDup_snoc {A} (x : A) l :
  List.NoDup l -> ~ In x l -> List.NoDup (l ++ [x]).
Proof.
  induction 1 as [|y l Hy Hnd IH]; intros Hx; cbn [app].
  - repeat constructor. intros [].
  - constructor.
    + intros Hin. apply in_app_or in Hin as [Hin | [-> | []]].
      * now apply Hy.
      * apply Hx. now left.
    + apply IH. intros Hin. apply Hx. now right.
Qed.

Lemma subscribe_NoDup callback reg :
  List.NoDup (subscribers reg) ->
  List.NoDup (subscribers (subscribeToAguiMessages callback reg)).
Proof.
  intros Hnd. cbn [subscribers subscribeToAguiMessages].
  destruct (existsb (Nat.eqb callback) (subscribers reg)) eqn:E; [assumption |].
  apply NoDup_snoc; [assumption |].
  intros Hin. apply existsb_eqb_In in Hin. congruence.
Qed.

(** The calls that one [storeMessage] makes to a given callback. *)
Lemma notified_once callback message subs :
  List.NoDup subs -> In callback subs ->
  map snd (List.filter (fun ev : MessageSubscriber * JValue => Nat.eqb (fst ev) callback)
             (map (fun c => (c, message)) subs))
  = [message].
Proof.
  induction 1 as [|c subs Hnotin Hnd IH]; intros Hin; [destruct Hin |].
  cbn [map List.filter fst]. destruct (Nat.eqb c callback) eqn:E.
  - apply Nat.eqb_eq in E. subst c. cbn [map snd]. f_equal.
    clear IH Hin Hnd. induction subs as [|d subs IH]; [reflexivity |].
    cbn [map List.filter fst].
    destruct (Nat.eqb d callback) eqn:E.
    + apply Nat.eqb_eq in E. subst d. exfalso. apply Hnotin. now left.
    + apply IH. intros H. apply Hnotin. now right.
  - apply IH. destruct Hin as [-> | Hin]; [|assumption].
    rewrite Nat.eqb_refl in E. discriminate.
Qed.

Lemma callsTo_storeMessage callback message reg :
  List.NoDup (subscribers reg) -> In callback (subscribers reg) ->
  callsTo callback (storeMessage message reg) = callsTo callback reg ++ [message].
Proof.
  intros Hnd Hin. unfold callsTo. cbn [calls storeMessage].
  rewrite List.filter_app, List.map_app. f_equal. now apply notified_once.
Qed.

End SubscriberFacts.

(** C10 (a reset keeps the subscribers).  [resetAguiMessageRegistry]
    empties the message store and both indexes and leaves the subscriber
    set as it was: a callback subscribed before the reset receives
    exactly one call, with the stored message, from the next
    [storeMessage]. *)
Theorem reset_keeps_subscribers
    (reg : Registry.Registry) (callback : Registry.MessageSubscriber)
    (message : JS.JValue) :
  List.NoDup (Registry.subscribers reg) ->
  let subscribed := Registry.subscribeToAguiMessages callback reg in
  let cleared := Registry.resetAguiMessageRegistry subscribed in
  Registry.messageStore cleared = []
  /\ Registry.messagesByType cleared = []
  /\ Registry.actionExecutionMessages cleared = []
  /\ Registry.subscribers cleared = Registry.subscribers subscribed
  /\ In callback (Registry.subscribers cleared)
  /\ Registry.callsTo callback (Registry.storeMessage message cleared)
     = Registry.callsTo callback cleared ++ [message].
Proof.
  intros Hnd subscribed cleared.
  repeat (split; [reflexivity |]).
  split; [apply subscribe_In |].
  apply callsTo_storeMessage.
  - now apply subscribe_NoDup.
  - apply subscribe_In.
Qed.

Lemma reset_keeps_subscribers_witness :
  let message := textMessage "m2" ["again"] in
  let reg :=
    Registry.storeMessage (textMessage "m1" ["hi"])
      (Registry.subscribeToAguiMessages 7%nat Registry.emptyRegistry) in
  let cleared :=
    Registry.resetAguiMessageRegistry (Registry.subscribeToAguiMessages 3%nat reg) in
  List.NoDup (Registry.subscribers reg)
  /\ Registry.getAllAguiMessages cleared = []
  /\ Registry.callsTo 3%nat cleared = []
  /\ Registry.callsTo 3%nat (Registry.storeMessage message cleared) = [message].
Proof.
  intros message reg cleared.
  assert (Hnd : List.NoDup (Registry.subscribers reg))
    by (repeat constructor; intros []).
  split; [exact Hnd |].
  destruct (reset_keeps_subscribers reg 3%nat message Hnd)
    as (Hstore & _ & _ & _ & _ & Hcalls).
  split; [exact (f_equal (map snd) Hstore) |].
  split; [reflexivity |].
  exact Hcalls.
Defined.

(** ** The stable sort and its last element *)

Section SortFacts.
Import Registry.

Context {A : Type}.

Lemma insertSorted_In (cmp : A -> A -> Z) x y sorted :
  In y (insertSorted cmp x sorted) <-> y = x \/ In y sorted.
Proof.
  induction sorted as [|z sorted IH]; cbn [insertSorted].
  - cbn. intuition.
  - destruct (0 <? cmp z x); cbn [In]; [intuition |].
    rewrite IH. intuition.
Qed.

Lemma insertSorted_ext (cmp cmp' : A -> A -> Z) x sorted :
  (forall y, In y sorted -> cmp y x = cmp' y x) ->
  insertSorted cmp x sorted = insertSorted cmp' x sorted.
Proof.
  induction sorted as [|z sorted IH]; intros H; cbn [insertSorted]; [reflexivity |].
  rewrite (H z) by now left.
  destruct (0 <? cmp' z x); [reflexivity |].
  f_equal. apply IH. intros y Hy. apply H. now right.
Qed.

Lemma fold_insertSorted_ext (cmp cmp' : A -> A -> Z) l :
  forall acc,
    (forall a b, In a (acc ++ l) -> In b (acc ++ l) -> cmp a b = cmp' a b) ->
    fold_left (fun sorted x => insertSorted cmp x sorted) l acc
    = fold_left (fun sorted x => insertSorted cmp' x sorted) l acc.
Proof.
  induction l as [|x l IH]; intros acc H; cbn [fold_left]; [reflexivity |].
  rewrite (insertSorted_ext cmp cmp' x acc).
  - apply IH. intros a b Ha Hb. apply H.
    + apply in_app_or in Ha as [Ha | Ha]; apply in_or_app.
      * apply insertSorted_In in Ha as [-> | Ha]; [right; now left | now left].
      * right. now right.
    + apply in_app_or in Hb as [Hb | Hb]; apply in_or_app.
      * apply insertSorted_In in Hb as [-> | Hb]; [right; now left | now left].
      * right. now right.
  - intros y Hy. apply H; apply in_or_app; [now left | right; now left].
Qed.

Lemma sortBy_ext (cmp cmp' : A -> A -> Z) l :
  (forall a b, In a l -> In b l -> cmp a b = cmp' a b) ->
  sortBy cmp l = sortBy cmp' l.
Proof. intros H. unfold sortBy. now apply fold_insertSorted_ext. Qed.

Variable key : A -> Z.

Local Abbreviation byKey := (Registry.byKey key).
Local Abbreviation keyLe := (Registry.keyLe key).
Local Abbreviation pickLater := (Registry.pickLater key).

Lemma insertSorted_sorted x sorted :
  StronglySorted keyLe sorted -> StronglySorted keyLe (insertSorted byKey x sorted).
Proof.
  induction 1 as [|z sorted Hs IH Hz]; cbn [insertSorted].
  - repeat constructor.
  - unfold byKey at 1. destruct (0 <? key z - key x) eqn:E.
    + apply Z.ltb_lt in E. constructor; [now constructor |].
      constructor; [unfold keyLe; lia |].
      rewrite List.Forall_forall in *. intros y Hy.
      specialize (Hz y Hy). unfold keyLe in *. lia.
    + apply Z.ltb_ge in E. constructor; [assumption |].
      rewrite List.Forall_forall in *. intros y Hy.
      apply insertSorted_In in Hy as [-> | Hy]; [unfold keyLe; lia | auto].
Qed.

Lemma sorted_last_greatest z sorted y :
  StronglySorted keyLe (z :: sorted) -> list.last (z :: sorted) = Some y ->
  key z <= key y.
Proof.
  intros Hs Hlast. inversion Hs as [|? ? _ Hz]; subst.
  destruct sorted as [|w sorted].
  - cbn in Hlast. injection Hlast as <-. lia.
  - rewrite List.Forall_forall in Hz. apply Hz.
    apply list_elem_of_In. eapply last_Some_elem_of.
    rewrite last_cons_cons in Hlast. exact Hlast.
Qed.

Lemma last_insertSorted x sorted :
  StronglySorted keyLe sorted ->
  list.last (insertSorted byKey x sorted) = pickLater (list.last sorted) x.
Proof.
  induction sorted as [|z sorted IH]; intros Hs; cbn [insertSorted]; [reflexivity |].
  unfold byKey at 1. destruct (0 <? key z - key x) eqn:E.
  - apply Z.ltb_lt in E. rewrite last_cons.
    destruct (list.last (z :: sorted)) as [y|] eqn:Hlast.
    + pose proof (sorted_last_greatest z sorted y Hs Hlast).
      cbn [pickLater]. replace (key x <? key y) with true; [reflexivity |].
      symmetry. apply Z.ltb_lt. lia.
    + apply last_None in Hlast. discriminate Hlast.
  - apply Z.ltb_ge in E. rewrite last_cons, IH by now inversion Hs.
    rewrite (last_cons z sorted).
    destruct (list.last sorted) as [y|]; cbn [pickLater].
    + now destruct (key x <? key y).
    + replace (key x <? key z) with false; [reflexivity |].
      symmetry. apply Z.ltb_ge. lia.
Qed.

Lemma fold_insertSorted_last l :
  forall acc,
    StronglySorted keyLe acc ->
    list.last (fold_left (fun sorted x => insertSorted byKey x sorted) l acc)
    = fold_left pickLater l (list.last acc).
Proof.
  induction l as [|x l IH]; intros acc Hacc; cbn [fold_left]; [reflexivity |].
  rewrite IH by now apply insertSorted_sorted.
  now rewrite last_insertSorted.
Qed.

(** The last element of the stable ascending sort is the last of the
    elements of greatest key. *)
Lemma last_sortBy l : list.last (sortBy byKey l) = latestBy key l.
Proof.
  unfold sortBy, latestBy. rewrite fold_insertSorted_last by constructor.
  reflexivity.
Qed.

Lemma fold_pickLater_smaller after x :
  (forall y, In y after -> key y < key x) ->
  fold_left pickLater after (Some x) = Some x.
Proof.
  induction after as [|y after IH]; intros H; cbn [fold_left]; [reflexivity |].
  cbn [pickLater]. replace (key y <? key x) with true.
  - apply IH. intros z Hz. apply H. now right.
  - symmetry. apply Z.ltb_lt. apply H. now left.
Qed.

Lemma fold_pickLater_bounded before x :
  forall best,
    (forall y, best = Some y -> key y <= key x) ->
    (forall y, In y before -> key y <= key x) ->
    forall z, fold_left pickLater before best = Some z -> key z <= key x.
Proof.
  induction before as [|y before IH]; intros best Hbest H z; cbn [fold_left].
  - intros E. now apply Hbest.
  - apply IH.
    + intros w. destruct best as [b|]; cbn [pickLater].
      * destruct (key y <? key b); intros [= <-];
          [now apply Hbest | apply H; now left].
      * intros [= <-]. apply H. now left.
    + intros w Hw. apply H. now right.
Qed.

(** An element after which every element has a smaller key, and before
    which none has a greater one, is the latest. *)
Lemma latestBy_split before x after :
  (forall y, In y before -> key y <= key x) ->
  (forall y, In y after -> key y < key x) ->
  latestBy key (before ++ x :: after) = Some x.
Proof.
  intros Hbefore Hafter. unfold latestBy.
  rewrite fold_left_app. cbn [fold_left].
  destruct (fold_left pickLater before None) as [z|] eqn:E; cbn [pickLater].
  - assert (key z <= key x).
    { apply (fold_pickLater_bounded before x None); try assumption. discriminate. }
    replace (key x <? key z) with false by (symmetry; apply Z.ltb_ge; lia).
    now apply fold_pickLater_smaller.
  - now apply fold_pickLater_smaller.
Qed.

End SortFacts.

(** ** The recency policy *)

Section RecencyFacts.
Import JS Registry.

Variable getTime : JValue -> option Z.

Lemma compareCreatedAt_byKey a b :
  hasCreatedTime getTime a -> hasCreatedTime getTime b ->
  compareCreatedAt getTime a b = byKey (createdTime getTime) a b.
Proof.
  intros [ta Ha] [tb Hb]. unfold compareCreatedAt, byKey, createdTime.
  now rewrite Ha, Hb.
Qed.

(** With valid timestamps, the sort of [shouldRenderAction] ends with the
    last of the messages of greatest [createdAt]. *)
Lemma last_sorted_by_createdAt l :
  Forall (hasCreatedTime getTime) l ->
  list.last (sortBy (compareCreatedAt getTime) l) = latestBy (createdTime getTime) l.
Proof.
  intros Hvalid. rewrite <- last_sortBy. f_equal.
  apply sortBy_ext. intros a b Ha Hb. rewrite List.Forall_forall in Hvalid.
  apply compareCreatedAt_byKey; auto.
Qed.

Lemma shouldRenderAction_other message reg :
  getProp message "__typename" <> ActionExecutionMessageOutput ->
  shouldRenderAction getTime message reg = true.
Proof.
  intros H. unfold shouldRenderAction, strictEq.
  apply JValue_eqb_neq in H. now rewrite H.
Qed.

Lemma shouldRenderAction_action message reg :
  getProp message "__typename" = ActionExecutionMessageOutput ->
  shouldRenderAction getTime message reg
  = strictEq (getProp message "id")
      (match list.last (sortBy (compareCreatedAt getTime)
                          (sameNameActions message reg)) with
       | Some latestAction => getProp latestAction "id"
       | None => JUndefined
       end).
Proof.
  intros H. unfold shouldRenderAction, strictEq.
  now rewrite H, JValue_eqb_refl.
Qed.

Lemma sameNameActions_name message message' reg :
  getProp message "name" = getProp message' "name" ->
  sameNameActions message reg = sameNameActions message' reg.
Proof. intros H. unfold sameNameActions. now rewrite H. Qed.

Lemma shouldRenderAction_latest message reg before latest after :
  getProp message "__typename" = ActionExecutionMessageOutput ->
  sameNameActions message reg = before ++ latest :: after ->
  Forall (hasCreatedTime getTime) (sameNameActions message reg) ->
  (forall m, In m before -> createdTime getTime m <= createdTime getTime latest) ->
  (forall m, In m after -> createdTime getTime m < createdTime getTime latest) ->
  list.last (sortBy (compareCreatedAt getTime) (sameNameActions message reg))
  = Some latest
  /\ shouldRenderAction getTime message reg
     = strictEq (getProp message "id") (getProp latest "id").
Proof.
  intros Hty Hsplit Hvalid Hbefore Hafter.
  assert (Hlast : list.last (sortBy (compareCreatedAt getTime)
                               (sameNameActions message reg)) = Some latest).
  { rewrite last_sorted_by_createdAt by assumption.
    rewrite Hsplit. now apply latestBy_split. }
  split; [exact Hlast |].
  now rewrite shouldRenderAction_action, Hlast.
Qed.

End RecencyFacts.

(** C4 (recency policy).  A message that is not an action is always
    authoritative.  For an action, take the stored actions with its name,
    in store order, each with a valid [createdAt]: the stable ascending
    sort by [createdAt] ends with the last stored of the messages of
    greatest [createdAt], and the action is authoritative if and only if
    its id is the id of that message, the last element of the sort.  In particular, of three stored
    actions of one name with strictly increasing [createdAt], whatever
    the order in which they were stored, only the one of greatest
    [createdAt] is authoritative. *)
Theorem recency_policy (getTime : JS.JValue -> option Z) (reg : Registry.Registry) :
  (forall message,
     JS.getProp message "__typename" <> Registry.ActionExecutionMessageOutput ->
     Registry.shouldRenderAction getTime message reg = true)
  /\ (forall message latest,
        JS.getProp message "__typename" = Registry.ActionExecutionMessageOutput ->
        list.last (Registry.sortBy (Registry.compareCreatedAt getTime)
                     (Registry.sameNameActions message reg))
        = Some latest ->
        (Registry.shouldRenderAction getTime message reg = true
         <-> JS.getProp message "id" = JS.getProp latest "id"))
  /\ (forall message before latest after,
        JS.getProp message "__typename" = Registry.ActionExecutionMessageOutput ->
        Registry.sameNameActions message reg = before ++ latest :: after ->
        Forall (Registry.hasCreatedTime getTime) (Registry.sameNameActions message reg) ->
        (forall m, In m before ->
           Registry.createdTime getTime m <= Registry.createdTime getTime latest) ->
        (forall m, In m after ->
           Registry.createdTime getTime m < Registry.createdTime getTime latest) ->
        list.last (Registry.sortBy (Registry.compareCreatedAt getTime)
                     (Registry.sameNameActions message reg))
        = Some latest
        /\ (Registry.shouldRenderAction getTime message reg = true
            <-> JS.getProp message "id" = JS.getProp latest "id"))
  /\ (forall m1 m2 m3 t1 t2 t3,
        JS.getProp m1 "__typename" = Registry.ActionExecutionMessageOutput ->
        JS.getProp m2 "__typename" = Registry.ActionExecutionMessageOutput ->
        JS.getProp m3 "__typename" = Registry.ActionExecutionMessageOutput ->
        JS.getProp m1 "name" = JS.getProp m3 "name" ->
        JS.getProp m2 "name" = JS.getProp m3 "name" ->
        Permutation (Registry.sameNameActions m3 reg) [m1; m2; m3] ->
        getTime (JS.getProp m1 "createdAt") = Some t1 ->
        getTime (JS.getProp m2 "createdAt") = Some t2 ->
        getTime (JS.getProp m3 "createdAt") = Some t3 ->
        t1 < t2 < t3 ->
        JS.getProp m1 "id" <> JS.getProp m3 "id" ->
        JS.getProp m2 "id" <> JS.getProp m3 "id" ->
        Registry.shouldRenderAction getTime m3 reg = true
        /\ Registry.shouldRenderAction getTime m1 reg = false
        /\ Registry.shouldRenderAction getTime m2 reg = false).
Proof.
  split; [|split; [|split]].
  - intros message. apply shouldRenderAction_other.
  - intros message latest Hty Hlast.
    rewrite shouldRenderAction_action, Hlast by assumption.
    apply JValue_eqb_eq.
  - intros message before latest after Hty Hsplit Hvalid Hbefore Hafter.
    destruct (shouldRenderAction_latest getTime message reg before latest after)
      as [Hlast Hrender]; try assumption.
    split; [exact Hlast |].
    rewrite Hrender. apply JValue_eqb_eq.
  - intros m1 m2 m3 t1 t2 t3 Hty1 Hty2 Hty3 Hn1 Hn2 Hperm Ht1 Ht2 Ht3 Hlt Hid1 Hid2.
    assert (Hc1 : Registry.createdTime getTime m1 = t1)
      by (unfold Registry.createdTime; now rewrite Ht1).
    assert (Hc2 : Registry.createdTime getTime m2 = t2)
      by (unfold Registry.createdTime; now rewrite Ht2).
    assert (Hc3 : Registry.createdTime getTime m3 = t3)
      by (unfold Registry.createdTime; now rewrite Ht3).
    assert (Hin : In m3 (Registry.sameNameActions m3 reg)).
    { apply (Permutation_in m3 (Permutation_sym Hperm)). right. right. now left. }
    apply in_split in Hin as (before & after & Hsplit).
    assert (Hrest : Permutation [m1; m2] (before ++ after)).
    { apply (Permutation_cons_app_inv before after (a := m3)).
      rewrite <- Hsplit. apply Permutation_sym.
      apply (Permutation_trans Hperm).
      apply Permutation_sym, (Permutation_cons_append [m1; m2] m3). }
    assert (Hsmaller : forall m, In m (before ++ after) ->
                                 Registry.createdTime getTime m
                                 < Registry.createdTime getTime m3).
    { intros m Hm. apply (Permutation_in m (Permutation_sym Hrest)) in Hm.
      destruct Hm as [<- | [<- | []]]; lia. }
    assert (Hvalid : Forall (Registry.hasCreatedTime getTime)
                       (Registry.sameNameActions m3 reg)).
    { apply List.Forall_forall. intros m Hm.
      apply (Permutation_in m Hperm) in Hm.
      destruct Hm as [<- | [<- | [<- | []]]]; unfold Registry.hasCreatedTime; eauto. }
    assert (Hlatest : forall m,
               JS.getProp m "__typename" = Registry.ActionExecutionMessageOutput ->
               JS.getProp m "name" = JS.getProp m3 "name" ->
               Registry.shouldRenderAction getTime m reg
               = JS.strictEq (JS.getProp m "id") (JS.getProp m3 "id")).
    { intros m Hty Hname.
      apply (shouldRenderAction_latest getTime m reg before m3 after); try assumption.
      - now rewrite (sameNameActions_name m m3 reg Hname).
      - now rewrite (sameNameActions_name m m3 reg Hname).
      - intros y Hy. apply Z.lt_le_incl, Hsmaller, in_or_app. now left.
      - intros y Hy. apply Hsmaller, in_or_app. now right. }
    rewrite !Hlatest by (assumption || reflexivity).
    unfold JS.strictEq. rewrite JValue_eqb_refl.
    split; [reflexivity |]. split; now apply JValue_eqb_neq.
Qed.

Lemma recency_policy_witness :
  Registry.shouldRenderAction Registry.protocolTime (textMessage "m1" ["hi"])
    searchRegistry = true
  /\ Registry.shouldRenderAction Registry.protocolTime search3 searchRegistry = true
  /\ Registry.shouldRenderAction Registry.protocolTime search1 searchRegistry = false
  /\ Registry.shouldRenderAction Registry.protocolTime search2 searchRegistry = false.
Proof.
  destruct (recency_policy Registry.protocolTime searchRegistry)
    as (Hother & _ & _ & Hthree).
  split.
  - apply Hother. discriminate.
  - assert (Hperm : Permutation (Registry.sameNameActions search3 searchRegistry)
                      [search1; search2; search3]).
    { change (Permutation [search3; search1; search2] [search1; search2; search3]).
      apply (Permutation_cons_append [search1; search2] search3). }
    assert (Hlt : 1704067201000 < 1704067202000 < 1704067203000) by lia.
    assert (Hid1 : JS.getProp search1 "id" <> JS.getProp search3 "id") by discriminate.
    assert (Hid2 : JS.getProp search2 "id" <> JS.getProp search3 "id") by discriminate.
    exact (Hthree search1 search2 search3 _ _ _
             eq_refl eq_refl eq_refl eq_refl eq_refl Hperm
             eq_refl eq_refl eq_refl Hlt Hid1 Hid2).
Defined.

(** ** The latest-by-name index *)

Section LatestIndexFacts.
Import JS Registry.

Lemma storeMessage_actions_named name message reg :
  name <> "" ->
  isActionNamed name message = true ->
  mapGet (JStr name) (actionExecutionMessages (storeMessage message reg))
  = Some message.
Proof.
  intros Hne Hnamed. unfold isActionNamed in Hnamed.
  apply andb_prop in Hnamed as [Hty Hname].
  apply JValue_eqb_eq in Hname.
  cbn [storeMessage actionExecutionMessages]. rewrite Hty, Hname.
  cbn [truthy]. apply String.eqb_neq in Hne. rewrite Hne. cbn [negb andb].
  apply mapGet_mapSet_same.
Qed.

Lemma storeMessage_actions_other name message reg :
  isActionNamed name message = false ->
  mapGet (JStr name) (actionExecutionMessages (storeMessage message reg))
  = mapGet (JStr name) (actionExecutionMessages reg).
Proof.
  intros Hnamed. unfold isActionNamed in Hnamed.
  cbn [storeMessage actionExecutionMessages].
  destruct (strictEq (getProp message "__typename") ActionExecutionMessageOutput);
    [|reflexivity].
  cbn [andb] in *. destruct (truthy (getProp message "name")); [|reflexivity].
  apply mapGet_mapSet_other. now apply JValue_eqb_neq.
Qed.

Lemma storeAll_actions_other name messages :
  Forall (fun m => isActionNamed name m = false) messages ->
  forall reg,
    mapGet (JStr name) (actionExecutionMessages (storeAll messages reg))
    = mapGet (JStr name) (actionExecutionMessages reg).
Proof.
  induction 1 as [|m l Hm _ IH]; intros reg; [reflexivity |].
  change (storeAll (m :: l) reg) with (storeAll l (storeMessage m reg)).
  rewrite IH. now apply storeMessage_actions_other.
Qed.

Lemma isActionNamed_truthy name message :
  isActionNamed name message = true -> truthy message = true.
Proof.
  unfold isActionNamed. intros H. apply andb_prop in H as [Hty _].
  apply JValue_eqb_eq in Hty.
  destruct (getProp_defined message "__typename") as [ps ->];
    [rewrite Hty; discriminate | reflexivity].
Qed.

(** The index returns the action of the name that was stored last. *)
Lemma getLatestActionExecution_last name before message after reg :
  name <> "" ->
  isActionNamed name message = true ->
  Forall (fun m => isActionNamed name m = false) after ->
  getLatestActionExecution name (storeAll (before ++ message :: after) reg) = message.
Proof.
  intros Hne Hnamed Hafter. unfold getLatestActionExecution.
  rewrite storeAll_app.
  change (storeAll (message :: after) ?r)
    with (storeAll after (storeMessage message r)).
  rewrite storeAll_actions_other by assumption.
  rewrite storeMessage_actions_named by assumption.
  cbn [orNull]. now rewrite (isActionNamed_truthy name message Hnamed).
Qed.

End LatestIndexFacts.

(** C8 (the latest-by-name index follows calls, not timestamps).  The
    index returns, for a name, the action of that name most recently
    passed to [storeMessage], whatever its [createdAt].  So when an
    action [A] is stored before an action [B] of the same name with a
    smaller [createdAt], the index returns [B], on which
    [shouldRenderAction] is false (it is true on [A]). *)
Theorem latest_index_is_last_stored
    (getTime : JS.JValue -> option Z) (name idA idB createdA createdB : string)
    (tA tB : Z) :
  name <> "" ->
  idA <> idB ->
  getTime (JS.JStr createdA) = Some tA ->
  getTime (JS.JStr createdB) = Some tB ->
  tB < tA ->
  (forall reg before message after,
     Registry.isActionNamed name message = true ->
     Forall (fun m => Registry.isActionNamed name m = false) after ->
     Registry.getLatestActionExecution name
       (Registry.storeAll (before ++ message :: after) reg)
     = message)
  /\ (let A := actionMessage idA name createdA in
      let B := actionMessage idB name createdB in
      let reg := Registry.storeAll [A; B] Registry.emptyRegistry in
      Registry.getLatestActionExecution name reg = B
      /\ Registry.shouldRenderAction getTime B reg = false
      /\ Registry.shouldRenderAction getTime A reg = true).
Proof.
  intros Hname Hids HtA HtB Hlt. split.
  - intros reg before message after Hnamed Hafter.
    now apply getLatestActionExecution_last.
  - intros A B reg.
    assert (HnamedB : Registry.isActionNamed name B = true).
    { unfold Registry.isActionNamed, JS.strictEq. cbn. now rewrite String.eqb_refl. }
    assert (Hstore : Registry.messageStore reg = [(JS.JStr idA, A); (JS.JStr idB, B)]).
    { cbn. apply String.eqb_neq in Hids. now rewrite Hids. }
    assert (Hsame : forall m, JS.getProp m "name" = JS.JStr name ->
                              Registry.sameNameActions m reg = [] ++ A :: [B]).
    { intros m Hm. unfold Registry.sameNameActions. rewrite Hstore, Hm.
      unfold JS.strictEq. cbn. now rewrite String.eqb_refl. }
    assert (Hrender : forall m,
               JS.getProp m "__typename" = Registry.ActionExecutionMessageOutput ->
               JS.getProp m "name" = JS.JStr name ->
               Registry.shouldRenderAction getTime m reg
               = JS.strictEq (JS.getProp m "id") (JS.getProp A "id")).
    { intros m Hty Hm.
      apply (shouldRenderAction_latest getTime m reg [] A [B]).
      - assumption.
      - now apply Hsame.
      - rewrite (Hsame m Hm).
        repeat constructor; unfold Registry.hasCreatedTime; cbn; eauto.
      - intros y [].
      - intros y [<- | []]. unfold Registry.createdTime. cbn.
        rewrite HtA, HtB. exact Hlt. }
    split; [|split].
    + change reg with (Registry.storeAll ([A] ++ B :: []) Registry.emptyRegistry).
      apply getLatestActionExecution_last; [assumption | assumption | constructor].
    + rewrite Hrender by reflexivity. cbn.
      apply String.eqb_neq. congruence.
    + rewrite Hrender by reflexivity. cbn. apply String.eqb_refl.
Qed.

Lemma latest_index_is_last_stored_witness :
  let A := actionMessage "a1" "lookup" "2024-01-01T00:00:02.000Z" in
  let B := actionMessage "a2" "lookup" "2024-01-01T00:00:01.000Z" in
  let reg := Registry.storeAll [A; B] Registry.emptyRegistry in
  Registry.getLatestActionExecution "lookup" reg = B
  /\ Registry.shouldRenderAction Registry.protocolTime B reg = false
  /\ Registry.shouldRenderAction Registry.protocolTime A reg = true.
Proof.
  intros A B reg.
  assert (Hname : "lookup" <> "") by discriminate.
  assert (Hids : "a1" <> "a2") by discriminate.
  assert (Hlt : 1704067201000 < 1704067202000) by lia.
  exact (proj2 (latest_index_is_last_stored Registry.protocolTime "lookup" "a1" "a2"
                  "2024-01-01T00:00:02.000Z" "2024-01-01T00:00:01.000Z" _ _
                  Hname Hids eq_refl eq_refl Hlt)).
Defined.

(** * Further properties of the code *)

(** ** The scanner on arbitrary input *)

Section ScannerInvariants.
Import Chars Extractor Framing.

Lemma parserInvariant_initial : parserInvariant initialParserState.
Proof.
  unfold parserInvariant. cbn. split; [lia |]. split; [reflexivity |]. lia.
Qed.

Lemma parserInvariant_inside b d i e :
  0 < d -> (exists rest, b = String lbrace rest) ->
  parserInvariant (mkParser b d i e).
Proof.
  intros Hd Hb. unfold parserInvariant. cbn. split; [lia |]. split; [lia |].
  intros _. exact Hb.
Qed.

Lemma appendChar_braced b c :
  (exists rest, b = String lbrace rest) ->
  exists rest, appendChar b c = String lbrace rest.
Proof. intros [rest ->]. unfold appendChar. rewrite append_cons. eauto. Qed.

(** One loop iteration keeps the invariant, and what it emits is braced. *)
Lemma scanChar_invariant c ps st :
  parserInvariant st ->
  Forall braced ps ->
  parserInvariant (snd (scanChar c (ps, st)))
  /\ Forall braced (fst (scanChar c (ps, st))).
Proof.
  intros (Hge & Hidle & Hbuf) Hps. destruct st as [b d i e].
  cbn [depth buffer] in *. unfold scanChar. cbn [depth buffer inString escaping].
  destruct (d =? 0) eqn:Hd.
  - apply Z.eqb_eq in Hd. subst d. specialize (Hidle eq_refl).
    injection Hidle as -> -> ->.
    destruct (Ascii.eqb c lbrace); cbn [fst snd]; split; try assumption.
    + apply parserInvariant_inside; [lia | eauto].
    + apply parserInvariant_initial.
  - apply Z.eqb_neq in Hd. assert (Hpos : 0 < d) by lia.
    pose proof (appendChar_braced b c (Hbuf Hpos)) as Hnew.
    assert (Hkeep : forall i' e',
               parserInvariant (mkParser (appendChar b c) d i' e'))
      by (intros i' e'; now apply parserInvariant_inside).
    destruct e; [cbn [fst snd]; split; auto |].
    destruct (Ascii.eqb c backslash); [cbn [fst snd]; split; auto |].
    destruct (Ascii.eqb c quote); [cbn [fst snd]; split; auto |].
    destruct i; [cbn [fst snd]; split; auto |].
    destruct (Ascii.eqb c lbrace) eqn:Hl.
    { cbn [fst snd]. split; [|assumption].
      apply parserInvariant_inside; [lia | assumption]. }
    destruct (Ascii.eqb c rbrace) eqn:Hr; [|cbn [fst snd]; split; auto].
    cbn [depth buffer inString escaping].
    destruct (d - 1 =? 0) eqn:Hd1; cbn [fst snd].
    + apply Z.eqb_eq in Hd1. split.
      * rewrite Hd1. apply parserInvariant_initial.
      * apply Forall_app. split; [assumption |]. constructor; [|constructor].
        destruct (Hbuf Hpos) as [rest ->]. apply Ascii.eqb_eq in Hr. subst c.
        exists rest. unfold appendChar. now rewrite append_cons.
    + apply Z.eqb_neq in Hd1. split; [|assumption].
      apply parserInvariant_inside; [lia | assumption].
Qed.

Lemma scanFrom_invariant chunk :
  forall ps st,
    parserInvariant st -> Forall braced ps ->
    parserInvariant (snd (scanFrom chunk (ps, st)))
    /\ Forall braced (fst (scanFrom chunk (ps, st))).
Proof.
  induction chunk as [|c chunk IH]; intros ps st Hst Hps; cbn [scanFrom].
  - now split.
  - destruct (scanChar_invariant c ps st Hst Hps) as [Hst' Hps'].
    destruct (scanChar c (ps, st)) as [ps' st']. now apply IH.
Qed.

Lemma feedChunks_invariant chunks :
  forall st,
    parserInvariant st ->
    parserInvariant (snd (feedChunks chunks st))
    /\ Forall braced (fst (feedChunks chunks st)).
Proof.
  induction chunks as [|chunk chunks IH]; intros st Hst; cbn [feedChunks].
  - split; [assumption | constructor].
  - destruct (scanFrom_invariant chunk [] st Hst (List.Forall_nil _)) as [Hst' Hps'].
    unfold extractJsonPayloads.
    destruct (scanFrom chunk ([], st)) as [ps st'].
    destruct (IH st' Hst') as [Hfinal Hmore].
    destruct (feedChunks chunks st') as [more final]. cbn [fst snd] in *.
    split; [assumption |]. apply Forall_app. now split.
Qed.

End ScannerInvariants.

(** X1.  Whatever text a stream has carried, in whatever chunks, the
    depth of its parser is not negative, and whenever the parser is
    outside an object (depth 0) it is exactly in its initial state: the
    buffer is empty and no string or escape is pending, so nothing of an
    earlier object can affect the next one. *)
Theorem parser_outside_object_is_initial (chunks : list string) :
  let state := snd (Extractor.feedChunks chunks Extractor.initialParserState) in
  0 <= Extractor.depth state
  /\ (Extractor.depth state = 0 -> state = Extractor.initialParserState).
Proof.
  intros state.
  destruct (feedChunks_invariant chunks Extractor.initialParserState
              parserInvariant_initial) as [(Hge & Hidle & _) _].
  split; assumption.
Qed.

(** X2.  Whatever the input, well-formed or not, every payload that the
    extractor emits starts with an opening brace and ends with a closing
    brace. *)
Theorem emitted_payloads_are_braced (chunks : list string) (payload : string) :
  In payload (fst (Extractor.feedChunks chunks Extractor.initialParserState)) ->
  exists body, payload = String Chars.lbrace (body +:+ String Chars.rbrace "").
Proof.
  intros Hin.
  destruct (feedChunks_invariant chunks Extractor.initialParserState
              parserInvariant_initial) as [_ Hall].
  rewrite List.Forall_forall in Hall. exact (Hall payload Hin).
Qed.

Lemma emitted_payloads_are_braced_witness :
  exists body,
    Chars.dq "{'a':{}}" = String Chars.lbrace (body +:+ String Chars.rbrace "").
Proof.
  apply (emitted_payloads_are_braced [Chars.dq "x}{'a':"; Chars.dq "{}} {'b"]).
  vm_compute. left. reflexivity.
Defined.

(** ** Truncated objects and framed streams *)

Section FramingFacts.
Import Chars Extractor Framing.

Lemma length_append (a b : string) :
  String.length (a +:+ b) = (String.length a + String.length b)%nat.
Proof.
  induction a as [|c a IH]; [reflexivity |].
  rewrite append_cons. cbn [String.length]. now rewrite IH.
Qed.

Lemma length_appendChar b c : String.length (appendChar b c) = S (String.length b).
Proof. unfold appendChar. rewrite length_append. cbn [String.length]. lia. Qed.

Lemma heldLength_emit ps b st :
  buffer st = "" ->
  heldLength (ps ++ [b], st) = (list_sum (map String.length ps) + String.length b)%nat.
Proof.
  intros H. unfold heldLength. cbn [fst snd].
  rewrite H, List.map_app, list_sum_app. cbn. lia.
Qed.

(** The scanner holds no more characters than it has read. *)
Lemma scanChar_heldLength c acc :
  (heldLength (scanChar c acc) <= S (heldLength acc))%nat.
Proof.
  destruct acc as [ps [b d i e]]. unfold scanChar.
  cbn [depth buffer inString escaping].
  repeat match goal with
         | |- context [if ?x then _ else _] => destruct x
         end;
    try (rewrite heldLength_emit by reflexivity);
    unfold heldLength; cbn [fst snd buffer];
    rewrite ?length_appendChar; cbn [String.length]; lia.
Qed.

Lemma scanFrom_heldLength chunk :
  forall acc,
    (heldLength (scanFrom chunk acc) <= heldLength acc + String.length chunk)%nat.
Proof.
  induction chunk as [|c chunk IH]; intros acc; cbn [scanFrom String.length]; [lia |].
  specialize (IH (scanChar c acc)). pose proof (scanChar_heldLength c acc). lia.
Qed.

(** Outside an object, a text without an opening brace is discarded. *)
Lemma scanFrom_noBrace s :
  noBrace s ->
  forall ps, scanFrom s (ps, initialParserState) = (ps, initialParserState).
Proof.
  unfold noBrace. induction s as [|c s IH]; intros H ps; [reflexivity |].
  cbn [JsonText.allChars] in H. apply andb_prop in H as [Hc Hs].
  cbn [scanFrom]. unfold scanChar at 1. cbn [depth initialParserState Z.eqb].
  apply negb_true_iff in Hc. rewrite Hc. now apply IH.
Qed.

Lemma scanFrom_object obj ps :
  JsonText.object obj ->
  scanFrom obj (ps, initialParserState) = (ps ++ [obj], initialParserState).
Proof.
  intros Hobj. rewrite scanFrom_payloads.
  destruct (object_shape obj Hobj) as (body & Hbody & ->).
  pose proof (extract_braces body Hbody) as H. unfold extractJsonPayloads in H.
  now rewrite H.
Qed.

Lemma scanFrom_framed_items items :
  Forall (fun item => JsonText.object (fst item) /\ noBrace (snd item)) items ->
  forall ps,
    scanFrom (fold_right (fun item rest => fst item +:+ snd item +:+ rest) "" items)
      (ps, initialParserState)
    = (ps ++ map fst items, initialParserState).
Proof.
  induction 1 as [|[obj sep] items [Hobj Hsep] _ IH]; intros ps; cbn [fold_right map].
  - now rewrite app_nil_r.
  - cbn [fst snd] in *. rewrite !scanFrom_append.
    rewrite scanFrom_object, scanFrom_noBrace by assumption.
    rewrite IH. now rewrite <- app_assoc.
Qed.

End FramingFacts.

(** X3.  A truncated object is never emitted: for a complete JSON object
    cut anywhere before its end, the extractor emits nothing for the part
    before the cut, however long the stream then stays silent; when the
    rest arrives, the object is emitted whole and the parser is back in
    its initial state. *)
Theorem truncated_object_is_not_emitted (S before rest : string) :
  JsonText.object S ->
  S = before +:+ rest ->
  rest <> "" ->
  fst (Extractor.extractJsonPayloads before Extractor.initialParserState) = []
  /\ Extractor.extractJsonPayloads rest
       (snd (Extractor.extractJsonPayloads before Extractor.initialParserState))
     = ([S], Extractor.initialParserState).
Proof.
  intros Hobj HS Hrest.
  destruct (object_shape S Hobj) as (body & Hbody & Hshape).
  pose proof (extract_braces body Hbody) as Hwhole. rewrite <- Hshape in Hwhole.
  rewrite HS in Hwhole at 1. rewrite extractJsonPayloads_append in Hwhole.
  pose proof (scanFrom_heldLength before ([], Extractor.initialParserState)) as Hlen.
  unfold Extractor.extractJsonPayloads in *.
  destruct (Extractor.scanFrom before ([], Extractor.initialParserState))
    as [ps st] eqn:Ebefore.
  cbn [fst snd] in *.
  destruct (Extractor.scanFrom rest ([], st)) as [qs st'] eqn:Erest.
  cbn [fst snd] in *. injection Hwhole as Hpayloads Hstate.
  destruct ps as [|p ps].
  - cbn [app] in Hpayloads. subst qs st'. now split.
  - exfalso. injection Hpayloads as Hp Hnil. subst p.
    unfold Framing.heldLength in Hlen. cbn in Hlen.
    rewrite HS, length_append in Hlen.
    assert (0 < String.length rest)%nat by (destruct rest; [congruence | cbn; lia]).
    lia.
Qed.

Lemma truncated_object_is_not_emitted_witness :
  fst (Extractor.extractJsonPayloads (Chars.dq "{'a':'x{y}\'")
         Extractor.initialParserState) = []
  /\ Extractor.extractJsonPayloads (Chars.dq "z}'}")
       (snd (Extractor.extractJsonPayloads (Chars.dq "{'a':'x{y}\'")
               Extractor.initialParserState))
     = ([sampleObject], Extractor.initialParserState).
Proof.
  assert (Hrest : Chars.dq "z}'}" <> "") by discriminate.
  exact (truncated_object_is_not_emitted sampleObject (Chars.dq "{'a':'x{y}\'")
           (Chars.dq "z}'}") sampleObject_is_object eq_refl Hrest).
Defined.

Lemma extract_framed lead items :
  Framing.noBrace lead ->
  Forall (fun item => JsonText.object (fst item) /\ Framing.noBrace (snd item)) items ->
  Extractor.extractJsonPayloads (Framing.framed lead items) Extractor.initialParserState
  = (map fst items, Extractor.initialParserState).
Proof.
  intros Hlead Hitems. unfold Extractor.extractJsonPayloads, Framing.framed.
  rewrite scanFrom_append, scanFrom_noBrace by assumption.
  now rewrite scanFrom_framed_items.
Qed.

(** X4.  Text between top-level objects is discarded: for a stream made
    of JSON objects, each followed by text without an opening brace (and
    led by such a text), one call of the extractor emits exactly the
    objects, in order, and leaves the parser in its initial state. *)
Theorem framed_objects_are_extracted_in_order
    (lead : string) (items : list (string * string)) :
  Framing.noBrace lead ->
  Forall (fun item => JsonText.object (fst item) /\ Framing.noBrace (snd item)) items ->
  Extractor.extractJsonPayloads (Framing.framed lead items) Extractor.initialParserState
  = (map fst items, Extractor.initialParserState).
Proof. apply extract_framed. Qed.

Lemma framed_objects_are_extracted_in_order_witness :
  Extractor.extractJsonPayloads
    (Framing.framed "---" [(sampleObject, ", "); (sampleObject, "")])
    Extractor.initialParserState
  = ([sampleObject; sampleObject], Extractor.initialParserState).
Proof.
  apply (framed_objects_are_extracted_in_order "---"
           [(sampleObject, ", "); (sampleObject, "")]).
  - reflexivity.
  - repeat constructor; exact sampleObject_is_object.
Defined.

(** ** The pipeline from chunks to the store *)

Section PipelineFacts.
Import JS Registry Interpreter.

Variable JSON_parse : string -> option JValue.

(** What [processChunk] does with one extracted payload. *)
Lemma processChunk_payloads chunk st parser :
  processChunk JSON_parse chunk (st, parser)
  = (fold_left
       (fun st payload =>
          match JSON_parse payload with
          | Some data => afterPayload st data
          | None => st
          end)
       (fst (Extractor.extractJsonPayloads chunk parser)) st,
     snd (Extractor.extractJsonPayloads chunk parser)).
Proof.
  unfold processChunk.
  now destruct (Extractor.extractJsonPayloads chunk parser) as [payloads parser'].
Qed.

Lemma processChunk_append a b ctx :
  processChunk JSON_parse (a +:+ b) ctx
  = processChunk JSON_parse b (processChunk JSON_parse a ctx).
Proof.
  destruct ctx as [st parser].
  rewrite (processChunk_payloads a), !processChunk_payloads.
  rewrite extractJsonPayloads_append. cbn [fst snd].
  now rewrite fold_left_app.
Qed.

Lemma processChunk_empty ctx : processChunk JSON_parse "" ctx = ctx.
Proof. now destruct ctx as [st parser]. Qed.

Lemma processChunk_join chunks :
  forall ctx,
    fold_left (fun ctx chunk => processChunk JSON_parse chunk ctx) chunks ctx
    = processChunk JSON_parse (Extractor.joinChunks chunks) ctx.
Proof.
  induction chunks as [|chunk chunks IH]; intros ctx;
    cbn [fold_left Extractor.joinChunks fold_right].
  - symmetry. apply processChunk_empty.
  - fold (Extractor.joinChunks chunks). rewrite processChunk_append. apply IH.
Qed.

End PipelineFacts.

(** X5.  Chunk boundaries do not matter to the store: for any text, any
    cut of it into chunks and any behaviour of [JSON.parse], processing
    the chunks one after the other leaves the same registry, tracker and
    parser state as processing the whole text as one chunk. *)
Theorem pipeline_chunk_boundary_invariance
    (JSON_parse : string -> option JS.JValue) (chunks : list string)
    (ctx : Interpreter.State * Extractor.ChunkParserState) :
  fold_left (fun ctx chunk => Interpreter.processChunk JSON_parse chunk ctx) chunks ctx
  = Interpreter.processChunk JSON_parse (Extractor.joinChunks chunks) ctx.
Proof. apply processChunk_join. Qed.

(** X6.  A stream of framed JSON objects, cut into chunks anywhere, is
    interpreted object by object in order: each object that [JSON.parse]
    accepts is processed as a payload, an object that it rejects is
    skipped without stopping the ones after it, and the parser ends in
    its initial state. *)
Theorem framed_stream_is_interpreted_in_order
    (JSON_parse : string -> option JS.JValue) (chunks : list string)
    (lead : string) (items : list (string * string)) (st : Interpreter.State) :
  Framing.noBrace lead ->
  Forall (fun item => JsonText.object (fst item) /\ Framing.noBrace (snd item)) items ->
  Extractor.joinChunks chunks = Framing.framed lead items ->
  fold_left (fun ctx chunk => Interpreter.processChunk JSON_parse chunk ctx) chunks
    (st, Extractor.initialParserState)
  = (fold_left
       (fun st object =>
          match JSON_parse object with
          | Some data => afterPayload st data
          | None => st
          end)
       (map fst items) st,
     Extractor.initialParserState).
Proof.
  intros Hlead Hitems Hjoin.
  rewrite processChunk_join, Hjoin, processChunk_payloads.
  now rewrite (extract_framed lead items Hlead Hitems).
Qed.

Lemma framed_stream_is_interpreted_in_order_witness :
  let parse (payload : string) : option JS.JValue :=
    if String.eqb payload sampleObject
    then Some (JS.JObj [("a", JS.JStr (Chars.dq "x{y}'z}"))])
    else None in
  fold_left (fun ctx chunk => Interpreter.processChunk parse chunk ctx)
    [Chars.dq "--{'a':'x{"; Chars.dq "y}\'z}'}, "; sampleObject]
    ((Registry.emptyRegistry, ∅), Extractor.initialParserState)
  = ((Registry.emptyRegistry, ∅), Extractor.initialParserState).
Proof.
  intros parse.
  apply (framed_stream_is_interpreted_in_order parse
           [Chars.dq "--{'a':'x{"; Chars.dq "y}\'z}'}, "; sampleObject]
           "--" [(sampleObject, ", "); (sampleObject, "")]).
  - reflexivity.
  - repeat constructor; exact sampleObject_is_object.
  - reflexivity.
Defined.

(** ** Paths, dropped patches and what a payload leaves alone *)

Section PathFacts.
Import JS Registry Interpreter.

Lemma findMessagesIndex_none_paths path :
  findMessagesIndex path = None ->
  getMessageIndexFromPath (JArr path) = None
  /\ getFieldFromPath path = None
  /\ getArrayIndexFromPath path = None.
Proof.
  intros H. unfold getMessageIndexFromPath, getFieldFromPath, getArrayIndexFromPath.
  now rewrite H.
Qed.

Lemma paths_after_prefix prefix index field position extra :
  findMessagesIndex prefix = None ->
  let path := prefix ++ JStr "messages" :: JNum index :: JStr field :: JNum position
                        :: extra in
  getMessageIndexFromPath (JArr path) = Some index
  /\ getFieldFromPath path = Some field
  /\ getArrayIndexFromPath path = Some position.
Proof.
  intros Hprefix path.
  unfold getMessageIndexFromPath, getFieldFromPath, getArrayIndexFromPath, path.
  rewrite findMessagesIndex_prefix by assumption.
  rewrite (nth_after_prefix prefix _ JUndefined 1),
          (nth_after_prefix prefix _ JUndefined 2),
          (nth_after_prefix prefix _ JUndefined 3).
  now repeat split.
Qed.

(** The tracker of a stream changes by insertions only. *)
Section TrackerPreservation.
Variable Q : gmap Z string -> Prop.
Hypothesis Q_insert : forall k id tracker, Q tracker -> Q (<[k := id]> tracker).

Lemma tracker_applyArrayFieldUpdate inc item st :
  Q (snd st) -> Q (snd (applyArrayFieldUpdate inc item st)).
Proof.
  destruct st as [reg tracker]. unfold applyArrayFieldUpdate. intros H.
  repeat case_match; cbn [snd]; auto.
Qed.

Lemma tracker_handleIncrementalData inc st :
  Q (snd st) -> Q (snd (handleIncrementalData inc st)).
Proof.
  destruct st as [reg tracker]. unfold handleIncrementalData. intros H.
  repeat case_match; cbn [snd]; auto.
Qed.

Lemma tracker_handleItem inc st item :
  Q (snd st) -> Q (snd (handleItem inc st item)).
Proof.
  unfold handleItem. intros H. destruct (isMessageObject item).
  - destruct st as [reg tracker]. repeat case_match; cbn [snd] in *; auto.
  - destruct (isString item); [now apply tracker_applyArrayFieldUpdate | assumption].
Qed.

Lemma tracker_processIncrement st inc :
  Q (snd st) -> Q (snd (processIncrement st inc)).
Proof.
  unfold processIncrement. intros H.
  destruct (negb (truthy inc)); [assumption |].
  assert (Q (snd (if isArray (getProp inc "items")
                  then handleIncrementalItems inc st else st))).
  { destruct (isArray (getProp inc "items")); [|assumption].
    unfold handleIncrementalItems. destruct (getProp inc "items"); try assumption.
    apply (fold_left_preserves (fun st => Q (snd st))); [|assumption].
    intros. now apply tracker_handleItem. }
  destruct (truthy (getProp inc "data"));
    [now apply tracker_handleIncrementalData | assumption].
Qed.

Lemma tracker_afterPayload st payload :
  Q (snd st) -> Q (snd (afterPayload st payload)).
Proof.
  destruct st as [reg tracker]. unfold afterPayload, processPayload. cbn [snd].
  intros H. destruct (truthy (getProp payload "incremental")); [|exact H].
  unfold processIncrementalPayload.
  destruct (getProp payload "incremental"); cbn [snd]; try exact H.
  apply (fold_left_preserves (fun st => Q (snd st))); [|exact H].
  intros. now apply tracker_processIncrement.
Qed.

Lemma tracker_afterPayloads payloads st :
  Q (snd st) -> Q (snd (afterPayloads st payloads)).
Proof.
  unfold afterPayloads. apply (fold_left_preserves (fun st => Q (snd st))).
  intros. now apply tracker_afterPayload.
Qed.
End TrackerPreservation.

(** What one [storeMessage] adds to the trace of subscriber calls. *)
Lemma storeMessage_trace message reg subs before :
  subscribers reg = subs
  /\ (exists new, calls reg = before ++ new /\ Forall (fun ev => In (fst ev) subs) new) ->
  subscribers (storeMessage message reg) = subs
  /\ (exists new, calls (storeMessage message reg) = before ++ new
                  /\ Forall (fun ev => In (fst ev) subs) new).
Proof.
  intros [Hsubs (new & Hcalls & Hall)]. split; [exact Hsubs |].
  exists (new ++ map (fun callback => (callback, message)) (subscribers reg)).
  cbn [calls storeMessage]. rewrite Hcalls, <- app_assoc. split; [reflexivity |].
  apply Forall_app. split; [assumption |].
  apply List.Forall_forall. intros ev Hev. apply in_map_iff in Hev as (c & <- & Hc).
  cbn [fst]. now rewrite <- Hsubs.
Qed.

End PathFacts.

(** X7.  The three path readers agree on where a patch points: in a path
    whose first [messages] segment is followed by a number, a string and
    a number, they return the message position, the field and the array
    position, whatever comes before the segment or after the three; in a
    path without a [messages] segment all three return [null]. *)
Theorem path_readers_follow_first_messages_segment
    (prefix extra : list JS.JValue) (index position : Z) (field : string) :
  Interpreter.findMessagesIndex prefix = None ->
  (let path := prefix ++ JS.JStr "messages" :: JS.JNum index :: JS.JStr field
                      :: JS.JNum position :: extra in
   Interpreter.getMessageIndexFromPath (JS.JArr path) = Some index
   /\ Interpreter.getFieldFromPath path = Some field
   /\ Interpreter.getArrayIndexFromPath path = Some position)
  /\ (Interpreter.getMessageIndexFromPath (JS.JArr prefix) = None
      /\ Interpreter.getFieldFromPath prefix = None
      /\ Interpreter.getArrayIndexFromPath prefix = None).
Proof.
  intros Hprefix. split.
  - now apply paths_after_prefix.
  - now apply findMessagesIndex_none_paths.
Qed.

Lemma path_readers_follow_first_messages_segment_witness :
  let path := [JS.JStr "generateCopilotResponse"; JS.JStr "messages"; JS.JNum 2;
               JS.JStr "content"; JS.JNum 5] in
  Interpreter.getMessageIndexFromPath (JS.JArr path) = Some 2
  /\ Interpreter.getFieldFromPath path = Some "content"
  /\ Interpreter.getArrayIndexFromPath path = Some 5.
Proof.
  exact (proj1 (path_readers_follow_first_messages_segment
                  [JS.JStr "generateCopilotResponse"] [] 2 5 "content" eq_refl)).
Defined.

(** X8.  An array-field patch (a string item) is dropped, the registry,
    the trace of subscriber calls and the tracker staying as they were,
    when its field is neither [content] nor [arguments], or when the
    tracker does not know the message position. *)
Theorem array_patch_elsewhere_is_dropped
    (st : Interpreter.State) (prefix : list JS.JValue) (index position : Z)
    (field segment : string) :
  Interpreter.findMessagesIndex prefix = None ->
  (field <> "content" /\ field <> "arguments") \/ snd st !! index = None ->
  Interpreter.processPayload
    (incrementalPayload (arrayFieldEntry prefix index field position segment)) st
  = (Interpreter.Normal, st).
Proof.
  intros Hprefix Hcase. rewrite processPayload_increment. f_equal.
  destruct st as [reg tracker].
  unfold arrayFieldEntry, Interpreter.processIncrement.
  cbn [JS.truthy negb JS.getProp JS.lastAssigned String.eqb Ascii.eqb Bool.eqb
       JS.isArray].
  unfold Interpreter.handleIncrementalItems.
  cbn [JS.getProp JS.lastAssigned String.eqb Ascii.eqb Bool.eqb fold_left].
  unfold Interpreter.handleItem. cbn [Interpreter.isMessageObject JS.isString].
  unfold Interpreter.applyArrayFieldUpdate.
  cbn [JS.getProp JS.lastAssigned String.eqb Ascii.eqb Bool.eqb].
  rewrite path_message_index, path_field, path_array_index by assumption.
  destruct (String.eqb field ""); [reflexivity |].
  destruct Hcase as [[Hc Ha] | Hnone].
  - apply String.eqb_neq in Hc, Ha. now rewrite Hc, Ha.
  - cbn [snd] in Hnone. rewrite Hnone.
    now destruct (negb (String.eqb field "arguments") && negb (String.eqb field "content")).
Qed.

Lemma array_patch_elsewhere_is_dropped_witness :
  let st : Interpreter.State :=
    (Registry.storeMessage (textMessage "m1" ["hi"]) Registry.emptyRegistry,
     <[0 := "m1"]> ∅) in
  Interpreter.processPayload
    (incrementalPayload
       (arrayFieldEntry [JS.JStr "generateCopilotResponse"] 0 "role" 0 "user")) st
  = (Interpreter.Normal, st).
Proof.
  intros st.
  apply (array_patch_elsewhere_is_dropped st [JS.JStr "generateCopilotResponse"]
           0 0 "role" "user" eq_refl).
  left. split; discriminate.
Defined.

(** X9.  The tracker holds the latest message seen at a position: when a
    second message-shaped item, with another id that is not the empty
    string, arrives for a position, a data patch for that position is
    merged into the second message, and the record of the first message
    is no longer reached by it.  (An item whose id is the empty string is
    recorded at the position too, but a data patch takes the empty id for
    no id and is dropped.) *)
Theorem tracker_position_follows_latest_item
    (reg : Registry.Registry) (tracker : gmap Z string) (k : Z)
    (path first second patch : JS.JValue) (id1 id2 : string) :
  Interpreter.isMessageObject first = true ->
  Interpreter.isMessageObject second = true ->
  JS.getProp first "id" = JS.JStr id1 ->
  JS.getProp second "id" = JS.JStr id2 ->
  id1 <> id2 ->
  id2 <> "" ->
  Interpreter.getMessageIndexFromPath path = Some k ->
  JS.truthy (JS.getProp patch "data") = true ->
  JS.isArray (JS.getProp patch "items") = false ->
  Interpreter.getMessageIndexFromPath (JS.getProp patch "path") = Some k ->
  let entry item := incrementalPayload (JS.JObj [("path", path); ("items", JS.JArr [item])]) in
  let final :=
    afterPayload (afterPayload (afterPayload (reg, tracker) (entry first)) (entry second))
      (incrementalPayload patch) in
  snd final !! k = Some id2
  /\ JS.mapGet (JS.JStr id2) (Registry.messageStore (fst final))
     = Some (Interpreter.mergedMessage second (JS.getProp patch "data"))
  /\ JS.mapGet (JS.JStr id1) (Registry.messageStore (fst final)) = Some first.
Proof.
  intros Hm1 Hm2 Hid1 Hid2 Hne Hne2 Hpath Hdata Hitems Hk entry final.
  assert (Hkeys : JS.JStr id2 <> JS.JStr id1) by congruence.
  unfold final, entry, afterPayload.
  rewrite (processPayload_establish path first reg tracker k id1) by assumption.
  cbn [snd].
  rewrite (processPayload_establish path second _ _ k id2) by assumption.
  cbn [snd].
  rewrite processPayload_increment, processIncrement_data by assumption.
  cbn [snd].
  rewrite (handleIncrementalData_resolved patch _ _ k id2 second); try assumption.
  - cbn [fst snd]. split; [apply lookup_insert_eq |]. split.
    + rewrite <- Hid2, <- (mergedMessage_id second (JS.getProp patch "data")).
      apply storeMessage_get_same.
    + rewrite !storeMessage_get_other
        by (rewrite ?mergedMessage_id, Hid2; exact Hkeys).
      rewrite <- Hid1. apply storeMessage_get_same.
  - apply lookup_insert_eq.
  - rewrite <- Hid2. apply storeMessage_get_same.
  - now apply isMessageObject_truthy.
Qed.

Lemma tracker_position_follows_latest_item_witness :
  let entry item := incrementalPayload (itemsEntry 0 item) in
  let patch := dataEntry 0 (JS.JObj [("role", JS.JStr "user")]) in
  let final :=
    afterPayload
      (afterPayload (afterPayload (Registry.emptyRegistry, ∅)
                       (entry (textMessage "m1" ["hi"])))
         (entry (textMessage "m2" ["ho"])))
      (incrementalPayload patch) in
  snd final !! 0 = Some "m2"
  /\ JS.mapGet (JS.JStr "m2") (Registry.messageStore (fst final))
     = Some (Interpreter.mergedMessage (textMessage "m2" ["ho"])
               (JS.JObj [("role", JS.JStr "user")]))
  /\ JS.mapGet (JS.JStr "m1") (Registry.messageStore (fst final))
     = Some (textMessage "m1" ["hi"]).
Proof.
  assert (Hne : "m1" <> "m2") by discriminate.
  assert (Hne2 : "m2" <> "") by discriminate.
  exact (tracker_position_follows_latest_item Registry.emptyRegistry ∅ 0
           (JS.JArr [JS.JStr "generateCopilotResponse"; JS.JStr "messages"; JS.JNum 0])
           (textMessage "m1" ["hi"]) (textMessage "m2" ["ho"])
           (dataEntry 0 (JS.JObj [("role", JS.JStr "user")])) "m1" "m2"
           eq_refl eq_refl eq_refl eq_refl Hne Hne2 eq_refl eq_refl eq_refl eq_refl).
Defined.

(** X10.  A payload whose [incremental] is truthy but not an array makes
    [processPayload] throw, after the snapshot part of the same payload
    has been stored: the messages of the snapshot stay in the store, and
    the tracker is as it was. *)
Theorem malformed_incremental_throws_after_snapshot
    (payload : JS.JValue) (reg : Registry.Registry) (tracker : gmap Z string)
    (messages : list JS.JValue) :
  JS.getProp (JS.getProp (JS.getProp payload "data") "generateCopilotResponse") "messages"
  = JS.JArr messages ->
  JS.truthy (JS.getProp payload "incremental") = true ->
  JS.isArray (JS.getProp payload "incremental") = false ->
  Interpreter.processPayload payload (reg, tracker)
  = (Interpreter.Throw,
     (Registry.storeAll (List.filter Interpreter.hasTypenameAndId messages) reg,
      tracker)).
Proof.
  intros Hmessages Htruthy Harray. unfold Interpreter.processPayload.
  destruct (getProp_JArr_object _ _ _ Hmessages) as [rs Hrs].
  destruct (getProp_JObj_object _ _ _ Hrs) as [ds Hds].
  rewrite Hds. cbn [JS.truthy]. rewrite <- Hds, Htruthy.
  rewrite (processDataPayload_messages _ reg messages Hmessages).
  unfold Interpreter.processIncrementalPayload.
  destruct (JS.getProp payload "incremental"); try reflexivity. discriminate Harray.
Qed.

Lemma malformed_incremental_throws_after_snapshot_witness :
  let message := textMessage "m1" ["hi"] in
  let payload :=
    JS.JObj [("data", JS.JObj [("generateCopilotResponse",
                                JS.JObj [("messages", JS.JArr [message])])]);
             ("incremental", JS.JObj [])] in
  Interpreter.processPayload payload (Registry.emptyRegistry, ∅)
  = (Interpreter.Throw, (Registry.storeAll [message] Registry.emptyRegistry, ∅)).
Proof.
  intros message payload.
  exact (malformed_incremental_throws_after_snapshot payload Registry.emptyRegistry ∅
           [message] eq_refl eq_refl eq_refl).
Defined.

(** X11.  What no payload does: a sequence of payloads never changes the
    subscriber set, never removes or rewrites a call already in the
    trace (it only appends calls, each to a current subscriber), and
    never removes a position from the tracker. *)
Theorem payloads_leave_subscribers_trace_and_positions
    (st : Interpreter.State) (payloads : list JS.JValue) :
  let st' := afterPayloads st payloads in
  Registry.subscribers (fst st') = Registry.subscribers (fst st)
  /\ (exists new,
        Registry.calls (fst st') = Registry.calls (fst st) ++ new
        /\ Forall (fun ev => In (fst ev) (Registry.subscribers (fst st))) new)
  /\ forall k id, snd st !! k = Some id -> exists id', snd st' !! k = Some id'.
Proof.
  intros st'.
  destruct (preserved_afterPayloads
              (fun reg =>
                 Registry.subscribers reg = Registry.subscribers (fst st)
                 /\ exists new,
                      Registry.calls reg = Registry.calls (fst st) ++ new
                      /\ Forall (fun ev => In (fst ev) (Registry.subscribers (fst st)))
                           new)
              (fun message reg H =>
                 storeMessage_trace message reg _ _ H)
              payloads st) as [Hsubs Hcalls].
  { split; [reflexivity |]. exists []. split; [now rewrite app_nil_r | constructor]. }
  split; [exact Hsubs |]. split; [exact Hcalls |].
  intros k id Hk.
  apply (tracker_afterPayloads (fun tracker => exists id', tracker !! k = Some id')).
  - intros k' id'' tracker [id' H].
    destruct (decide (k' = k)) as [-> |Hne].
    + exists id''. apply lookup_insert_eq.
    + exists id'. now rewrite lookup_insert_ne.
  - eauto.
Qed.

(** ** The store under repeated and successive calls *)

Section StoreFacts.
Import JS Registry RegistryInvariants.

Section MapFacts.
Context {V : Type}.
Implicit Types (m : list (JValue * V)) (k : JValue) (v : V).

Lemma mapSet_present k v v' m :
  mapGet k m = Some v' -> map fst (mapSet k v m) = map fst m.
Proof.
  induction m as [|[k0 v0] m IH]; cbn [mapGet mapSet]; [discriminate |].
  destruct (JValue_eqb k0 k); cbn [map fst]; [reflexivity |].
  intros H. now rewrite IH.
Qed.

Lemma mapSet_absent k v m :
  mapGet k m = None -> mapSet k v m = m ++ [(k, v)].
Proof.
  induction m as [|[k0 v0] m IH]; cbn [mapGet mapSet app]; [reflexivity |].
  destruct (JValue_eqb k0 k); [discriminate |].
  intros H. now rewrite IH.
Qed.

Lemma mapGet_None_keys k m : mapGet k m = None -> ~ In k (map fst m).
Proof.
  induction m as [|[k0 v0] m IH]; cbn [mapGet map fst In]; [tauto |].
  destruct (JValue_eqb k0 k) eqn:E; [discriminate |].
  apply JValue_eqb_neq in E. intros H [Heq | Hin]; [congruence | now apply IH].
Qed.

Lemma mapSet_same_value k v m : mapGet k m = Some v -> mapSet k v m = m.
Proof.
  induction m as [|[k0 v0] m IH]; cbn [mapGet mapSet]; [discriminate |].
  destruct (JValue_eqb k0 k) eqn:E.
  - now intros [= ->].
  - intros H. now rewrite IH.
Qed.

Lemma mapSet_idempotent k v m : mapSet k v (mapSet k v m) = mapSet k v m.
Proof. apply mapSet_same_value, mapGet_mapSet_same. Qed.
End MapFacts.

Lemma setAdd_idempotent x s : setAdd x (setAdd x s) = setAdd x s.
Proof. unfold setAdd at 1. now rewrite setHas_setAdd_self. Qed.

Lemma storeMessage_byType_idempotent message reg :
  messagesByType (storeMessage message (storeMessage message reg))
  = messagesByType (storeMessage message reg).
Proof.
  set (reg1 := storeMessage message reg).
  pose proof (storeMessage_messagesByType message reg (getProp message "__typename"))
    as Hget.
  rewrite JValue_eqb_refl in Hget. fold reg1 in Hget.
  cbn [storeMessage messagesByType]. unfold mapHas.
  rewrite Hget, Hget, setAdd_idempotent.
  now apply mapSet_same_value.
Qed.

Lemma storeKeys_storeMessage message reg :
  exists added,
    storeKeys (storeMessage message reg) = storeKeys reg ++ added
    /\ (List.NoDup (storeKeys reg) -> List.NoDup (storeKeys (storeMessage message reg))).
Proof.
  unfold storeKeys. cbn [storeMessage messageStore].
  destruct (mapGet (getProp message "id") (messageStore reg)) as [old|] eqn:E.
  - exists []. rewrite (mapSet_present _ _ old) by assumption.
    rewrite app_nil_r. split; [reflexivity | auto].
  - exists [getProp message "id"]. rewrite mapSet_absent by assumption.
    rewrite List.map_app. split; [reflexivity |].
    intros Hnd. apply NoDup_snoc; [assumption | now apply mapGet_None_keys].
Qed.

Lemma wellKeyed_ids reg :
  wellKeyed reg ->
  map (fun message => getProp message "id") (getAllAguiMessages reg) = storeKeys reg.
Proof.
  unfold wellKeyed, getAllAguiMessages, mapValues, storeKeys.
  induction 1 as [|[k m] store Hkm _ IH]; [reflexivity |].
  cbn [map fst snd] in *. now rewrite Hkm, IH.
Qed.

Lemma indexedByType_storeMessage message reg :
  indexedByType reg -> indexedByType (storeMessage message reg).
Proof.
  intros Hidx key m Hget.
  cbn [storeMessage messageStore] in Hget. rewrite mapGet_mapSet in Hget.
  destruct (JValue_eqb (getProp message "id") key) eqn:E.
  - apply JValue_eqb_eq in E. injection Hget as <-. subst key.
    apply typeIndexHas_storeMessage_self.
  - apply typeIndexHas_storeMessage. now apply Hidx.
Qed.

Lemma indexedByType_empty : indexedByType emptyRegistry.
Proof. intros key m H. discriminate H. Qed.

End StoreFacts.

(** X12.  Storing a message again changes nothing but the trace: after a
    second [storeMessage] of the same message the store, the by-type
    index, the latest-by-name index and the subscriber set are exactly
    as after the first, and every subscriber has been called once
    more. *)
Theorem storeMessage_is_idempotent_on_the_store
    (message : JS.JValue) (reg : Registry.Registry) :
  let once := Registry.storeMessage message reg in
  let twice := Registry.storeMessage message once in
  Registry.messageStore twice = Registry.messageStore once
  /\ Registry.messagesByType twice = Registry.messagesByType once
  /\ Registry.actionExecutionMessages twice = Registry.actionExecutionMessages once
  /\ Registry.subscribers twice = Registry.subscribers once
  /\ Registry.calls twice
     = Registry.calls once
       ++ map (fun callback => (callback, message)) (Registry.subscribers reg).
Proof.
  intros once twice. split; [|split; [|split; [|split]]].
  - apply mapSet_idempotent.
  - apply storeMessage_byType_idempotent.
  - subst once twice.
    cbn [Registry.storeMessage Registry.actionExecutionMessages].
    destruct (JS.strictEq (JS.getProp message "__typename")
                Registry.ActionExecutionMessageOutput
              && JS.truthy (JS.getProp message "name")); [|reflexivity].
    apply mapSet_idempotent.
  - reflexivity.
  - reflexivity.
Qed.

(** X13.  The store never holds two records with the same id, and it
    lists messages in the order of their first arrival: from a store
    with distinct keys in which every record is filed under its own id,
    any sequence of payloads leaves the ids of [getAllAguiMessages]
    pairwise distinct, and the ids listed before the payloads are still
    listed first, in the same order. *)
Theorem store_ids_stay_distinct_and_ordered
    (st : Interpreter.State) (payloads : list JS.JValue) :
  List.NoDup (RegistryInvariants.storeKeys (fst st)) ->
  Registry.wellKeyed (fst st) ->
  let ids reg := map (fun message => JS.getProp message "id")
                   (Registry.getAllAguiMessages reg) in
  List.NoDup (ids (fst (afterPayloads st payloads)))
  /\ exists added, ids (fst (afterPayloads st payloads)) = ids (fst st) ++ added.
Proof.
  intros Hnd Hwf ids.
  assert (Hwf' : Registry.wellKeyed (fst (afterPayloads st payloads)))
    by (apply preserved_afterPayloads; [apply wellKeyed_storeMessage | assumption]).
  unfold ids. rewrite !wellKeyed_ids by assumption.
  apply (preserved_afterPayloads
           (fun reg =>
              List.NoDup (RegistryInvariants.storeKeys reg)
              /\ exists added,
                   RegistryInvariants.storeKeys reg
                   = RegistryInvariants.storeKeys (fst st) ++ added)).
  - intros message reg [Hnd' [added Hadded]].
    destruct (storeKeys_storeMessage message reg) as (more & Hmore & Hkeep).
    split; [now apply Hkeep |].
    exists (added ++ more). now rewrite Hmore, Hadded, app_assoc.
  - split; [assumption |]. exists []. now rewrite app_nil_r.
Qed.

Lemma store_ids_stay_distinct_and_ordered_witness :
  let st : Interpreter.State := (Registry.emptyRegistry, ∅) in
  let payloads :=
    [snapshotPayload [textMessage "m1" ["hi"]; textMessage "m2" ["ho"]];
     snapshotPayload [textMessage "m1" ["hi again"]]] in
  List.NoDup (map (fun message => JS.getProp message "id")
                (Registry.getAllAguiMessages (fst (afterPayloads st payloads)))).
Proof.
  intros st payloads.
  exact (proj1 (store_ids_stay_distinct_and_ordered st payloads
                  (List.NoDup_nil _) wellKeyed_empty)).
Defined.

(** X14.  Lookup after insert: after [storeMessage] of a message with a
    string id, [getAguiMessage] of that id returns the message and
    [getAguiMessage] of any other id returns what it returned before;
    for an id that the store does not hold it returns [null]. *)
Theorem getAguiMessage_after_storeMessage
    (message : JS.JValue) (reg : Registry.Registry) (id : string) :
  JS.getProp message "id" = JS.JStr id ->
  Registry.getAguiMessage id (Registry.storeMessage message reg) = message
  /\ (forall other,
        other <> id ->
        Registry.getAguiMessage other (Registry.storeMessage message reg)
        = Registry.getAguiMessage other reg)
  /\ (forall unknown,
        JS.mapGet (JS.JStr unknown) (Registry.messageStore reg) = None ->
        Registry.getAguiMessage unknown reg = JS.JNull).
Proof.
  intros Hid. unfold Registry.getAguiMessage. split; [|split].
  - rewrite <- Hid, storeMessage_get_same. cbn [Registry.orNull].
    destruct (getProp_defined message "id") as [ps ->]; [congruence | reflexivity].
  - intros other Hother. rewrite storeMessage_get_other; [reflexivity |].
    rewrite Hid. congruence.
  - intros unknown Hnone. now rewrite Hnone.
Qed.

Lemma getAguiMessage_after_storeMessage_witness :
  Registry.getAguiMessage "m1"
    (Registry.storeMessage (textMessage "m1" ["hi"]) Registry.emptyRegistry)
  = textMessage "m1" ["hi"].
Proof.
  exact (proj1 (getAguiMessage_after_storeMessage (textMessage "m1" ["hi"])
                  Registry.emptyRegistry "m1" eq_refl)).
Defined.

(** X15.  Every stored message is found through its typename: from a
    registry in which every record is in the id set of its typename
    (the empty registry is one), after any sequence of payloads, each
    record of the store with typename [T] is among the messages that
    [getAguiMessagesByType] returns for [T]. *)
Theorem stored_messages_are_found_by_type
    (st : Interpreter.State) (payloads : list JS.JValue)
    (key message : JS.JValue) (T : string) :
  RegistryInvariants.indexedByType (fst st) ->
  JS.mapGet key (Registry.messageStore (fst (afterPayloads st payloads))) = Some message ->
  JS.getProp message "__typename" = JS.JStr T ->
  In message (Registry.getAguiMessagesByType T (fst (afterPayloads st payloads))).
Proof.
  intros Hidx Hget HT.
  assert (Hidx' : RegistryInvariants.indexedByType (fst (afterPayloads st payloads)))
    by (apply preserved_afterPayloads;
        [apply indexedByType_storeMessage | assumption]).
  apply getAguiMessagesByType_In with (id := key).
  - rewrite <- HT. now apply Hidx'.
  - assumption.
  - destruct (getProp_defined message "__typename") as [ps ->];
      [congruence | reflexivity].
Qed.

Lemma stored_messages_are_found_by_type_witness :
  let st : Interpreter.State := (Registry.emptyRegistry, ∅) in
  let payloads := [snapshotPayload [textMessage "m1" ["hi"]; search1]] in
  In search1
    (Registry.getAguiMessagesByType "ActionExecutionMessageOutput"
       (fst (afterPayloads st payloads))).
Proof.
  intros st payloads.
  exact (stored_messages_are_found_by_type st payloads (JS.JStr "a1") search1
           "ActionExecutionMessageOutput" indexedByType_empty eq_refl eq_refl).
Defined.

(** ** Unsubscribing *)

Section UnsubscribeFacts.
Import JS Registry.

Lemma callsTo_app_round callback message reg subs :
  calls (storeMessage message reg) = calls reg ++ map (fun c => (c, message)) subs ->
  callsTo callback (storeMessage message reg)
  = callsTo callback reg
    ++ map snd (List.filter (fun ev : MessageSubscriber * JValue =>
                               Nat.eqb (fst ev) callback)
                  (map (fun c => (c, message)) subs)).
Proof.
  intros H. unfold callsTo. now rewrite H, List.filter_app, List.map_app.
Qed.

Lemma round_without callback message subs :
  map snd (List.filter (fun ev : MessageSubscriber * JValue => Nat.eqb (fst ev) callback)
             (map (fun c => (c, message))
                (List.filter (fun c => negb (Nat.eqb callback c)) subs)))
  = [].
Proof.
  induction subs as [|c subs IH]; [reflexivity |].
  cbn [List.filter]. destruct (Nat.eqb callback c) eqn:E; cbn [negb]; [exact IH |].
  cbn [map List.filter fst]. rewrite Nat.eqb_sym, E. exact IH.
Qed.

Lemma round_for_other callback other message subs :
  other <> callback ->
  List.filter (fun ev : MessageSubscriber * JValue => Nat.eqb (fst ev) other)
    (map (fun c => (c, message))
       (List.filter (fun c => negb (Nat.eqb callback c)) subs))
  = List.filter (fun ev : MessageSubscriber * JValue => Nat.eqb (fst ev) other)
      (map (fun c => (c, message)) subs).
Proof.
  intros Hne. induction subs as [|c subs IH]; [reflexivity |].
  cbn [List.filter map]. destruct (Nat.eqb callback c) eqn:E; cbn [negb].
  - apply Nat.eqb_eq in E. subst c. cbn [List.filter fst].
    apply Nat.eqb_neq in Hne. rewrite Nat.eqb_sym, Hne. exact IH.
  - cbn [map List.filter fst]. destruct (Nat.eqb c other); [now rewrite IH | exact IH].
Qed.

End UnsubscribeFacts.

(** X16.  After the function returned by [subscribeToAguiMessages] is
    called, the callback is no longer in the subscriber set and the next
    [storeMessage] makes no call to it, while every other subscriber is
    called as before; subscribing a callback that is already subscribed
    changes nothing, so it is still called once per message. *)
Theorem unsubscribe_stops_the_calls
    (reg : Registry.Registry) (callback : Registry.MessageSubscriber)
    (message : JS.JValue) :
  let removed := Registry.unsubscribe callback reg in
  ~ In callback (Registry.subscribers removed)
  /\ Registry.callsTo callback (Registry.storeMessage message removed)
     = Registry.callsTo callback reg
  /\ (forall other,
        other <> callback ->
        Registry.callsTo other (Registry.storeMessage message removed)
        = Registry.callsTo other (Registry.storeMessage message reg))
  /\ Registry.subscribeToAguiMessages callback
       (Registry.subscribeToAguiMessages callback reg)
     = Registry.subscribeToAguiMessages callback reg.
Proof.
  intros removed. split; [|split; [|split]].
  - cbn [removed Registry.unsubscribe Registry.subscribers].
    intros Hin. apply filter_In in Hin as [_ H].
    now rewrite Nat.eqb_refl in H.
  - rewrite (callsTo_app_round callback message removed
               (Registry.subscribers removed) eq_refl).
    cbn [removed Registry.unsubscribe Registry.subscribers].
    rewrite round_without. apply app_nil_r.
  - intros other Hother.
    rewrite (callsTo_app_round other message removed
               (Registry.subscribers removed) eq_refl).
    rewrite (callsTo_app_round other message reg (Registry.subscribers reg) eq_refl).
    cbn [removed Registry.unsubscribe Registry.subscribers].
    now rewrite round_for_other.
  - unfold Registry.subscribeToAguiMessages at 1.
    cbn [Registry.subscribers Registry.messageStore Registry.messagesByType
         Registry.actionExecutionMessages Registry.calls].
    replace (existsb (Nat.eqb callback)
               (Registry.subscribers (Registry.subscribeToAguiMessages callback reg)))
      with true; [reflexivity |].
    symmetry. apply existsb_eqb_In, subscribe_In.
Qed.

(** ** Reading the arguments of an action *)

Section ArgumentFacts.
Import JS Registry RegistryReads.

Variable JSON_parse : string -> option JValue.

Lemma getActionArguments_first message first rest :
  getProp message "__typename" = ActionExecutionMessageOutput ->
  getProp message "arguments" = JArr (JStr first :: rest) ->
  getActionArguments JSON_parse message
  = Returns (match JSON_parse first with Some parsed => parsed | None => JNull end).
Proof.
  intros Hty Hargs. unfold getActionArguments.
  destruct (getProp_defined message "__typename") as [ps ->];
    [rewrite Hty; discriminate |].
  unfold strictEq. rewrite Hty, JValue_eqb_refl, Hargs. cbn.
  now destruct (JSON_parse first).
Qed.

End ArgumentFacts.

(** X17.  [getActionArguments] on the result of
    [getLatestActionExecution] for a name under which no action has been
    stored throws (it reads a property of [null]).  On any other value
    it returns: [null] for a message that is not an action and for an
    action whose [arguments] is missing or empty, and otherwise the parse
    of the first element of [arguments] alone, or [null] when that parse
    fails; the elements after the first are never read. *)
Theorem getActionArguments_reads_first_segment_only
    (JSON_parse : string -> option JS.JValue) (reg : Registry.Registry) (name : string) :
  JS.mapGet (JS.JStr name) (Registry.actionExecutionMessages reg) = None ->
  RegistryReads.getActionArguments JSON_parse
    (Registry.getLatestActionExecution name reg) = RegistryReads.Throws
  /\ (forall message,
        message <> JS.JNull -> message <> JS.JUndefined ->
        exists value,
          RegistryReads.getActionArguments JSON_parse message
          = RegistryReads.Returns value)
  /\ (forall message,
        message <> JS.JNull -> message <> JS.JUndefined ->
        JS.getProp message "__typename" <> Registry.ActionExecutionMessageOutput ->
        RegistryReads.getActionArguments JSON_parse message
        = RegistryReads.Returns JS.JNull)
  /\ (forall message,
        JS.getProp message "__typename" = Registry.ActionExecutionMessageOutput ->
        JS.getProp message "arguments" = JS.JUndefined
        \/ JS.getProp message "arguments" = JS.JArr [] ->
        RegistryReads.getActionArguments JSON_parse message
        = RegistryReads.Returns JS.JNull)
  /\ (forall message first rest,
        JS.getProp message "__typename" = Registry.ActionExecutionMessageOutput ->
        JS.getProp message "arguments" = JS.JArr (JS.JStr first :: rest) ->
        RegistryReads.getActionArguments JSON_parse message
        = RegistryReads.Returns
            (match JSON_parse first with
             | Some parsed => parsed
             | None => JS.JNull
             end)).
Proof.
  intros Hnone. split; [|split; [|split; [|split]]].
  - unfold Registry.getLatestActionExecution. now rewrite Hnone.
  - intros message Hnull Hundef. unfold RegistryReads.getActionArguments.
    destruct message; try congruence;
      repeat match goal with
             | |- context [if ?b then _ else _] => destruct b
             | |- context [match ?x with _ => _ end] => destruct x
             end; eauto.
  - intros message Hnull Hundef Hty. apply JValue_eqb_neq in Hty.
    destruct message; try congruence; try reflexivity.
    unfold RegistryReads.getActionArguments, JS.strictEq. now rewrite Hty.
  - intros message Hty Hargs. unfold RegistryReads.getActionArguments.
    destruct (getProp_defined message "__typename") as [ps ->];
      [rewrite Hty; discriminate |].
    unfold JS.strictEq. rewrite Hty, JValue_eqb_refl.
    destruct Hargs as [-> | ->]; reflexivity.
  - intros message first rest. apply getActionArguments_first.
Qed.

Lemma getActionArguments_reads_first_segment_only_witness :
  let parse (text : string) : option JS.JValue :=
    if String.eqb text "{}" then Some (JS.JObj []) else None in
  RegistryReads.getActionArguments parse
    (Registry.getLatestActionExecution "ask_user_question" Registry.emptyRegistry)
  = RegistryReads.Throws.
Proof.
  intros parse.
  exact (proj1 (getActionArguments_reads_first_segment_only parse
                  Registry.emptyRegistry "ask_user_question" eq_refl)).
Defined.

Section StreamedArguments.
Import JS Registry Interpreter.

Lemma three_array_patches reg (tracker : gmap Z string) prefix index id field ps
    s0 s1 s2 :
  findMessagesIndex prefix = None ->
  field = "content" \/ field = "arguments" ->
  tracker !! index = Some id ->
  id <> "" ->
  mapGet (JStr id) (messageStore reg) = Some (JObj ps) ->
  getProp (JObj ps) "id" = JStr id ->
  getProp (JObj ps) field = JUndefined \/ getProp (JObj ps) field = JArr [] ->
  let patch position segment :=
    incrementalPayload (arrayFieldEntry prefix index field position segment) in
  exists reg3 ps3,
    afterPayload (afterPayload (afterPayload (reg, tracker) (patch 0 s0)) (patch 1 s1))
      (patch 2 s2)
    = (reg3, tracker)
    /\ mapGet (JStr id) (messageStore reg3) = Some (JObj ps3)
    /\ getProp (JObj ps3) field = JArr [JStr s0; JStr s1; JStr s2]
    /\ forall key, key <> field -> getProp (JObj ps3) key = getProp (JObj ps) key.
Proof.
  intros Hprefix Hfield Hid Hne Hcur Hcurid Hempty patch.
  destruct (array_patch_step_result reg tracker prefix index field 0 s0 id ps)
    as (reg1 & ps1 & Hrun1 & Hget1 & Hid1 & Hfield1 & Hother1); try assumption.
  destruct (array_patch_step_result reg1 tracker prefix index field 1 s1 id ps1)
    as (reg2 & ps2 & Hrun2 & Hget2 & Hid2 & Hfield2 & Hother2); try assumption.
  destruct (array_patch_step_result reg2 tracker prefix index field 2 s2 id ps2)
    as (reg3 & ps3 & Hrun3 & Hget3 & Hid3 & Hfield3 & Hother3); try assumption.
  exists reg3, ps3. unfold patch. rewrite Hrun1, Hrun2, Hrun3.
  split; [reflexivity |]. split; [exact Hget3 |]. split.
  - rewrite Hfield3, Hfield2, Hfield1. destruct Hempty as [-> | ->]; reflexivity.
  - intros key Hkey. now rewrite Hother3, Hother2, Hother1.
Qed.

End StreamedArguments.

(** X18.  Arguments streamed in segments are read by their first segment:
    after three array-field patches have written the strings [s0], [s1]
    and [s2] at positions 0, 1 and 2 of the [arguments] of a stored
    action, [getActionArguments] on the stored record returns the parse
    of [s0] alone ([null] if [s0] alone does not parse). *)
Theorem streamed_arguments_are_read_by_first_segment
    (JSON_parse : string -> option JS.JValue)
    (reg : Registry.Registry) (tracker : gmap Z string) (prefix : list JS.JValue)
    (index : Z) (id : string) (current : JS.JValue) (s0 s1 s2 : string) :
  Interpreter.findMessagesIndex prefix = None ->
  tracker !! index = Some id ->
  id <> "" ->
  JS.mapGet (JS.JStr id) (Registry.messageStore reg) = Some current ->
  JS.getProp current "id" = JS.JStr id ->
  JS.getProp current "__typename" = Registry.ActionExecutionMessageOutput ->
  JS.getProp current "arguments" = JS.JArr [] ->
  let patch position segment :=
    incrementalPayload (arrayFieldEntry prefix index "arguments" position segment) in
  let final :=
    afterPayload (afterPayload (afterPayload (reg, tracker) (patch 0 s0)) (patch 1 s1))
      (patch 2 s2) in
  exists message,
    JS.mapGet (JS.JStr id) (Registry.messageStore (fst final)) = Some message
    /\ JS.getProp message "arguments" = JS.JArr [JS.JStr s0; JS.JStr s1; JS.JStr s2]
    /\ RegistryReads.getActionArguments JSON_parse message
       = RegistryReads.Returns
           (match JSON_parse s0 with
            | Some parsed => parsed
            | None => JS.JNull
            end).
Proof.
  intros Hprefix Hid Hne Hcur Hcurid Hty Hargs patch final.
  destruct (getProp_defined current "id") as [ps ->]; [congruence |].
  destruct (three_array_patches reg tracker prefix index id "arguments" ps s0 s1 s2)
    as (reg3 & ps3 & Hrun & Hget & Hfield & Hother); auto.
  unfold final, patch. rewrite Hrun. cbn [fst].
  exists (JS.JObj ps3). split; [exact Hget |]. split; [exact Hfield |].
  apply getActionArguments_first with (rest := [JS.JStr s1; JS.JStr s2]).
  - rewrite Hother by discriminate. exact Hty.
  - exact Hfield.
Qed.

Lemma streamed_arguments_are_read_by_first_segment_witness :
  let parse (text : string) : option JS.JValue :=
    if String.eqb text "{}" then Some (JS.JObj []) else None in
  let action := actionMessage "a1" "search" "2024-01-01T00:00:01.000Z" in
  let reg := Registry.storeMessage action Registry.emptyRegistry in
  let tracker : gmap Z string := <[0 := "a1"]> ∅ in
  let patch position segment :=
    incrementalPayload
      (arrayFieldEntry [JS.JStr "generateCopilotResponse"] 0 "arguments" position segment) in
  let final :=
    afterPayload (afterPayload (afterPayload (reg, tracker) (patch 0 "{}")) (patch 1 "x"))
      (patch 2 "y") in
  exists message,
    JS.mapGet (JS.JStr "a1") (Registry.messageStore (fst final)) = Some message
    /\ JS.getProp message "arguments" = JS.JArr [JS.JStr "{}"; JS.JStr "x"; JS.JStr "y"]
    /\ RegistryReads.getActionArguments parse message = RegistryReads.Returns (JS.JObj []).
Proof.
  intros parse action reg tracker patch final.
  assert (Hne : "a1" <> "") by discriminate.
  exact (streamed_arguments_are_read_by_first_segment parse reg tracker
           [JS.JStr "generateCopilotResponse"] 0 "a1" action "{}" "x" "y"
           eq_refl (lookup_insert_eq _ _ _) Hne eq_refl eq_refl eq_refl eq_refl).
Defined.

(** ** The hook *)

Section HookFacts.
Import JS Registry Interpreter Hook.

Variable JSON_parse : string -> option JValue.

Lemma processChunks_app a b ctx :
  processChunks JSON_parse (a ++ b) ctx
  = processChunks JSON_parse b (processChunks JSON_parse a ctx).
Proof. unfold processChunks. apply fold_left_app. Qed.

(** The callback when the record has nothing new. *)
Lemma onRecord_nothing_new record hook reg :
  (length (Logger.chunks record)
   <= default 0%nat (processedChunkCounts hook !! Logger.id record))%nat ->
  onRecord JSON_parse record (hook, reg)
  = if Logger.completed record
    then ({| processedChunkCounts :=
               delete (Logger.id record) (processedChunkCounts hook);
             messageTrackers := delete (Logger.id record) (messageTrackers hook);
             parserStates := parserStates hook |}, reg)
    else (hook, reg).
Proof.
  intros H. unfold onRecord. apply Nat.leb_le in H. now rewrite H.
Qed.

(** The callback when the record has new chunks: they are processed from
    the stream's tracker and parser state (fresh ones for a new stream),
    and the maps are updated, or cleared of the stream on completion. *)
Lemma onRecord_new_chunks record hook reg :
  (default 0%nat (processedChunkCounts hook !! Logger.id record)
   < length (Logger.chunks record))%nat ->
  let recordId := Logger.id record in
  let result :=
    processChunks JSON_parse
      (drop (default 0%nat (processedChunkCounts hook !! recordId))
         (Logger.chunks record))
      ((reg, default ∅ (messageTrackers hook !! recordId)),
       default Extractor.initialParserState (parserStates hook !! recordId)) in
  onRecord JSON_parse record (hook, reg)
  = if Logger.completed record
    then ({| processedChunkCounts := delete recordId (processedChunkCounts hook);
             messageTrackers := delete recordId (messageTrackers hook);
             parserStates := delete recordId (parserStates hook) |},
          fst (fst result))
    else ({| processedChunkCounts :=
               <[recordId := length (Logger.chunks record)]> (processedChunkCounts hook);
             messageTrackers := <[recordId := snd (fst result)]> (messageTrackers hook);
             parserStates := <[recordId := snd result]> (parserStates hook) |},
          fst (fst result)).
Proof.
  intros H recordId result. unfold onRecord. fold recordId.
  apply Nat.leb_gt in H. fold recordId in H. rewrite H.
  unfold getTracker, Extractor.getParserState. subst result.
  destruct (messageTrackers hook !! recordId) as [tracker|] eqn:Ht;
    destruct (parserStates hook !! recordId) as [parser|] eqn:Hp;
    unfold default, from_option, Datatypes.id;
    match goal with
    | |- context [processChunks JSON_parse ?l ?c] =>
        destruct (processChunks JSON_parse l c) as [[reg' tracker'] parser']
    end;
    cbn [fst snd]; destruct (Logger.completed record);
    rewrite ?delete_insert_eq, ?insert_insert_eq; reflexivity.
Qed.

End HookFacts.

Section HookDelivery.
Import JS Registry Interpreter Hook.

Variable JSON_parse : string -> option JValue.

Lemma default_Some {A} (d x : A) : default d (Some x) = x.
Proof. reflexivity. Qed.

(** A record delivered after an earlier, unfinished version of itself:
    the registry is as if only the later version had been delivered, and
    so are the maps unless the later version is a completion without a
    new chunk. *)
Lemma onRecord_after_earlier r1 r2 more st :
  Logger.id r2 = Logger.id r1 ->
  Logger.chunks r2 = Logger.chunks r1 ++ more ->
  Logger.completed r1 = false ->
  snd (onRecord JSON_parse r2 (onRecord JSON_parse r1 st))
  = snd (onRecord JSON_parse r2 st)
  /\ (Logger.completed r2 = false \/ more <> [] ->
      onRecord JSON_parse r2 (onRecord JSON_parse r1 st) = onRecord JSON_parse r2 st).
Proof.
  intros Hid Hchunks Hopen. destruct st as [hook reg].
  set (n := default 0%nat (processedChunkCounts hook !! Logger.id r1)).
  destruct (Nat.le_gt_cases (length (Logger.chunks r1)) n) as [Hle | Hgt].
  { rewrite (onRecord_nothing_new JSON_parse r1) by exact Hle.
    rewrite Hopen. split; [reflexivity | auto]. }
  rewrite (onRecord_new_chunks JSON_parse r1 hook reg Hgt). rewrite Hopen.
  cbv zeta. fold n.
  set (result1 := processChunks JSON_parse (drop n (Logger.chunks r1))
                    ((reg, default ∅ (messageTrackers hook !! Logger.id r1)),
                     default Extractor.initialParserState
                       (parserStates hook !! Logger.id r1))).
  destruct more as [|chunk more].
  - rewrite app_nil_r in Hchunks.
    rewrite (onRecord_nothing_new JSON_parse r2).
    2:{ cbn [processedChunkCounts]. rewrite Hid, lookup_insert_eq, Hchunks.
        cbn [default]. unfold from_option, Datatypes.id. apply Nat.le_refl. }
    rewrite (onRecord_new_chunks JSON_parse r2 hook reg).
    2:{ rewrite Hid, Hchunks. exact Hgt. }
    cbv zeta. rewrite Hid, Hchunks. fold n. fold result1.
    destruct (Logger.completed r2); cbn [snd].
    + split; [reflexivity |]. intros [H | H]; congruence.
    + split; reflexivity.
  - assert (Hlen : (length (Logger.chunks r1) < length (Logger.chunks r2))%nat).
    { rewrite Hchunks, length_app. cbn [length]. clear. lia. }
    rewrite (onRecord_new_chunks JSON_parse r2).
    2:{ cbn [processedChunkCounts]. rewrite Hid, lookup_insert_eq.
        unfold default, from_option, Datatypes.id. exact Hlen. }
    rewrite (onRecord_new_chunks JSON_parse r2 hook reg).
    2:{ rewrite Hid. fold n. clearbody n result1. lia. }
    cbv zeta. cbn [processedChunkCounts messageTrackers parserStates].
    rewrite Hid, !lookup_insert_eq, !default_Some.
    fold n. rewrite Hchunks, drop_app_length.
    rewrite (drop_app_le (Logger.chunks r1)) by (apply Nat.lt_le_incl, Hgt).
    rewrite processChunks_app. fold result1.
    replace ((fst (fst result1), snd (fst result1)), snd result1) with result1
      by (now destruct result1 as [[? ?] ?]).
    rewrite !delete_insert_eq, !insert_insert_eq.
    split; [now destruct (Logger.completed r2) | reflexivity].
Qed.

End HookDelivery.

(** ** The raw response logger *)

Section LoggerFacts.
Import JS Logger Delivery.

Lemma updateRecord_unknown recordId updater st :
  getRawResponse recordId st = None ->
  updateRecord recordId updater st = (None, st).
Proof. unfold getRawResponse, updateRecord. now intros ->. Qed.

Lemma updateRecord_known recordId updater st current :
  getRawResponse recordId st = Some current ->
  updateRecord recordId updater st
  = (Some (updater current),
     notify (updater current)
       {| rawResponseStore :=
            mapSet (JStr recordId) (updater current) (rawResponseStore st);
          rawResponseSubscribers := rawResponseSubscribers st;
          notifications := notifications st |}).
Proof. unfold getRawResponse, updateRecord. now intros ->. Qed.

Lemma readStream_unknown recordId events st :
  getRawResponse recordId st = None -> readStream recordId events st = st.
Proof.
  intros H.
  induction events as [|[text now|now|message now] rest IH];
    cbn [readStream]; unfold appendChunk;
    rewrite ?updateRecord_unknown by exact H; cbn [snd]; auto.
Qed.

Lemma getRawResponse_updateRecord recordId updater st current :
  getRawResponse recordId st = Some current ->
  getRawResponse recordId (snd (updateRecord recordId updater st))
  = Some (updater current).
Proof.
  intros H. rewrite (updateRecord_known _ _ _ _ H).
  unfold getRawResponse, notify. cbn [snd rawResponseStore].
  apply mapGet_mapSet_same.
Qed.

Lemma subscribers_updateRecord recordId updater st :
  rawResponseSubscribers (snd (updateRecord recordId updater st))
  = rawResponseSubscribers st.
Proof.
  unfold updateRecord.
  now destruct (mapGet (JStr recordId) (rawResponseStore st)).
Qed.

Lemma readStream_stored recordId events :
  forall st current,
    getRawResponse recordId st = Some current ->
    getRawResponse recordId (readStream recordId events st)
    = Some (finalRecord recordId current events).
Proof.
  induction events as [|[text now|now|message now] rest IH]; intros st current H;
    cbn [readStream finalRecord].
  - exact H.
  - apply IH. unfold appendChunk. now apply getRawResponse_updateRecord.
  - now apply getRawResponse_updateRecord.
  - now apply getRawResponse_updateRecord.
Qed.

Lemma finalRecord_id recordId events :
  forall current, id (finalRecord recordId current events) = id current.
Proof.
  induction events as [|[text now|now|message now] rest IH]; intros current;
    cbn [finalRecord]; [reflexivity | now rewrite IH | reflexivity | reflexivity].
Qed.

Lemma finalRecord_completed recordId events :
  forall current,
    completed (finalRecord recordId current events)
    = completed current || terminated events.
Proof.
  induction events as [|[text now|now|message now] rest IH]; intros current;
    cbn [finalRecord terminated].
  - now rewrite orb_false_r.
  - now rewrite IH.
  - cbn [completed withCompletion]. now rewrite orb_true_r.
  - cbn [completed withFailure]. now rewrite orb_true_r.
Qed.

Lemma finalRecord_texts recordId events :
  forall current,
    map text (chunks (finalRecord recordId current events))
    = map text (chunks current) ++ readTexts events.
Proof.
  induction events as [|[text0 now|now|message now] rest IH]; intros current;
    cbn [finalRecord readTexts].
  - now rewrite app_nil_r.
  - rewrite IH. cbn [chunks withChunk]. rewrite List.map_app. cbn [map text].
    now rewrite <- app_assoc.
  - cbn [chunks withCompletion]. now rewrite app_nil_r.
  - cbn [chunks withFailure]. now rewrite app_nil_r.
Qed.

Lemma finalRecord_chunkIds recordId events :
  forall current,
    map chunkId (chunks (finalRecord recordId current events))
    = map chunkId (chunks current)
      ++ map (nextChunkId recordId)
           (seq (length (chunks current)) (length (readTexts events))).
Proof.
  induction events as [|[text0 now|now|message now] rest IH]; intros current;
    cbn [finalRecord readTexts length seq map].
  - now rewrite app_nil_r.
  - rewrite IH. cbn [chunks withChunk]. rewrite List.map_app, length_app.
    cbn [map chunkId length]. rewrite Nat.add_1_r. now rewrite <- app_assoc.
  - cbn [chunks withCompletion]. now rewrite app_nil_r.
  - cbn [chunks withFailure]. now rewrite app_nil_r.
Qed.

Lemma append_inj_r (a b c : string) : a +:+ b = a +:+ c -> b = c.
Proof.
  induction a as [|x a IH]; rewrite ?append_nil_l, ?append_cons; [auto |].
  intros [= H]. auto.
Qed.

Lemma indexKey_inj (i j : nat) : indexKey i = indexKey j -> i = j.
Proof.
  unfold indexKey. intros H.
  apply DecimalNat.Unsigned.to_uint_inj.
  assert (Hs : Some (Nat.to_uint i) = Some (Nat.to_uint j))
    by (rewrite <- !NilEmpty.usu; now rewrite H).
  now injection Hs.
Qed.

Lemma nextChunkId_inj recordId (i j : nat) :
  nextChunkId recordId i = nextChunkId recordId j -> i = j.
Proof.
  unfold nextChunkId. intros H.
  apply append_inj_r in H. apply append_inj_r in H. now apply indexKey_inj.
Qed.

Lemma NoDup_map_inj {A B} (f : A -> B) (l : list A) :
  (forall x y, f x = f y -> x = y) -> List.NoDup l -> List.NoDup (map f l).
Proof.
  intros Hinj H. induction H as [|x l Hx Hl IH]; cbn [map]; constructor; auto.
  intros Hin. apply in_map_iff in Hin as [y [Hy Hiny]].
  apply Hinj in Hy. now subst.
Qed.

Lemma subscribed_once (callback : RawResponseSubscriber) subscribers :
  In callback subscribers -> List.NoDup subscribers ->
  List.filter (fun c => Nat.eqb c callback) subscribers = [callback].
Proof.
  intros Hin Hnd. induction Hnd as [|c l Hc Hl IH]; [destruct Hin |].
  cbn [List.filter]. destruct (Nat.eqb c callback) eqn:E.
  - apply Nat.eqb_eq in E. subst c. f_equal.
    clear IH Hin. induction l as [|d l IHl]; [reflexivity |].
    cbn [List.filter]. destruct (Nat.eqb d callback) eqn:E.
    + apply Nat.eqb_eq in E. subst d. exfalso. apply Hc. now left.
    + apply IHl.
      * intros H. apply Hc. now right.
      * now inversion Hl.
  - apply Nat.eqb_neq in E. destruct Hin as [-> | Hin]; [congruence | auto].
Qed.

Lemma deliveredTo_notify callback record st :
  In callback (rawResponseSubscribers st) ->
  List.NoDup (rawResponseSubscribers st) ->
  deliveredTo callback (notify record st) = deliveredTo callback st ++ [record].
Proof.
  intros Hin Hnd. unfold deliveredTo, notify. cbn [notifications].
  rewrite List.filter_app, List.map_app. f_equal.
  transitivity (map (fun _ : RawResponseSubscriber => record)
                  (List.filter (fun c => Nat.eqb c callback)
                     (rawResponseSubscribers st))).
  - clear. induction (rawResponseSubscribers st) as [|c l IH]; [reflexivity |].
    cbn [map List.filter fst]. destruct (Nat.eqb c callback); cbn [map snd];
      now rewrite IH.
  - now rewrite subscribed_once.
Qed.

Lemma deliveredTo_updateRecord callback recordId updater st current :
  In callback (rawResponseSubscribers st) ->
  List.NoDup (rawResponseSubscribers st) ->
  getRawResponse recordId st = Some current ->
  deliveredTo callback (snd (updateRecord recordId updater st))
  = deliveredTo callback st ++ [updater current].
Proof.
  intros Hin Hnd H. rewrite (updateRecord_known _ _ _ _ H). cbn [snd].
  now rewrite deliveredTo_notify.
Qed.

Lemma deliveredTo_readStream callback recordId events :
  forall st current,
    In callback (rawResponseSubscribers st) ->
    List.NoDup (rawResponseSubscribers st) ->
    getRawResponse recordId st = Some current ->
    deliveredTo callback (readStream recordId events st)
    = deliveredTo callback st ++ streamRecords recordId current events.
Proof.
  induction events as [|[text0 now|now|message now] rest IH];
    intros st current Hin Hnd H; cbn [readStream streamRecords].
  - now rewrite app_nil_r.
  - unfold appendChunk.
    rewrite (IH _ (withChunk recordId text0 now current)).
    + rewrite (deliveredTo_updateRecord _ _ _ _ current) by assumption.
      now rewrite <- app_assoc.
    + now rewrite subscribers_updateRecord.
    + now rewrite subscribers_updateRecord.
    + now apply getRawResponse_updateRecord.
  - now apply deliveredTo_updateRecord.
  - now apply deliveredTo_updateRecord.
Qed.

Lemma getRawResponse_createRecord recordId now url method requestBody st :
  getRawResponse recordId (createRecord recordId now url method requestBody st)
  = Some (createdRecord recordId now url method requestBody).
Proof.
  unfold getRawResponse, createRecord, notify. cbn [rawResponseStore].
  apply mapGet_mapSet_same.
Qed.

Lemma getRawResponse_answered recordId now url method requestBody code reason st :
  getRawResponse recordId
    (snd (updateRecord recordId (withStatus code reason)
            (createRecord recordId now url method requestBody st)))
  = Some (withStatus code reason
            (createdRecord recordId now url method requestBody)).
Proof. apply getRawResponse_updateRecord, getRawResponse_createRecord. Qed.

Lemma loggedFetch_stored recordId now url method requestBody code reason events st :
  getRawResponse recordId
    (loggedFetch recordId now url method requestBody code reason events st)
  = Some (finalRecord recordId
            (withStatus code reason
               (createdRecord recordId now url method requestBody)) events).
Proof. apply readStream_stored, getRawResponse_answered. Qed.

Lemma deliveredTo_loggedFetch callback recordId now url method requestBody code
    reason events st :
  In callback (rawResponseSubscribers st) ->
  List.NoDup (rawResponseSubscribers st) ->
  deliveredTo callback
    (loggedFetch recordId now url method requestBody code reason events st)
  = deliveredTo callback st
    ++ fetchRecords recordId now url method requestBody code reason events.
Proof.
  intros Hin Hnd. unfold loggedFetch, fetchRecords. cbv zeta.
  set (created := createdRecord recordId now url method requestBody).
  rewrite (deliveredTo_readStream callback recordId events _
             (withStatus code reason created)).
  - rewrite (deliveredTo_updateRecord callback recordId _ _ created).
    + unfold createRecord. fold created.
      rewrite deliveredTo_notify by assumption.
      unfold deliveredTo at 1. cbn [notifications].
      fold (deliveredTo callback st).
      now rewrite <- !app_assoc.
    + exact Hin.
    + exact Hnd.
    + apply getRawResponse_createRecord.
  - rewrite subscribers_updateRecord. exact Hin.
  - rewrite subscribers_updateRecord. exact Hnd.
  - apply getRawResponse_answered.
Qed.

Lemma subscribeToRawResponses_NoDup callback st :
  List.NoDup (rawResponseSubscribers st) ->
  List.NoDup (rawResponseSubscribers (subscribeToRawResponses callback st)).
Proof.
  intros H. unfold subscribeToRawResponses. cbn [rawResponseSubscribers].
  destruct (existsb (Nat.eqb callback) (rawResponseSubscribers st)) eqn:E;
    [exact H |].
  apply NoDup_snoc; [exact H |].
  intros Hin. assert (existsb (Nat.eqb callback) (rawResponseSubscribers st) = true).
  { apply existsb_exists. exists callback. split; [exact Hin | apply Nat.eqb_refl]. }
  congruence.
Qed.

End LoggerFacts.

(** ** From the logger to the registry *)

Section HookFlow.
Import JS Registry Interpreter Hook Delivery.

Variable JSON_parse : string -> option JValue.

Lemma replay_cons record records st :
  replay JSON_parse (record :: records) st
  = replay JSON_parse records (onRecord JSON_parse record st).
Proof. reflexivity. Qed.

(** The chunks of a record processed as one text. *)
Lemma processChunks_texts records_chunks :
  forall ctx,
    processChunks JSON_parse records_chunks ctx
    = processChunk JSON_parse
        (Extractor.joinChunks (map Logger.text records_chunks)) ctx.
Proof.
  intros ctx. rewrite <- processChunk_join. unfold processChunks.
  revert ctx. induction records_chunks as [|chunk rest IH]; intros ctx;
    cbn [map fold_left]; [reflexivity | apply IH].
Qed.

(** The callback on a record that the hook has not seen. *)
Lemma onRecord_unseen record hook reg :
  unseen (Logger.id record) hook ->
  let result :=
    processChunk JSON_parse
      (Extractor.joinChunks (map Logger.text (Logger.chunks record)))
      ((reg, ∅), Extractor.initialParserState) in
  onRecord JSON_parse record (hook, reg)
  = match Logger.chunks record with
    | [] =>
        if Logger.completed record
        then ({| processedChunkCounts :=
                   delete (Logger.id record) (processedChunkCounts hook);
                 messageTrackers := delete (Logger.id record) (messageTrackers hook);
                 parserStates := parserStates hook |}, reg)
        else (hook, reg)
    | _ :: _ =>
        if Logger.completed record
        then ({| processedChunkCounts :=
                   delete (Logger.id record) (processedChunkCounts hook);
                 messageTrackers := delete (Logger.id record) (messageTrackers hook);
                 parserStates := delete (Logger.id record) (parserStates hook) |},
              fst (fst result))
        else ({| processedChunkCounts :=
                   <[Logger.id record := length (Logger.chunks record)]>
                     (processedChunkCounts hook);
                 messageTrackers :=
                   <[Logger.id record := snd (fst result)]> (messageTrackers hook);
                 parserStates :=
                   <[Logger.id record := snd result]> (parserStates hook) |},
              fst (fst result))
    end.
Proof.
  intros (Hcount & Htracker & Hparser) result.
  destruct (Logger.chunks record) as [|chunk rest] eqn:Hchunks.
  - rewrite onRecord_nothing_new; [reflexivity |].
    rewrite Hchunks. apply Nat.le_0_l.
  - rewrite onRecord_new_chunks.
    + cbv zeta. rewrite Hcount, Htracker, Hparser.
      change (default 0%nat None) with 0%nat.
      change (default (∅ : gmap Z string) None) with (∅ : gmap Z string).
      change (default Extractor.initialParserState None)
        with Extractor.initialParserState.
      rewrite drop_0, processChunks_texts, Hchunks. reflexivity.
    + rewrite Hcount, Hchunks. cbn [length]. apply Nat.lt_0_succ.
Qed.

(** The registry after a record that the hook has not seen. *)
Lemma onRecord_unseen_registry record hook reg :
  unseen (Logger.id record) hook ->
  snd (onRecord JSON_parse record (hook, reg))
  = fst (fst (processChunk JSON_parse
                (Extractor.joinChunks (map Logger.text (Logger.chunks record)))
                ((reg, ∅), Extractor.initialParserState))).
Proof.
  intros H. rewrite (onRecord_unseen record hook reg H). cbv zeta.
  destruct (Logger.chunks record) as [|chunk rest].
  - cbn [map Extractor.joinChunks fold_right]. rewrite processChunk_empty.
    now destruct (Logger.completed record).
  - now destruct (Logger.completed record).
Qed.

(** A record without chunks that is not complete is passed over. *)
Lemma onRecord_created recordId now url method requestBody st :
  onRecord JSON_parse (createdRecord recordId now url method requestBody) st = st.
Proof.
  destruct st as [hook reg].
  rewrite onRecord_nothing_new; [reflexivity | apply Nat.le_0_l].
Qed.

(** The versions of a record delivered after the record itself are
    absorbed by the last of them. *)
Lemma replay_stream_registry recordId events st0 :
  forall current,
    Logger.completed current = false ->
    snd (replay JSON_parse (streamRecords recordId current events)
           (onRecord JSON_parse current st0))
    = snd (onRecord JSON_parse (finalRecord recordId current events) st0).
Proof.
  induction events as [|[text now|now|message now] rest IH]; intros current Hopen;
    cbn [streamRecords finalRecord].
  - reflexivity.
  - rewrite replay_cons.
    destruct (onRecord_after_earlier JSON_parse current
                (Logger.withChunk recordId text now current)
                [Logger.mkChunk
                   (Logger.nextChunkId recordId (length (Logger.chunks current)))
                   text now] st0 eq_refl eq_refl Hopen) as [_ Hfull].
    rewrite Hfull by (right; discriminate).
    apply IH. exact Hopen.
  - apply (onRecord_after_earlier JSON_parse current
             (Logger.withCompletion now current) [] st0 eq_refl);
      [symmetry; apply app_nil_r | exact Hopen].
  - apply (onRecord_after_earlier JSON_parse current
             (Logger.withFailure now message current) [] st0 eq_refl);
      [symmetry; apply app_nil_r | exact Hopen].
Qed.

(** The maps of the hook once a stream has ended. *)
Lemma replay_stream_closed recordId events hook reg :
  forall current,
    Logger.id current = recordId ->
    Logger.completed current = false ->
    unseen recordId hook ->
    terminated events = true ->
    let final := finalRecord recordId current events in
    let hook' :=
      fst (replay JSON_parse (streamRecords recordId current events)
             (onRecord JSON_parse current (hook, reg))) in
    processedChunkCounts hook' !! recordId = None
    /\ messageTrackers hook' !! recordId = None
    /\ parserStates hook' !! recordId
       = match Logger.chunks final with
         | [] => None
         | _ :: _ =>
             Some (snd (processChunk JSON_parse
                          (Extractor.joinChunks
                             (map Logger.text (Logger.chunks final)))
                          ((reg, ∅), Extractor.initialParserState)))
         end.
Proof.
  induction events as [|[text now|now|message now] rest IH];
    intros current Hid Hopen Hunseen Hend; cbn [terminated] in Hend;
    [discriminate | | |]; cbn [streamRecords finalRecord].
  - rewrite replay_cons.
    destruct (onRecord_after_earlier JSON_parse current
                (Logger.withChunk recordId text now current)
                [Logger.mkChunk
                   (Logger.nextChunkId recordId (length (Logger.chunks current)))
                   text now] (hook, reg) eq_refl eq_refl Hopen) as [_ Hfull].
    rewrite Hfull by (right; discriminate).
    apply IH; [exact Hid | exact Hopen | exact Hunseen | exact Hend].
  - cbv zeta. unfold replay. cbn [fold_left Logger.chunks Logger.withCompletion].
    assert (Hunseen' : unseen (Logger.id current) hook) by now rewrite Hid.
    rewrite (onRecord_unseen current hook reg Hunseen'). cbv zeta.
    rewrite Hopen, Hid.
    destruct Hunseen as (Hcount & Htracker & Hparser).
    destruct (Logger.chunks current) as [|chunk more] eqn:Hchunks.
    + rewrite onRecord_nothing_new.
      2:{ cbn [Logger.chunks Logger.withCompletion]. rewrite Hchunks.
          apply Nat.le_0_l. }
      cbn [Logger.completed Logger.withCompletion Logger.id fst
           processedChunkCounts messageTrackers parserStates].
      rewrite Hid, !lookup_delete_eq. auto.
    + rewrite onRecord_nothing_new.
      2:{ cbn [Logger.chunks Logger.withCompletion Logger.id processedChunkCounts].
          rewrite Hid, lookup_insert_eq, default_Some, Hchunks. apply Nat.le_refl. }
      cbn [Logger.completed Logger.withCompletion Logger.id fst
           processedChunkCounts messageTrackers parserStates].
      rewrite Hid, !lookup_delete_eq, lookup_insert_eq. auto.
  - cbv zeta. unfold replay. cbn [fold_left Logger.chunks Logger.withFailure].
    assert (Hunseen' : unseen (Logger.id current) hook) by now rewrite Hid.
    rewrite (onRecord_unseen current hook reg Hunseen'). cbv zeta.
    rewrite Hopen, Hid.
    destruct Hunseen as (Hcount & Htracker & Hparser).
    destruct (Logger.chunks current) as [|chunk more] eqn:Hchunks.
    + rewrite onRecord_nothing_new.
      2:{ cbn [Logger.chunks Logger.withFailure]. rewrite Hchunks.
          apply Nat.le_0_l. }
      cbn [Logger.completed Logger.withFailure Logger.id fst
           processedChunkCounts messageTrackers parserStates].
      rewrite Hid, !lookup_delete_eq. auto.
    + rewrite onRecord_nothing_new.
      2:{ cbn [Logger.chunks Logger.withFailure Logger.id processedChunkCounts].
          rewrite Hid, lookup_insert_eq, default_Some, Hchunks. apply Nat.le_refl. }
      cbn [Logger.completed Logger.withFailure Logger.id fst
           processedChunkCounts messageTrackers parserStates].
      rewrite Hid, !lookup_delete_eq, lookup_insert_eq. auto.
Qed.

End HookFlow.

(** X19.  A record delivered to the hook after an earlier, unfinished
    version of itself leaves the registry as if only the later version
    had been delivered: the chunks that the earlier delivery processed
    are not processed again, and the parser and the tracker go on from
    where they were.  The maps of the hook agree as well, unless the later
    version is a completion that brings no new chunk. *)
Theorem delivery_in_steps_is_delivery_at_once
    (JSON_parse : string -> option JS.JValue)
    (r1 r2 : Logger.RawResponseRecord) (more : list Logger.RawResponseChunk)
    (st : Hook.HookState * Registry.Registry) :
  Logger.id r2 = Logger.id r1 ->
  Logger.chunks r2 = Logger.chunks r1 ++ more ->
  Logger.completed r1 = false ->
  snd (Hook.onRecord JSON_parse r2 (Hook.onRecord JSON_parse r1 st))
  = snd (Hook.onRecord JSON_parse r2 st)
  /\ (Logger.completed r2 = false \/ more <> [] ->
      Hook.onRecord JSON_parse r2 (Hook.onRecord JSON_parse r1 st)
      = Hook.onRecord JSON_parse r2 st).
Proof. apply onRecord_after_earlier. Qed.

Lemma delivery_in_steps_is_delivery_at_once_witness :
  let parse (payload : string) : option JS.JValue :=
    if String.eqb payload sampleObject
    then Some (snapshotPayload [textMessage "m1" ["hi"]])
    else None in
  let r0 := Delivery.createdRecord "r" "t0" "/api/copilotkit" "POST" None in
  let r1 := Logger.withChunk "r" (Chars.dq "{'a':'x{") "t1" r0 in
  let r2 := Logger.withChunk "r" (Chars.dq "y}\'z}'}") "t2" r1 in
  let st := (Hook.emptyHook, Registry.emptyRegistry) in
  snd (Hook.onRecord parse r2 (Hook.onRecord parse r1 st))
  = snd (Hook.onRecord parse r2 st)
  /\ (Logger.completed r2 = false
      \/ [Logger.mkChunk "r-1" (Chars.dq "y}\'z}'}") "t2"] <> [] ->
      Hook.onRecord parse r2 (Hook.onRecord parse r1 st)
      = Hook.onRecord parse r2 st).
Proof.
  intros parse r0 r1 r2 st.
  apply (delivery_in_steps_is_delivery_at_once parse r1 r2
           [Logger.mkChunk "r-1" (Chars.dq "y}\'z}'}") "t2"] st);
    reflexivity.
Defined.

(** X20.  When the stream of an answered request ends, whether at its
    end or by an error, the hook drops the count and the tracker of the
    record, but it keeps the parser state of every stream that brought at
    least one chunk: the completion arrives without a new chunk, and that
    branch of the callback does not delete from [parserStates].  A stream
    that ends without a chunk leaves nothing behind. *)
Theorem ended_stream_keeps_its_parser_state
    (JSON_parse : string -> option JS.JValue)
    (recordId now url method : string) (requestBody : option string)
    (code : Z) (reason : string) (events : list Logger.StreamEvent)
    (hook : Hook.HookState) (reg : Registry.Registry) :
  Delivery.unseen recordId hook ->
  Delivery.terminated events = true ->
  let hook' :=
    fst (Delivery.replay JSON_parse
           (Delivery.fetchRecords recordId now url method requestBody code reason
              events)
           (hook, reg)) in
  Hook.processedChunkCounts hook' !! recordId = None
  /\ Hook.messageTrackers hook' !! recordId = None
  /\ Hook.parserStates hook' !! recordId
     = match Delivery.readTexts events with
       | [] => None
       | _ :: _ =>
           Some (snd (Interpreter.processChunk JSON_parse
                        (Extractor.joinChunks (Delivery.readTexts events))
                        ((reg, ∅), Extractor.initialParserState)))
       end.
Proof.
  intros Hunseen Hend hook'. subst hook'. unfold Delivery.fetchRecords. cbv zeta.
  set (answered :=
         Logger.withStatus code reason
           (Delivery.createdRecord recordId now url method requestBody)).
  rewrite replay_cons, onRecord_created, replay_cons.
  destruct (replay_stream_closed JSON_parse recordId events hook reg answered
              eq_refl eq_refl Hunseen Hend) as (Hcount & Htracker & Hparser).
  split; [exact Hcount |]. split; [exact Htracker |].
  rewrite Hparser.
  pose proof (finalRecord_texts recordId events answered) as Htexts.
  change (map Logger.text (Logger.chunks answered)) with (@nil string) in Htexts.
  cbn [app] in Htexts. rewrite <- Htexts.
  now destruct (Logger.chunks (Delivery.finalRecord recordId answered events)).
Qed.

Lemma ended_stream_keeps_its_parser_state_witness :
  let parse (payload : string) : option JS.JValue :=
    if String.eqb payload sampleObject
    then Some (snapshotPayload [textMessage "m1" ["hi"]])
    else None in
  let events :=
    [Logger.StreamChunk (Chars.dq "{'a':'x{") "t1";
     Logger.StreamChunk (Chars.dq "y}\'z}'}") "t2";
     Logger.StreamDone "t3"] in
  let hook' :=
    fst (Delivery.replay parse
           (Delivery.fetchRecords "r" "t0" "/api/copilotkit" "POST" None 200 "OK"
              events)
           (Hook.emptyHook, Registry.emptyRegistry)) in
  Hook.processedChunkCounts hook' !! "r" = None
  /\ Hook.messageTrackers hook' !! "r" = None
  /\ Hook.parserStates hook' !! "r"
     = match Delivery.readTexts events with
       | [] => None
       | _ :: _ =>
           Some (snd (Interpreter.processChunk parse
                        (Extractor.joinChunks (Delivery.readTexts events))
                        ((Registry.emptyRegistry, ∅),
                         Extractor.initialParserState)))
       end.
Proof.
  intros parse events.
  apply (ended_stream_keeps_its_parser_state parse "r" "t0" "/api/copilotkit"
           "POST" None 200 "OK" events Hook.emptyHook Registry.emptyRegistry).
  - repeat split; apply lookup_empty.
  - reflexivity.
Defined.

(** X21.  The callback of the hook reads and writes only the entries of
    the record it is called with: the count, the tracker and the parser
    state that the hook holds for any other record id are what they were,
    whatever the record brings and whether or not it is complete. *)
Theorem streams_do_not_touch_each_other
    (JSON_parse : string -> option JS.JValue)
    (record : Logger.RawResponseRecord) (recordId : string)
    (hook : Hook.HookState) (reg : Registry.Registry) :
  recordId <> Logger.id record ->
  let hook' := fst (Hook.onRecord JSON_parse record (hook, reg)) in
  Hook.processedChunkCounts hook' !! recordId
  = Hook.processedChunkCounts hook !! recordId
  /\ Hook.messageTrackers hook' !! recordId = Hook.messageTrackers hook !! recordId
  /\ Hook.parserStates hook' !! recordId = Hook.parserStates hook !! recordId.
Proof.
  intros Hne hook'. subst hook'.
  destruct (Nat.le_gt_cases (length (Logger.chunks record))
              (default 0%nat
                 (Hook.processedChunkCounts hook !! Logger.id record)))
    as [Hle | Hgt].
  - rewrite (onRecord_nothing_new JSON_parse record hook reg Hle).
    destruct (Logger.completed record);
      cbn [fst Hook.processedChunkCounts Hook.messageTrackers Hook.parserStates];
      rewrite ?lookup_delete_ne by congruence; auto.
  - rewrite (onRecord_new_chunks JSON_parse record hook reg Hgt). cbv zeta.
    destruct (Logger.completed record);
      cbn [fst Hook.processedChunkCounts Hook.messageTrackers Hook.parserStates];
      rewrite ?lookup_delete_ne, ?lookup_insert_ne by congruence; auto.
Qed.

Lemma streams_do_not_touch_each_other_witness :
  let parse (payload : string) : option JS.JValue :=
    if String.eqb payload sampleObject
    then Some (snapshotPayload [textMessage "m1" ["hi"]])
    else None in
  let first :=
    Logger.withChunk "r" (Chars.dq "{'a':'x{") "t1"
      (Delivery.createdRecord "r" "t0" "/api/copilotkit" "POST" None) in
  let second :=
    Logger.withCompletion "t3"
      (Logger.withChunk "s" sampleObject "t2"
         (Delivery.createdRecord "s" "t0" "/api/copilotkit" "POST" None)) in
  let hook :=
    fst (Hook.onRecord parse first (Hook.emptyHook, Registry.emptyRegistry)) in
  let hook' := fst (Hook.onRecord parse second (hook, Registry.emptyRegistry)) in
  Hook.processedChunkCounts hook' !! "r" = Hook.processedChunkCounts hook !! "r"
  /\ Hook.messageTrackers hook' !! "r" = Hook.messageTrackers hook !! "r"
  /\ Hook.parserStates hook' !! "r" = Hook.parserStates hook !! "r".
Proof.
  intros parse first second hook.
  apply (streams_do_not_touch_each_other parse second "r" hook
           Registry.emptyRegistry).
  discriminate.
Defined.

(** X22.  From the fetch to the registry: when the callback of the hook
    is subscribed to the logger and the hook has not seen the record id,
    the records that the logger delivers for an answered request, while
    it creates the record, records the status and reads the stream,
    bring the registry to what processing the whole text of the stream at
    once gives, from an empty tracker and the initial parser state.
    Neither the cut of the stream into chunks nor the repeated delivery
    of the growing record shows in the registry. *)
Theorem logged_stream_reaches_registry
    (JSON_parse : string -> option JS.JValue)
    (callback : Logger.RawResponseSubscriber)
    (recordId now url method : string) (requestBody : option string)
    (code : Z) (reason : string)
    (events : list Logger.StreamEvent) (st : Logger.LoggerState)
    (hook : Hook.HookState) (reg : Registry.Registry) :
  In callback (Logger.rawResponseSubscribers st) ->
  List.NoDup (Logger.rawResponseSubscribers st) ->
  Delivery.unseen recordId hook ->
  exists delivered,
    Delivery.deliveredTo callback
      (Delivery.loggedFetch recordId now url method requestBody code reason
         events st)
    = Delivery.deliveredTo callback st ++ delivered
    /\ snd (Delivery.replay JSON_parse delivered (hook, reg))
       = fst (fst (Interpreter.processChunk JSON_parse
                     (Extractor.joinChunks (Delivery.readTexts events))
                     ((reg, ∅), Extractor.initialParserState))).
Proof.
  intros Hin Hnd Hunseen.
  exists (Delivery.fetchRecords recordId now url method requestBody code reason
            events).
  split; [now apply deliveredTo_loggedFetch |].
  unfold Delivery.fetchRecords. cbv zeta.
  rewrite replay_cons, onRecord_created, replay_cons.
  rewrite replay_stream_registry by reflexivity.
  rewrite onRecord_unseen_registry
    by (rewrite finalRecord_id; exact Hunseen).
  now rewrite finalRecord_texts.
Qed.

Lemma logged_stream_reaches_registry_witness :
  let parse (payload : string) : option JS.JValue :=
    if String.eqb payload sampleObject
    then Some (snapshotPayload [textMessage "m1" ["hi"]])
    else None in
  let events :=
    [Logger.StreamChunk (Chars.dq "{'a':'x{") "t1";
     Logger.StreamChunk (Chars.dq "y}\'z}'}") "t2";
     Logger.StreamDone "t3"] in
  let st := Logger.subscribeToRawResponses 7%nat Logger.emptyLogger in
  exists delivered,
    Delivery.deliveredTo 7%nat
      (Delivery.loggedFetch "r" "t0" "/api/copilotkit" "POST" None 200 "OK"
         events st)
    = Delivery.deliveredTo 7%nat st ++ delivered
    /\ snd (Delivery.replay parse delivered
              (Hook.emptyHook, Registry.emptyRegistry))
       = fst (fst (Interpreter.processChunk parse
                     (Extractor.joinChunks (Delivery.readTexts events))
                     ((Registry.emptyRegistry, ∅),
                      Extractor.initialParserState))).
Proof.
  intros parse events st.
  apply (logged_stream_reaches_registry parse 7%nat "r" "t0" "/api/copilotkit"
           "POST" None 200 "OK" events st Hook.emptyHook Registry.emptyRegistry).
  - now left.
  - repeat constructor. intros [].
  - repeat split; apply lookup_empty.
Defined.

(** ** What the logger records and whom it tells *)

Section StreamFacts.
Import JS Logger Delivery.

Lemma streamRecords_length recordId events :
  forall current,
    length (streamRecords recordId current events)
    = (length (readTexts events) + if terminated events then 1 else 0)%nat.
Proof.
  induction events as [|[text0 now|now|message now] rest IH]; intros current;
    cbn [streamRecords readTexts terminated length]; [reflexivity | | reflexivity ..].
  now rewrite IH.
Qed.

Lemma streamRecords_last recordId events :
  forall current,
    list.last (current :: streamRecords recordId current events)
    = Some (finalRecord recordId current events).
Proof.
  induction events as [|[text0 now|now|message now] rest IH]; intros current;
    cbn [streamRecords finalRecord]; [reflexivity | | reflexivity ..].
  rewrite last_cons_cons. apply IH.
Qed.

Lemma streamRecords_ids recordId events :
  forall current,
    Forall (fun record => id record = id current)
      (streamRecords recordId current events).
Proof.
  induction events as [|[text0 now|now|message now] rest IH]; intros current;
    cbn [streamRecords].
  - constructor.
  - constructor; [reflexivity |]. apply (IH (withChunk recordId text0 now current)).
  - repeat constructor.
  - repeat constructor.
Qed.

End StreamFacts.

(** X23.  A record id that the store does not hold is ignored: reading a
    stream for it, appending to it or updating it changes neither the
    store nor the subscribers, and nobody is notified.  This is what
    becomes of a stream still being read when [clearRawResponses] is
    called: the rest of it is dropped without a trace. *)
Theorem unknown_record_is_ignored
    (recordId : string) (events : list Logger.StreamEvent)
    (updater : Logger.RawResponseRecord -> Logger.RawResponseRecord)
    (st : Logger.LoggerState) :
  Logger.getRawResponse recordId st = None ->
  Logger.readStream recordId events st = st
  /\ Logger.updateRecord recordId updater st = (None, st).
Proof.
  intros H. split; [now apply readStream_unknown | now apply updateRecord_unknown].
Qed.

Lemma unknown_record_is_ignored_witness :
  let st :=
    Logger.clearRawResponses
      (Logger.appendChunk "r" "{" "t1"
         (Logger.createRecord "r" "t0" "/api/copilotkit" "POST" None
            (Logger.subscribeToRawResponses 7%nat Logger.emptyLogger))) in
  Logger.readStream "r" [Logger.StreamChunk "}" "t2"; Logger.StreamDone "t3"] st = st
  /\ Logger.updateRecord "r" (Logger.withStatus 200 "OK") st = (None, st).
Proof.
  intros st.
  apply (unknown_record_is_ignored "r"
           [Logger.StreamChunk "}" "t2"; Logger.StreamDone "t3"]
           (Logger.withStatus 200 "OK") st).
  reflexivity.
Defined.

(** X24.  After the wrapper of [fetch] has created the record, recorded
    the status and had the stream read, the store holds under the record
    id a record with that status whose chunks carry the texts read, in
    the order read, up to the end of the stream or its first error; the
    chunk ids are the record id followed by 0, 1, 2, ... and so are
    distinct; and the record is complete exactly if the reading reached
    the end of the stream or an error. *)
Theorem readStream_records_the_chunks_in_order
    (recordId now url method : string) (requestBody : option string)
    (code : Z) (reason : string)
    (events : list Logger.StreamEvent) (st : Logger.LoggerState) :
  exists record,
    Logger.getRawResponse recordId
      (Delivery.loggedFetch recordId now url method requestBody code reason
         events st)
    = Some record
    /\ Logger.id record = recordId
    /\ map Logger.text (Logger.chunks record) = Delivery.readTexts events
    /\ map Logger.chunkId (Logger.chunks record)
       = map (Logger.nextChunkId recordId)
           (seq 0 (length (Delivery.readTexts events)))
    /\ List.NoDup (map Logger.chunkId (Logger.chunks record))
    /\ Logger.completed record = Delivery.terminated events.
Proof.
  set (answered :=
         Logger.withStatus code reason
           (Delivery.createdRecord recordId now url method requestBody)).
  exists (Delivery.finalRecord recordId answered events).
  assert (Hids : map Logger.chunkId
                   (Logger.chunks (Delivery.finalRecord recordId answered events))
                 = map (Logger.nextChunkId recordId)
                     (seq 0 (length (Delivery.readTexts events))))
    by apply (finalRecord_chunkIds recordId events answered).
  split; [| split; [| split; [| split; [| split]]]].
  - apply loggedFetch_stored.
  - apply finalRecord_id.
  - apply (finalRecord_texts recordId events answered).
  - exact Hids.
  - rewrite Hids. apply NoDup_map_inj; [apply nextChunkId_inj | apply List.seq_NoDup].
  - apply (finalRecord_completed recordId events answered).
Qed.

(** X25.  A subscriber of the logger is called once with every version of
    the record of an answered request: with the record as created, with
    its status, after each chunk read, and at the end of the stream or
    its error; the calls all carry the record id, and the last one
    carries the record that the store then holds. *)
Theorem subscriber_hears_every_version
    (callback : Logger.RawResponseSubscriber)
    (recordId now url method : string) (requestBody : option string)
    (code : Z) (reason : string)
    (events : list Logger.StreamEvent) (st : Logger.LoggerState) :
  In callback (Logger.rawResponseSubscribers st) ->
  List.NoDup (Logger.rawResponseSubscribers st) ->
  let after :=
    Delivery.loggedFetch recordId now url method requestBody code reason events st in
  exists delivered,
    Delivery.deliveredTo callback after
    = Delivery.deliveredTo callback st ++ delivered
    /\ length delivered
       = (2 + length (Delivery.readTexts events)
          + if Delivery.terminated events then 1 else 0)%nat
    /\ Forall (fun record => Logger.id record = recordId) delivered
    /\ list.last delivered = Logger.getRawResponse recordId after.
Proof.
  intros Hin Hnd after. subst after.
  exists (Delivery.fetchRecords recordId now url method requestBody code reason
            events).
  split; [now apply deliveredTo_loggedFetch |].
  unfold Delivery.fetchRecords. cbv zeta.
  set (answered :=
         Logger.withStatus code reason
           (Delivery.createdRecord recordId now url method requestBody)).
  split; [| split].
  - cbn [length]. now rewrite streamRecords_length.
  - constructor; [reflexivity |].
    constructor; [reflexivity | apply (streamRecords_ids recordId events answered)].
  - rewrite last_cons_cons, streamRecords_last. symmetry.
    apply loggedFetch_stored.
Qed.

Lemma subscriber_hears_every_version_witness :
  let st :=
    Logger.subscribeToRawResponses 7%nat
      (Logger.subscribeToRawResponses 3%nat Logger.emptyLogger) in
  let events :=
    [Logger.StreamChunk "{" "t1"; Logger.StreamChunk "}" "t2";
     Logger.StreamError "reset" "t3"; Logger.StreamChunk "late" "t4"] in
  let after :=
    Delivery.loggedFetch "r" "t0" "/api/copilotkit" "POST" None 200 "OK" events st in
  exists delivered,
    Delivery.deliveredTo 7%nat after = Delivery.deliveredTo 7%nat st ++ delivered
    /\ length delivered
       = (2 + length (Delivery.readTexts events)
          + if Delivery.terminated events then 1 else 0)%nat
    /\ Forall (fun record => Logger.id record = "r") delivered
    /\ list.last delivered = Logger.getRawResponse "r" after.
Proof.
  intros st events.
  apply (subscriber_hears_every_version 7%nat "r" "t0" "/api/copilotkit" "POST"
           None 200 "OK" events st).
  - right. now left.
  - repeat constructor; cbn; intuition discriminate.
Defined.

(** ** The persisted entries *)

Section PersistFacts.
Import Logger.

Lemma findIndexById_found record entries :
  forall i,
    findIndexById (id record) entries = Some i ->
    map id (<[i := record]> entries) = map id entries
    /\ length (<[i := record]> entries) = length entries
    /\ In record (<[i := record]> entries)
    /\ (forall entry, In entry (<[i := record]> entries) ->
                      entry = record \/ In entry entries).
Proof.
  induction entries as [|entry rest IH]; intros i; cbn [findIndexById];
    [discriminate |].
  destruct (String.eqb (id entry) (id record)) eqn:E.
  - intros [= <-]. apply String.eqb_eq in E.
    change (<[0%nat := record]> (entry :: rest)) with (record :: rest).
    cbn [map length]. rewrite E.
    repeat split; [now left |]. intros e [<- | He]; [now left | right; now right].
  - destruct (findIndexById (id record) rest) as [j|]; [| discriminate].
    intros [= <-]. destruct (IH j eq_refl) as (Hmap & Hlen & Hin & Hfrom).
    change (<[S j := record]> (entry :: rest)) with (entry :: <[j := record]> rest).
    cbn [map length].
    rewrite Hmap, Hlen. repeat split; [now right |].
    intros e [<- | He]; [right; now left |].
    destruct (Hfrom e He) as [-> | H]; [now left | right; now right].
Qed.

Lemma findIndexById_absent recordId entries :
  findIndexById recordId entries = None -> ~ In recordId (map id entries).
Proof.
  induction entries as [|entry rest IH]; cbn [findIndexById map]; [auto |].
  destruct (String.eqb (id entry) recordId) eqn:E; [discriminate |].
  destruct (findIndexById recordId rest); [discriminate |].
  intros _ [H | H]; [| now apply IH].
  apply String.eqb_neq in E. contradiction.
Qed.

Lemma NoDup_drop {A} (n : nat) (l : list A) : List.NoDup l -> List.NoDup (drop n l).
Proof.
  intros H. rewrite <- (firstn_skipn n l) in H.
  now apply NoDup_app_remove_l in H.
Qed.

Lemma In_drop {A} (n : nat) (l : list A) x : In x (drop n l) -> In x l.
Proof.
  intros H. rewrite <- (firstn_skipn n l). apply in_or_app. now right.
Qed.

End PersistFacts.

(** X26.  The subscriber of [persistRawResponsesLocally] keeps the
    persisted list within [maxEntries] and with one entry for each id: when
    the list it loads is within the bound and has distinct ids, the list
    it writes holds the record, is within the bound, has distinct ids, and
    holds nothing but the record and entries that were there. *)
Theorem persistEntry_keeps_the_cache_bounded
    (maxEntries : Z) (record : Logger.RawResponseRecord)
    (entries : list Logger.RawResponseRecord) :
  1 <= maxEntries ->
  Z.of_nat (length entries) <= maxEntries ->
  List.NoDup (map Logger.id entries) ->
  let result := Logger.persistEntry maxEntries record entries in
  In record result
  /\ Z.of_nat (length result) <= maxEntries
  /\ List.NoDup (map Logger.id result)
  /\ (forall entry, In entry result -> entry = record \/ In entry entries).
Proof.
  intros Hmax Hlen Hnd result. subst result. unfold Logger.persistEntry.
  destruct (Logger.findIndexById (Logger.id record) entries) as [i|] eqn:Hfind.
  - destruct (findIndexById_found record entries i Hfind)
      as (Hmap & Hlen' & Hin & Hfrom).
    rewrite Hlen'.
    assert (Hno : (maxEntries <? Z.of_nat (length entries)) = false)
      by (apply Z.ltb_ge; exact Hlen).
    rewrite Hno. rewrite Hmap, Hlen'. auto.
  - apply findIndexById_absent in Hfind.
    assert (Hnd' : List.NoDup (map Logger.id (entries ++ [record]))).
    { rewrite List.map_app. cbn [map]. now apply NoDup_snoc. }
    assert (Hfrom : forall entry, In entry (entries ++ [record]) ->
                                  entry = record \/ In entry entries).
    { intros e He. apply in_app_or in He as [He | [<- | []]]; auto. }
    rewrite length_app. cbn [length].
    destruct (maxEntries <? Z.of_nat (length entries + 1)) eqn:Hover.
    + apply Z.ltb_lt in Hover.
      assert (Hk : Z.to_nat (Z.of_nat (length entries + 1) - maxEntries) = 1%nat)
        by lia.
      rewrite Hk. split; [| split; [| split]].
      * rewrite drop_app_le by lia. apply in_or_app. right. now left.
      * rewrite length_skipn, length_app. cbn [length]. lia.
      * rewrite <- skipn_map. now apply NoDup_drop.
      * intros e He. apply Hfrom. now apply In_drop in He.
    + apply Z.ltb_ge in Hover. split; [| split; [| split]].
      * apply in_or_app. right. now left.
      * rewrite length_app. cbn [length]. lia.
      * exact Hnd'.
      * exact Hfrom.
Qed.

Lemma persistEntry_keeps_the_cache_bounded_witness :
  let entry (recordId : string) :=
    Delivery.createdRecord recordId "t0" "/api/copilotkit" "POST" None in
  let result :=
    Logger.persistEntry 2 (entry "c") [entry "a"; entry "b"] in
  In (entry "c") result
  /\ Z.of_nat (length result) <= 2
  /\ List.NoDup (map Logger.id result)
  /\ (forall e, In e result -> e = entry "c" \/ In e [entry "a"; entry "b"]).
Proof.
  intros entry.
  apply (persistEntry_keeps_the_cache_bounded 2 (entry "c") [entry "a"; entry "b"]).
  - lia.
  - cbn. lia.
  - repeat constructor; cbn; intuition discriminate.
Defined.

(** ** The markdown links *)

Section MarkdownFacts.
Import Markdown.

Lemma afterPrefix_append prefix s : afterPrefix prefix (prefix +:+ s) = Some s.
Proof.
  induction prefix as [|c prefix IH]; rewrite ?append_nil_l, ?append_cons;
    cbn [afterPrefix]; [reflexivity |].
  now rewrite Ascii.eqb_refl.
Qed.

Lemma afterPrefix_Some prefix :
  forall s rest, afterPrefix prefix s = Some rest -> s = prefix +:+ rest.
Proof.
  induction prefix as [|c prefix IH]; intros s rest; cbn [afterPrefix].
  - intros [= ->]. now rewrite append_nil_l.
  - destruct s as [|d s]; [discriminate |].
    destruct (Ascii.eqb c d) eqn:E; [| discriminate].
    apply Ascii.eqb_eq in E. subst d. intros H.
    rewrite append_cons. f_equal. now apply IH.
Qed.

Lemma afterPrefix_differs prefix c d (a b : string) :
  c <> d -> afterPrefix (prefix +:+ String c a) (prefix +:+ String d b) = None.
Proof.
  intros Hne. induction prefix as [|x prefix IH];
    rewrite ?append_nil_l, ?append_cons; cbn [afterPrefix].
  - apply Ascii.eqb_neq in Hne. now rewrite Hne.
  - now rewrite Ascii.eqb_refl.
Qed.

Lemma isDigit_not_colon c : JsonText.isDigit c = true -> Ascii.eqb c ":" = false.
Proof.
  intros H. destruct (Ascii.eqb c ":") eqn:E; [| reflexivity].
  apply Ascii.eqb_eq in E. subst c. discriminate H.
Qed.

Lemma indexOfColon_digits ident rest :
  JsonText.allChars JsonText.isDigit ident = true ->
  indexOfColon (ident +:+ String ":" rest) = Some (String.length ident).
Proof.
  induction ident as [|c ident IH]; rewrite ?append_nil_l, ?append_cons;
    cbn [indexOfColon JsonText.allChars String.length].
  - reflexivity.
  - intros H. apply andb_true_iff in H as [Hc Hrest].
    rewrite (isDigit_not_colon c Hc), (IH Hrest). reflexivity.
Qed.

Lemma substringTo_append a b : substringTo (String.length a) (a +:+ b) = a.
Proof.
  induction a as [|c a IH]; rewrite ?append_nil_l, ?append_cons;
    cbn [substringTo String.length].
  - now destruct b.
  - now rewrite IH.
Qed.

Lemma substringFrom_append a c b :
  substringFrom (String.length a + 1) (a +:+ String c b) = b.
Proof.
  induction a as [|x a IH]; rewrite ?append_nil_l, ?append_cons;
    cbn [substringFrom String.length Nat.add].
  - now destruct b.
  - exact IH.
Qed.

Lemma indexOfColon_split s :
  forall n,
    indexOfColon s = Some n ->
    s = substringTo n s +:+ String ":" (substringFrom (n + 1) s).
Proof.
  induction s as [|c s IH]; intros n; cbn [indexOfColon]; [discriminate |].
  destruct (Ascii.eqb c ":") eqn:E.
  - intros [= <-]. apply Ascii.eqb_eq in E. subst c.
    cbn [substringTo substringFrom Nat.add]. rewrite append_nil_l.
    now destruct s.
  - destruct (indexOfColon s) as [m|]; [| discriminate].
    intros [= <-]. cbn [substringTo substringFrom Nat.add].
    rewrite append_cons. f_equal. now apply IH.
Qed.

Lemma stripOptionalHash_hash prefix rest :
  stripOptionalHash prefix (String "#" (prefix +:+ rest)) = rest.
Proof.
  unfold stripOptionalHash.
  change ("#" +:+ prefix) with (String "#" prefix).
  rewrite <- append_cons. now rewrite afterPrefix_append.
Qed.

Lemma stripOptionalHash_bare c prefix rest :
  c <> "#"%char ->
  stripOptionalHash (String c prefix) (String c prefix +:+ rest) = rest.
Proof.
  intros Hne. unfold stripOptionalHash.
  change ("#" +:+ String c prefix) with (String "#" (String c prefix)).
  rewrite append_cons. cbn [afterPrefix].
  assert (E : Ascii.eqb "#" c = false) by (apply Ascii.eqb_neq; congruence).
  rewrite E, Ascii.eqb_refl. now rewrite afterPrefix_append.
Qed.

End MarkdownFacts.

(** X27.  A footnote and its definition meet: for an id made of digits,
    the link [#source:id:url] is rendered as a footnote definition with
    that id and url, whatever colons the url holds, the link [#ref:id] is
    rendered as a footnote reference with that id, and the element that
    the reference points to and scrolls to is the element of the
    definition. *)
Theorem footnote_reference_meets_its_definition (ident url : string) :
  Markdown.isDigits ident = true ->
  Markdown.renderLink (Some ("#source:" +:+ ident +:+ String ":" url))
  = Markdown.FootnoteDefinitionElement ident url
  /\ Markdown.renderLink (Some ("#ref:" +:+ ident))
     = Markdown.FootnoteReferenceElement ident
  /\ Markdown.footnoteReferenceTarget ident
     = Markdown.footnoteDefinitionElementId ident
  /\ Markdown.footnoteReferenceHref ident
     = String "#" (Markdown.footnoteDefinitionElementId ident).
Proof.
  intros Hdigits. unfold Markdown.isDigits in Hdigits.
  apply andb_true_iff in Hdigits as [Hnonempty Hall].
  split; [| split; [| split]].
  - unfold Markdown.renderLink.
    rewrite afterPrefix_append, (indexOfColon_digits ident url Hall).
    rewrite substringTo_append, substringFrom_append.
    unfold Markdown.isDigits. rewrite Hnonempty, Hall.
    destruct ident as [|c ident]; [discriminate Hnonempty | reflexivity].
  - unfold Markdown.renderLink.
    change "#source:" with ("#" +:+ String "s" "ource:").
    change ("#ref:" +:+ ident) with ("#" +:+ String "r" ("ef:" +:+ ident)).
    rewrite afterPrefix_differs by discriminate.
    change ("#" +:+ String "r" ("ef:" +:+ ident)) with ("#ref:" +:+ ident).
    unfold Markdown.startsWith. rewrite afterPrefix_append.
    change ("#ref:" +:+ ident) with (String "#" ("ref:" +:+ ident)).
    now rewrite stripOptionalHash_hash.
  - reflexivity.
  - reflexivity.
Qed.

Lemma footnote_reference_meets_its_definition_witness :
  Markdown.renderLink (Some ("#source:" +:+ "12" +:+ String ":" "https://a.example:8080/x"))
  = Markdown.FootnoteDefinitionElement "12" "https://a.example:8080/x"
  /\ Markdown.renderLink (Some ("#ref:" +:+ "12"))
     = Markdown.FootnoteReferenceElement "12"
  /\ Markdown.footnoteReferenceTarget "12"
     = Markdown.footnoteDefinitionElementId "12"
  /\ Markdown.footnoteReferenceHref "12"
     = String "#" (Markdown.footnoteDefinitionElementId "12").
Proof.
  apply (footnote_reference_meets_its_definition "12" "https://a.example:8080/x").
  reflexivity.
Defined.

(** X28.  What the link renderer returns tells what the link was: a
    footnote definition comes only from [#source:id:url] with an id made
    of digits, and its id and url put the link together again; a source
    reference is handed the whole link, which starts with [#source:]; a
    footnote reference comes only from [#ref:id]; and the plain anchor
    never has an empty [href], an absent or empty one being replaced by
    [#]. *)
Theorem renderLink_tells_the_link (href : option string) :
  match Markdown.renderLink href with
  | Markdown.FootnoteDefinitionElement ident url =>
      href = Some ("#source:" +:+ ident +:+ String ":" url)
      /\ Markdown.isDigits ident = true
  | Markdown.SourceReferenceElement link =>
      href = Some link /\ Markdown.startsWith "#source:" link = true
  | Markdown.FootnoteReferenceElement ident => href = Some ("#ref:" +:+ ident)
  | Markdown.AnchorElement link =>
      link <> ""
      /\ (href = Some link \/ (link = "#" /\ (href = None \/ href = Some "")))
  end.
Proof.
  unfold Markdown.renderLink. destruct href as [link|].
  2:{ split; [discriminate | right; auto]. }
  destruct (Markdown.afterPrefix "#source:" link) as [sourceContent|] eqn:Hsource.
  - assert (Hstarts : Markdown.startsWith "#source:" link = true)
      by (unfold Markdown.startsWith; now rewrite Hsource).
    apply afterPrefix_Some in Hsource.
    destruct (Markdown.indexOfColon sourceContent) as [n|] eqn:Hcolon; [| auto].
    destruct ((0 <? n)%nat
              && Markdown.isDigits (Markdown.substringTo n sourceContent)) eqn:Hid;
      [| auto].
    apply andb_true_iff in Hid as [_ Hdigits]. split; [| exact Hdigits].
    rewrite Hsource. do 2 f_equal. now apply indexOfColon_split.
  - destruct (Markdown.startsWith "#ref:" link) eqn:Href.
    + unfold Markdown.startsWith in Href. unfold Markdown.stripOptionalHash.
      change ("#" +:+ "ref:") with "#ref:".
      destruct (Markdown.afterPrefix "#ref:" link) as [rest|] eqn:Hrest;
        [| discriminate].
      f_equal. now apply afterPrefix_Some.
    + destruct (String.eqb link "") eqn:E.
      * apply String.eqb_eq in E. subst link. split; [discriminate | right; auto].
      * apply String.eqb_neq in E. split; [exact E | now left].
Qed.

(** X29.  The url of a source reference is never empty, so the length
    test of its validity flag decides nothing: the flag is true exactly
    when the url is not [#].  The url is the link without its [source:]
    prefix, with or without the hash before it, or [#] when nothing is
    left. *)
Theorem sourceUrl_is_never_empty (href : option string) (rest : string) :
  Markdown.sourceUrl href <> ""
  /\ Markdown.isValidUrl href = negb (String.eqb (Markdown.sourceUrl href) "#")
  /\ Markdown.sourceUrl (Some ("#source:" +:+ rest))
     = (if String.eqb rest "" then "#" else rest)
  /\ Markdown.sourceUrl (Some ("source:" +:+ rest))
     = (if String.eqb rest "" then "#" else rest).
Proof.
  assert (Hne : Markdown.sourceUrl href <> "").
  { unfold Markdown.sourceUrl. destruct href as [link|]; [| discriminate].
    cbv zeta.
    destruct (String.eqb (Markdown.stripOptionalHash "source:" link) "") eqn:E;
      [discriminate | now apply String.eqb_neq]. }
  split; [exact Hne |]. split; [| split].
  - unfold Markdown.isValidUrl.
    destruct (Markdown.sourceUrl href) as [|c s]; [congruence |].
    cbn [String.length]. now rewrite andb_true_r.
  - unfold Markdown.sourceUrl. cbv zeta.
    change ("#source:" +:+ rest) with (String "#" ("source:" +:+ rest)).
    now rewrite stripOptionalHash_hash.
  - unfold Markdown.sourceUrl. cbv zeta.
    now rewrite (stripOptionalHash_bare "s" "ource:" rest) by discriminate.
Qed.
